(** * UnrealLibretro: the instance allocator, the run loop's timing, the audio
    and input callbacks, the video and environment callbacks, launch
    validation, save states and the ordered file-access chain

    Shallow embedding of
    [Source/UnrealLibretro/Private/sdlarch.cpp] and
    [Source/UnrealLibretro/Private/LibretroCoreInstance.cpp].

    Part I holds the definitions, in the order of the source files; Part II
    holds the lemmas and theorems about them. *)

From Stdlib Require Import ZArith Floats Ascii.
From stdpp Require Import gmap strings list fin_maps pretty.

Local Open Scope Z_scope.

(* ===================================================================== *)
(** * Part I: definitions                                                 *)
(* ===================================================================== *)

(** ** Machine integers *)

(** Conversion of an integer to [int16_t] (two's complement wrap-around). *)
Definition to_int16 (z : Z) : Z := (z + 2 ^ 15) mod 2 ^ 16 - 2 ^ 15.

(** Conversion of an integer to [uint64]. *)
Definition to_uint64 (z : Z) : Z := z mod 2 ^ 64.

(** Conversion of an integer to [int64_t], the type behind [retro_time_t]
    and [retro_usec_t]. *)
Definition to_int64 (z : Z) : Z := (z + 2 ^ 63) mod 2 ^ 64 - 2 ^ 63.

(** Conversion of a [uint64] to [double], rounding to nearest.  Below
    [2^63] it is the primitive conversion; above, the value is halved with
    its lowest bit kept sticky, converted, and doubled. *)
Definition uint64_to_double (n : Z) : float :=
  if n <? 2 ^ 63 then PrimFloat.of_uint63 (Uint63.of_Z n)
  else (PrimFloat.of_uint63 (Uint63.of_Z (Z.lor (Z.shiftr n 1) (Z.land n 1)))
        * 2)%float.

(** Conversion of an [int64] to [double]. *)
Definition int64_to_double (z : Z) : float :=
  if z <? 0 then (- uint64_to_double (- z))%float else uint64_to_double z.

(** Conversion of an integer to [unsigned] (32 bits). *)
Definition to_uint32 (z : Z) : Z := z mod 2 ^ 32.

(** Conversion of an integer to [int32]. *)
Definition to_int32 (z : Z) : Z := (z + 2 ^ 31) mod 2 ^ 32 - 2 ^ 31.

(** Conversion of an integer to [uint16]. *)
Definition to_uint16 (z : Z) : Z := z mod 2 ^ 16.

(** ** sdlarch.cpp: the pixel format and [LibretroContext::video_refresh] *)

(** Pixel formats of libretro.h and the OpenGL constants the source names
    (gl.h); only their being distinct matters. *)
Definition RETRO_PIXEL_FORMAT_0RGB1555 : Z := 0.
Definition RETRO_PIXEL_FORMAT_XRGB8888 : Z := 1.
Definition RETRO_PIXEL_FORMAT_RGB565 : Z := 2.
Definition GL_RGB : Z := 0x1907.
Definition GL_BGRA : Z := 0x80E1.
Definition GL_UNSIGNED_SHORT_5_5_5_1 : Z := 0x8034.
Definition GL_UNSIGNED_SHORT_5_6_5 : Z := 0x8363.
Definition GL_UNSIGNED_INT_8_8_8_8_REV : Z := 0x8367.

(** The members of [g_video] that the functions below read or write
    ([g_video.hw] and the OpenGL objects apart). *)
Record video : Type := Video {
  tex_id : Z;
  pixfmt : Z;
  pixtype : Z;
  bpp : Z;
  video_pitch : Z;
  clip_w : Z;
  clip_h : Z
}.

(** [video_set_pixel_format(format)] (lines 236-261).  [None] is one of the
    two [Fatal] logs, which stop the process: a format set after the texture
    was made, or a format that is none of the three. *)
Definition video_set_pixel_format (format : Z) (v : video)
  : option (bool * video) :=
  if negb (tex_id v =? 0) then None
  else if format =? RETRO_PIXEL_FORMAT_0RGB1555 then
    Some (true, Video (tex_id v) GL_UNSIGNED_SHORT_5_5_5_1 GL_BGRA 2
                      (video_pitch v) (clip_w v) (clip_h v))
  else if format =? RETRO_PIXEL_FORMAT_XRGB8888 then
    Some (true, Video (tex_id v) GL_UNSIGNED_INT_8_8_8_8_REV GL_BGRA 4
                      (video_pitch v) (clip_w v) (clip_h v))
  else if format =? RETRO_PIXEL_FORMAT_RGB565 then
    Some (true, Video (tex_id v) GL_UNSIGNED_SHORT_5_6_5 GL_RGB 2
                      (video_pitch v) (clip_w v) (clip_h v))
  else None.

(** [FDXTColor565] (an engine type): a [uint16] read as three bit fields,
    [B] in the lowest five bits, then [G] in six, then [R] in five. *)
Definition FDXTColor565_B (px : Z) : Z := Z.land px 31.
Definition FDXTColor565_G (px : Z) : Z := Z.land (Z.shiftr px 5) 63.
Definition FDXTColor565_R (px : Z) : Z := Z.land (Z.shiftr px 11) 31.

(** The two look-up tables of [Update16BitTexture]. *)
Definition _5_bit_threshold : list Z :=
  [0; 8; 16; 25; 33; 41; 49; 58; 66; 74; 82; 90; 99; 107; 115; 123; 132; 140;
   148; 156; 165; 173; 181; 189; 197; 206; 214; 222; 230; 239; 247; 255].

Definition _6_bit_threshold : list Z :=
  [0; 4; 8; 12; 16; 20; 24; 28; 32; 36; 40; 45; 49; 53; 57; 61; 65; 69; 73;
   77; 81; 85; 89; 93; 97; 101; 105; 109; 113; 117; 121; 125; 130; 134; 138;
   142; 146; 150; 154; 158; 162; 166; 170; 174; 178; 182; 186; 190; 194; 198;
   202; 206; 210; 215; 219; 223; 227; 231; 235; 239; 243; 247; 251; 255].

(** The body of the two loops of [Update16BitTexture]: the four bytes
    written for the pixel at column [x] of row [y].  [data] is the frame of
    the core as [uint16] elements; the index [x + pitch / 2 * y] is computed
    in [unsigned].  [None] is a read outside [data]. *)
Definition Update16BitTexture_pixel (data : list Z) (pitch x y : Z)
  : option (list Z) :=
  px ← data !! Z.to_nat (to_uint32 (x + pitch / 2 * y));
  b ← _5_bit_threshold !! Z.to_nat (FDXTColor565_B px);
  g ← _6_bit_threshold !! Z.to_nat (FDXTColor565_G px);
  r ← _5_bit_threshold !! Z.to_nat (FDXTColor565_R px);
  Some [b; g; r; 255].

(** The four bytes in closed form: the fields of [px] rescaled from
    [0..31] and [0..63] to [0..255], rounded to nearest, and [255].  That
    the tables give these bytes is [Update16BitTexture_pixel_Some]. *)
Definition bgra_of (px : Z) : list Z :=
  [(510 * FDXTColor565_B px + 31) / 62;
   (510 * FDXTColor565_G px + 63) / 126;
   (510 * FDXTColor565_R px + 31) / 62;
   255].

(** What [UpdateTextureRegions] is called with: the width and height of the
    region (its offsets are [0]), the source pitch, the bytes of a pixel and
    the source bytes. *)
Record texture_update : Type := TextureUpdate {
  region_Width : Z;
  region_Height : Z;
  SrcPitch : Z;
  SrcBpp : Z;
  SrcData : list Z
}.

(** [Update16BitTexture(data, width, height, pitch)] (lines 311-328).  The
    loops write the bytes at [4 * (x + y * width)], row after row and
    column after column, so each byte of [bgra_buffer] is written once and
    in increasing order: the buffer is the concatenation of what
    [Update16BitTexture_pixel] gives.  [bgra_buffer] holds
    [4 * width * height] bytes, a product in [unsigned]: when it wraps
    around, the loops write outside the buffer, which is [None]. *)
Definition Update16BitTexture (data : list Z) (width height pitch : Z)
  : option texture_update :=
  if 4 * width * height <? 2 ^ 32 then
    bgra_buffer ← mapM (λ y,
        @concat Z <$> mapM (λ x, Update16BitTexture_pixel data pitch x y)
                           (seqZ 0 width))
      (seqZ 0 height);
    Some (TextureUpdate width height (to_uint32 (4 * width)) 4
                        (concat bgra_buffer))
  else None.

(** The [data] argument of [video_refresh]: a null pointer (the core
    repeats its last frame), [RETRO_HW_FRAME_BUFFER_VALID] (the frame is in
    the OpenGL frame buffer), or a frame in memory. *)
Inductive frame_data : Type :=
| null_frame
| RETRO_HW_FRAME_BUFFER_VALID
| software_frame (data : list Z).

(** What [video_refresh] hands to the render thread: the converted frame
    of [Update16BitTexture], or the call [Update32BitTexture(width, height)],
    whose bytes come from OpenGL.  [UNPACK_ROW_LENGTH] is the [GLint] of the
    call [glPixelStorei(GL_UNPACK_ROW_LENGTH, ...)] made before it, if one
    is made. *)
Inductive video_call : Type :=
| Texture16 (u : texture_update)
| Texture32 (UNPACK_ROW_LENGTH : option Z) (width height : Z).

(** [video_refresh(data, width, height, pitch)] (lines 345-369).  [None] is
    a failed [check], an access outside a buffer, or the division
    [g_video.pitch / g_video.bpp] of line 364 by a [bpp] of zero. *)
Definition video_refresh (UsingOpenGL : bool) (v : video) (data : frame_data)
  (width height pitch : Z) : option (video_call * video) :=
  let v :=
    if negb (clip_w v =? width) || negb (clip_h v =? height)
    then Video (tex_id v) (pixfmt v) (pixtype v) (bpp v) (video_pitch v)
               width height
    else v in
  match data with
  | software_frame data =>
      if pixfmt v =? GL_UNSIGNED_SHORT_5_6_5 then
        u ← Update16BitTexture data width height pitch;
        Some (Texture16 u, v)
      else None
  | _ =>
      if UsingOpenGL then
        if negb (pitch =? video_pitch v) then
          let v := Video (tex_id v) (pixfmt v) (pixtype v) (bpp v) pitch
                         (clip_w v) (clip_h v) in
          if bpp v =? 0 then None
          else Some (Texture32 (Some (to_int32 (video_pitch v / bpp v)))
                               width height, v)
        else Some (Texture32 None width height, v)
      else None
  end.

(** ** sdlarch.cpp: [LibretroContext::audio_write] *)

(** [TCircularQueue<int32>]: a bounded first-in first-out queue.
    [queue_room] is the number of elements the queue can hold. *)
Record audio_queue : Type := AudioQueue {
  queue_items : list Z;
  queue_room : nat
}.

(** [TCircularQueue::Enqueue]: [false], and no change, when the queue is
    full. *)
Definition Enqueue (Element : Z) (q : audio_queue) : bool * audio_queue :=
  if (length (queue_items q) <? queue_room q)%nat
  then (true, AudioQueue (queue_items q ++ [Element]) (queue_room q))
  else (false, q).

(** The members of [LibretroContext] that [audio_write] reads: the
    [running] flag and the shared pointer [QueuedAudio], which is null until
    the game thread has made the queue. *)
Record audio_context : Type := AudioContext {
  running : bool;
  QueuedAudio : option audio_queue
}.

(** The [while] loop of [audio_write]: [todo] is [frames - FramesEnqueued],
    and [buf] is the buffer read as [int32], one element for each stereo
    frame.  [None] is a read past the end of [buf]. *)
Fixpoint audio_write_loop (todo : nat) (buf : list Z) (FramesEnqueued : nat)
  (q : audio_queue) : option (nat * audio_queue) :=
  match todo with
  | O => Some (FramesEnqueued, q)
  | S todo' =>
      frame ← buf !! FramesEnqueued;
      let '(accepted, q') := Enqueue frame q in
      if accepted
      then audio_write_loop todo' buf (S FramesEnqueued) q'
      else Some (FramesEnqueued, q')
  end.

(** [audio_write(buf, frames)]: the value returned and the context
    afterwards.  [None] is undefined behaviour: a null [QueuedAudio] while
    [running], or a read past the end of [buf]. *)
Definition audio_write (ctx : audio_context) (buf : list Z) (frames : nat)
  : option (Z * audio_context) :=
  if running ctx then
    q ← QueuedAudio ctx;
    '(FramesEnqueued, q') ← audio_write_loop frames buf 0 q;
    Some (Z.of_nat FramesEnqueued, AudioContext (running ctx) (Some q'))
  else Some (Z.of_nat frames, ctx).

(** The frames that entered the queue between two contexts (nothing is
    taken out meanwhile). *)
Definition frames_accepted (before after : audio_context) : Z :=
  Z.of_nat (length (from_option queue_items [] (QueuedAudio after)))
  - Z.of_nat (length (from_option queue_items [] (QueuedAudio before))).

(** ** sdlarch.cpp: [LibretroContext::core_environment] *)

(** [strchr(s, c)] for a character [c] that is not the terminator: the
    offset of the first [c] in [s], or [None] for the null pointer. *)
Fixpoint strchr (s : string) (c : Ascii.ascii) : option nat :=
  match s with
  | EmptyString => None
  | String a s' => if Ascii.eqb a c then Some 0%nat else S <$> strchr s' c
  end.

(** The pointer [s + n]. *)
Fixpoint string_from (n : nat) (s : string) : string :=
  match n, s with
  | O, _ => s
  | S n', String _ s' => string_from n' s'
  | S _, EmptyString => EmptyString
  end.

(** How far the lambda [advance_past_space] moves its argument: the number
    of spaces [s] begins with. *)
Fixpoint spaces (s : string) : nat :=
  match s with
  | String a s' => if Ascii.eqb a " "%char then S (spaces s') else O
  | EmptyString => O
  end.

(** A string of [n] spaces. *)
Fixpoint blanks (n : nat) : string :=
  match n with
  | O => EmptyString
  | S n' => String " " (blanks n')
  end.

(** [advance_past_space(value + x)], as an offset into [value]. *)
Definition advance_past_space (value : string) (x : nat) : nat :=
  (x + spaces (string_from x value))%nat.

(** Lines 455-458: the default setting parsed from the [value] of a
    [retro_variable].  [None] is undefined behaviour: [strchr] gave a null
    pointer, or the length [delimiter_ptr - past_comment] is negative. *)
Definition default_setting (value : string) : option string :=
  semicolon ← strchr value ";"%char;
  let past_comment := advance_past_space value (S semicolon) in
  delimiter_ptr ← strchr value "|"%char;
  if decide (past_comment ≤ delimiter_ptr)%nat
  then Some (String.substring past_comment (delimiter_ptr - past_comment) value)
  else None.

(** The [do ... while] loop of [RETRO_ENVIRONMENT_SET_VARIABLES] over the
    array [arr_var], given without the entry of null [key] that ends it. *)
Fixpoint set_variables (arr_var : list (string * string))
  (settings : gmap string string) : option (gmap string string) :=
  match arr_var with
  | [] => Some settings
  | (key, value) :: arr_var' =>
      d ← default_setting value;
      set_variables arr_var' (<[key := d]> settings)
  end.

(** [struct retro_frame_time_callback]: whether [callback] is set, and
    [reference]. *)
Record retro_frame_time_callback : Type := FrameTimeCallback {
  frame_time_set : bool;
  frame_time_reference : Z
}.

(** The members of [LibretroContext] that [core_environment] reads or
    writes, and what it logs (the descriptions of the buttons, and the
    commands it does not handle).  [audio_callback_set] is whether
    [audio_callback.callback] is set.  Of what
    [RETRO_ENVIRONMENT_SET_HW_RENDER] and
    [RETRO_ENVIRONMENT_SET_HW_RENDER_CONTEXT_NEGOTIATION_INTERFACE] store,
    only [UsingOpenGL] is kept: the rest ([g_video.hw],
    [hw_render_context_negotiation]) is read by the OpenGL set-up alone. *)
Record environment : Type := Environment {
  settings : gmap string string;
  g_video : video;
  UsingOpenGL : bool;
  runloop_frame_time : retro_frame_time_callback;
  audio_callback_set : bool;
  save_directory : string;
  system_directory : string;
  logged_buttons : list string;
  logged_unhandled : list Z
}.

(** The commands of [core_environment] with what [data] points to. *)
Inductive env_command : Type :=
| RETRO_ENVIRONMENT_GET_VARIABLE (key : string)
| RETRO_ENVIRONMENT_GET_VARIABLE_UPDATE
| RETRO_ENVIRONMENT_SET_VARIABLES (arr_var : list (string * string))
| RETRO_ENVIRONMENT_SET_CORE_OPTIONS
| RETRO_ENVIRONMENT_GET_LOG_INTERFACE
| RETRO_ENVIRONMENT_GET_CAN_DUPE
| RETRO_ENVIRONMENT_SET_PIXEL_FORMAT (fmt : Z)
| RETRO_ENVIRONMENT_SET_HW_RENDER
| RETRO_ENVIRONMENT_SET_FRAME_TIME_CALLBACK (frame_time : retro_frame_time_callback)
| RETRO_ENVIRONMENT_SET_AUDIO_CALLBACK (callback : bool)
| RETRO_ENVIRONMENT_GET_SAVE_DIRECTORY
| RETRO_ENVIRONMENT_GET_SYSTEM_DIRECTORY
| RETRO_ENVIRONMENT_GET_LANGUAGE
| RETRO_ENVIRONMENT_GET_AUDIO_VIDEO_ENABLE
| RETRO_ENVIRONMENT_SET_INPUT_DESCRIPTORS (descriptions : list string)
| RETRO_ENVIRONMENT_GET_PREFERRED_HW_RENDER
| RETRO_ENVIRONMENT_SET_HW_SHARED_CONTEXT
| RETRO_ENVIRONMENT_SET_HW_RENDER_CONTEXT_NEGOTIATION_INTERFACE
| unhandled_command (cmd : Z).

(** What [core_environment] writes through [data]. *)
Inductive env_reply : Type :=
| nothing_written
| variable_value (value : string)
| log_interface
| can_dupe (bval : bool)
| hw_render_callbacks
| directory (retro_path : string)
| language (l : Z)
| preferred_hw_render (library : Z).

Definition RETRO_LANGUAGE_ENGLISH : Z := 0.
Definition RETRO_HW_CONTEXT_OPENGL_CORE : Z := 3.

Definition with_settings (e : environment) (s : gmap string string)
  : environment :=
  Environment s (g_video e) (UsingOpenGL e) (runloop_frame_time e)
              (audio_callback_set e) (save_directory e) (system_directory e)
              (logged_buttons e) (logged_unhandled e).

Definition with_video (e : environment) (v : video) : environment :=
  Environment (settings e) v (UsingOpenGL e) (runloop_frame_time e)
              (audio_callback_set e) (save_directory e) (system_directory e)
              (logged_buttons e) (logged_unhandled e).

(** [core_environment(cmd, data)] (lines 425-561): the value returned, what
    is written through [data], and the context afterwards.  [None] is a
    [Fatal] log, a failed [checkNoEntry], or undefined behaviour (an array
    whose first entry is the terminator, or a [value] that
    [default_setting] cannot parse). *)
Definition core_environment (cmd : env_command) (e : environment)
  : option (bool * env_reply * environment) :=
  match cmd with
  | RETRO_ENVIRONMENT_GET_VARIABLE key =>
      match settings e !! key with
      | Some value => Some (true, variable_value value, e)
      | None => Some (false, nothing_written, e)
      end
  | RETRO_ENVIRONMENT_GET_VARIABLE_UPDATE => Some (false, nothing_written, e)
  | RETRO_ENVIRONMENT_SET_VARIABLES arr_var =>
      match arr_var with
      | [] => None
      | _ :: _ =>
          s ← set_variables arr_var (settings e);
          Some (true, nothing_written, with_settings e s)
      end
  | RETRO_ENVIRONMENT_SET_CORE_OPTIONS => None
  | RETRO_ENVIRONMENT_GET_LOG_INTERFACE => Some (true, log_interface, e)
  | RETRO_ENVIRONMENT_GET_CAN_DUPE => Some (true, can_dupe true, e)
  | RETRO_ENVIRONMENT_SET_PIXEL_FORMAT fmt =>
      if fmt >? RETRO_PIXEL_FORMAT_RGB565 then Some (false, nothing_written, e)
      else
        '(r, v) ← video_set_pixel_format (to_uint32 fmt) (g_video e);
        Some (r, nothing_written, with_video e v)
  | RETRO_ENVIRONMENT_SET_HW_RENDER =>
      Some (true, hw_render_callbacks,
            Environment (settings e) (g_video e) true (runloop_frame_time e)
                        (audio_callback_set e) (save_directory e)
                        (system_directory e) (logged_buttons e)
                        (logged_unhandled e))
  | RETRO_ENVIRONMENT_SET_FRAME_TIME_CALLBACK frame_time =>
      Some (false, nothing_written,
            Environment (settings e) (g_video e) (UsingOpenGL e) frame_time
                        (audio_callback_set e) (save_directory e)
                        (system_directory e) (logged_buttons e)
                        (logged_unhandled e))
  | RETRO_ENVIRONMENT_SET_AUDIO_CALLBACK callback =>
      Some (true, nothing_written,
            Environment (settings e) (g_video e) (UsingOpenGL e)
                        (runloop_frame_time e) callback (save_directory e)
                        (system_directory e) (logged_buttons e)
                        (logged_unhandled e))
  | RETRO_ENVIRONMENT_GET_SAVE_DIRECTORY =>
      Some (true, directory (save_directory e), e)
  | RETRO_ENVIRONMENT_GET_SYSTEM_DIRECTORY =>
      Some (true, directory (system_directory e), e)
  | RETRO_ENVIRONMENT_GET_LANGUAGE =>
      Some (true, language RETRO_LANGUAGE_ENGLISH, e)
  | RETRO_ENVIRONMENT_GET_AUDIO_VIDEO_ENABLE => Some (false, nothing_written, e)
  | RETRO_ENVIRONMENT_SET_INPUT_DESCRIPTORS descriptions =>
      match descriptions with
      | [] => None
      | _ :: _ =>
          Some (true, nothing_written,
                Environment (settings e) (g_video e) (UsingOpenGL e)
                            (runloop_frame_time e) (audio_callback_set e)
                            (save_directory e) (system_directory e)
                            (logged_buttons e ++ descriptions)
                            (logged_unhandled e))
      end
  | RETRO_ENVIRONMENT_GET_PREFERRED_HW_RENDER =>
      Some (true, preferred_hw_render RETRO_HW_CONTEXT_OPENGL_CORE, e)
  | RETRO_ENVIRONMENT_SET_HW_SHARED_CONTEXT => Some (true, nothing_written, e)
  | RETRO_ENVIRONMENT_SET_HW_RENDER_CONTEXT_NEGOTIATION_INTERFACE =>
      Some (true, nothing_written, e)
  | unhandled_command cmd =>
      Some (false, nothing_written,
            Environment (settings e) (g_video e) (UsingOpenGL e)
                        (runloop_frame_time e) (audio_callback_set e)
                        (save_directory e) (system_directory e)
                        (logged_buttons e) (logged_unhandled e ++ [cmd]))
  end.

(** Successive calls of [core_environment] by the core; the values
    returned and written are dropped. *)
Fixpoint core_environment_calls (cmds : list env_command) (e : environment)
  : option environment :=
  match cmds with
  | [] => Some e
  | cmd :: cmds' =>
      '(_, _, e') ← core_environment cmd e;
      core_environment_calls cmds' e'
  end.

(** ** sdlarch.cpp: [LibretroContext::core_input_state] *)

(** Device classes of libretro.h. *)
Definition RETRO_DEVICE_JOYPAD : Z := 1.
Definition RETRO_DEVICE_ANALOG : Z := 5.

(** The two input arrays of a [LibretroContext]: [analog[id][index]] and
    [g_joy[id]]. *)
Record input_arrays : Type := InputArrays {
  analog : list (list Z);
  g_joy : list Z
}.

(** [core_input_state(port, device, index, id)].  The arguments are
    [unsigned]; [None] stands for a read outside an array, which C++ leaves
    undefined. *)
Definition core_input_state (inp : input_arrays) (port device index id : Z)
  : option Z :=
  if negb (port =? 0) then Some 0
  else if device =? RETRO_DEVICE_ANALOG then
    row ← analog inp !! Z.to_nat id;
    v ← row !! Z.to_nat index;
    Some (to_int16 v)
  else if device =? RETRO_DEVICE_JOYPAD then
    v ← g_joy inp !! Z.to_nat id;
    Some (to_int16 v)
  else Some 0.

(** ** sdlarch.cpp: [LibretroContext::core_audio_sample] *)

(** The two [int16_t] of [buf] read as one [int32] (little-endian, as on
    the platforms of the plugin): [left] is the low half. *)
Definition stereo_frame (left right : Z) : Z :=
  to_int32 (to_uint16 left + 2 ^ 16 * to_uint16 right).

(** [core_audio_sample(left, right)]: [audio_write(buf, 1)] with
    [buf = {left, right}]; the value [audio_write] returns is dropped. *)
Definition core_audio_sample (ctx : audio_context) (left right : Z)
  : option audio_context :=
  snd <$> audio_write ctx [stereo_frame left right] 1.

(** ** sdlarch.cpp: the instance bookkeeping of [LibretroContext::launch] *)

Definition INDEX_NONE : Z := -1.
Definition MAX_INSTANCES : nat := 100.
Definition MAX_INSTANCES_PER_CORE : nat := 8 * 8.

(** [TBitArray::FindAndSetFirstZeroBit]: index of the first clear bit, which
    is set, or [INDEX_NONE] when every bit is set.  A [TBitArray] of
    [NumBits] bits is a [list bool] of that length. *)
Fixpoint FindFirstZeroBit (bits : list bool) : option nat :=
  match bits with
  | [] => None
  | false :: _ => Some 0%nat
  | true :: rest => S <$> FindFirstZeroBit rest
  end.

Definition FindAndSetFirstZeroBit (bits : list bool) : Z * list bool :=
  match FindFirstZeroBit bits with
  | Some i => (Z.of_nat i, <[i := true]> bits)
  | None => (INDEX_NONE, bits)
  end.

(** [Bits[Index] = Value]: [TBitArray::operator[]] checks
    [Index >= 0 && Index < NumBits]; [None] is the failed check. *)
Definition SetBit (bits : list bool) (Index : Z) (Value : bool)
  : option (list bool) :=
  if (0 <=? Index) && (Index <? Z.of_nat (length bits))
  then Some (<[Z.to_nat Index := Value]> bits)
  else None.

(** The function-local statics [PerCoreAllocatedInstances] and
    [AllocatedInstances]. *)
Record instances : Type := Instances {
  PerCoreAllocatedInstances : gmap string (list bool);
  AllocatedInstances : list bool
}.

Definition no_instances : instances :=
  Instances ∅ (replicate MAX_INSTANCES false).

(** [PerCoreAllocatedInstances.FindOrAdd(core, ...)]: the bit array of a
    core, all clear when the core has none yet. *)
Definition core_bits (core : string) (st : instances) : list bool :=
  default (replicate MAX_INSTANCES_PER_CORE false)
          (PerCoreAllocatedInstances st !! core).

(** The block under [MultipleDLLInstanceHandlingLock] at the start of the
    background thread (lines 817-825).  The result is
    [(InstanceNumber, CoreInstanceNumber)] and the new statics; [None] is
    the failed [check].  [InstanceNumber] is also the index of the
    runtime's [callback_instance] in [func_wrap_table]. *)
Definition Allocate (core : string) (st : instances)
  : option (Z * Z * instances) :=
  let CoreInstanceBitArray := core_bits core st in
  let '(CoreInstanceNumber, CoreInstanceBitArray') :=
    FindAndSetFirstZeroBit CoreInstanceBitArray in
  let '(InstanceNumber, AllocatedInstances') :=
    FindAndSetFirstZeroBit (AllocatedInstances st) in
  if negb (CoreInstanceNumber =? INDEX_NONE)
     || negb (InstanceNumber =? INDEX_NONE)
  then Some (InstanceNumber, CoreInstanceNumber,
             Instances (<[core := CoreInstanceBitArray']>
                          (PerCoreAllocatedInstances st))
                       AllocatedInstances')
  else None.

(** The block under the same lock at the end of the background thread
    (lines 917-922). *)
Definition Release (core : string) (InstanceNumber CoreInstanceNumber : Z)
  (st : instances) : option instances :=
  AllocatedInstances' ← SetBit (AllocatedInstances st) InstanceNumber false;
  CoreInstanceBitArray ← PerCoreAllocatedInstances st !! core;
  CoreInstanceBitArray' ← SetBit CoreInstanceBitArray CoreInstanceNumber false;
  Some (Instances (<[core := CoreInstanceBitArray']>
                     (PerCoreAllocatedInstances st))
                  AllocatedInstances').

(** A runtime between its [Allocate] and its [Release]. *)
Record holder : Type := Holder {
  holder_core : string;
  holder_InstanceNumber : Z;
  holder_CoreInstanceNumber : Z
}.

(** The process seen from the allocator: a background thread reaches its
    [Allocate] block ([Launched core]), or the [n]-th live runtime reaches its
    [Release] block ([Exited n]). *)
Inductive alloc_event : Type :=
| Launched (core : string)
| Exited (n : nat).

Definition alloc_step (ev : alloc_event) (s : instances * list holder)
  : option (instances * list holder) :=
  let '(st, live) := s in
  match ev with
  | Launched core =>
      '(InstanceNumber, CoreInstanceNumber, st') ← Allocate core st;
      Some (st', live ++ [Holder core InstanceNumber CoreInstanceNumber])
  | Exited n =>
      h ← live !! n;
      st' ← Release (holder_core h) (holder_InstanceNumber h)
                    (holder_CoreInstanceNumber h) st;
      Some (st', delete n live)
  end.

Fixpoint alloc_run (evs : list alloc_event) (s : instances * list holder)
  : option (instances * list holder) :=
  match evs with
  | [] => Some s
  | ev :: evs' => s' ← alloc_step ev s; alloc_run evs' s'
  end.

(** What holds of the bit arrays and the live runtimes: an index other than
    [INDEX_NONE] has its bit set and is held by one live runtime only (for
    [CoreInstanceNumber]: by one live runtime of that core only). *)
Record alloc_inv (st : instances) (live : list holder) : Prop := AllocInv {
  inv_instance_set : ∀ n h, live !! n = Some h →
    holder_InstanceNumber h ≠ INDEX_NONE →
    0 ≤ holder_InstanceNumber h ∧
    AllocatedInstances st !! Z.to_nat (holder_InstanceNumber h) = Some true;
  inv_instance_own : ∀ n m h1 h2, n ≠ m →
    live !! n = Some h1 → live !! m = Some h2 →
    holder_InstanceNumber h1 ≠ INDEX_NONE →
    holder_InstanceNumber h1 ≠ holder_InstanceNumber h2;
  inv_core_set : ∀ n h, live !! n = Some h →
    holder_CoreInstanceNumber h ≠ INDEX_NONE →
    0 ≤ holder_CoreInstanceNumber h ∧
    core_bits (holder_core h) st !! Z.to_nat (holder_CoreInstanceNumber h)
      = Some true;
  inv_core_own : ∀ n m h1 h2, n ≠ m →
    live !! n = Some h1 → live !! m = Some h2 →
    holder_core h1 = holder_core h2 →
    holder_CoreInstanceNumber h1 ≠ INDEX_NONE →
    holder_CoreInstanceNumber h1 ≠ holder_CoreInstanceNumber h2
}.

(** No bit is set without a holder: a set bit of [AllocatedInstances] is
    the [InstanceNumber] of a live runtime, a set bit of the array of a core
    is the [CoreInstanceNumber] of a live runtime of that core, and the
    arrays keep their sizes. *)
Record bits_inv (st : instances) (live : list holder) : Prop := BitsInv {
  inv_instance_held : ∀ k, AllocatedInstances st !! k = Some true →
    ∃ n h, live !! n = Some h ∧ holder_InstanceNumber h = Z.of_nat k;
  inv_core_held : ∀ core k, core_bits core st !! k = Some true →
    ∃ n h, live !! n = Some h ∧ holder_core h = core
           ∧ holder_CoreInstanceNumber h = Z.of_nat k;
  inv_instance_length : length (AllocatedInstances st) = MAX_INSTANCES;
  inv_core_length : ∀ core, length (core_bits core st) = MAX_INSTANCES_PER_CORE
}.

(** [n] background threads of the same core reach [Allocate] one after
    another. *)
Definition launches (n : nat) (core : string) : list alloc_event :=
  replicate n (Launched core).

(** The runtimes that are live after the events [evs], from a process
    that has launched nothing yet. *)
Definition live_after (evs : list alloc_event) : option (list holder) :=
  snd <$> alloc_run evs (no_instances, []).


(** *** The table of callbacks and the file a runtime loads *)

(** A [LibretroContext] with a background thread past its [Allocate]
    block: the context (contexts are numbered in the order their threads
    reach the block), what it holds, and whether [core_load] has bound its
    callbacks (lines 626-637). *)
Record runtime : Type := Runtime {
  runtime_this : nat;
  runtime_holder : holder;
  runtime_bound : bool
}.

(** The statics of the process: the bit arrays, the runtimes, the number
    of contexts numbered so far, and [func_wrap_table].  An entry of the
    table is the context that its seven [std::function] members capture,
    all bound together, or [None] while they are empty; the functions
    [func_wrap_...M] generated by [FUNC_WRAP_DEF] forward to entry [M]. *)
Record process : Type := Process {
  process_instances : instances;
  process_runtimes : list runtime;
  process_contexts : nat;
  func_wrap_table : list (option nat)
}.

Definition process_start : process :=
  Process no_instances [] 0 (replicate MAX_INSTANCES None).

(** What the background threads do to the statics: a thread reaches its
    [Allocate] block, where [callback_instance] becomes
    [func_wrap_table + InstanceNumber]; the [n]-th runtime binds its
    callbacks in [core_load]; the [n]-th runtime reaches its [Release]
    block. *)
Inductive process_event : Type :=
| thread_allocates (core : string)
| thread_binds (n : nat)
| thread_releases (n : nat).

(** One step.  [None] is a failed [check] or, for [thread_binds], a write
    through a [callback_instance] that points outside the table. *)
Definition process_step (ev : process_event) (p : process) : option process :=
  match ev with
  | thread_allocates core =>
      '(InstanceNumber, CoreInstanceNumber, st') ←
        Allocate core (process_instances p);
      Some (Process st'
              (process_runtimes p
               ++ [Runtime (process_contexts p)
                           (Holder core InstanceNumber CoreInstanceNumber)
                           false])
              (S (process_contexts p)) (func_wrap_table p))
  | thread_binds n =>
      r ← process_runtimes p !! n;
      let InstanceNumber := holder_InstanceNumber (runtime_holder r) in
      if (0 <=? InstanceNumber)
         && (InstanceNumber <? Z.of_nat (length (func_wrap_table p)))
      then Some (Process (process_instances p)
                   (<[n := Runtime (runtime_this r) (runtime_holder r) true]>
                      (process_runtimes p))
                   (process_contexts p)
                   (<[Z.to_nat InstanceNumber := Some (runtime_this r)]>
                      (func_wrap_table p)))
      else None
  | thread_releases n =>
      r ← process_runtimes p !! n;
      st' ← Release (holder_core (runtime_holder r))
                    (holder_InstanceNumber (runtime_holder r))
                    (holder_CoreInstanceNumber (runtime_holder r))
                    (process_instances p);
      Some (Process st' (delete n (process_runtimes p)) (process_contexts p)
                    (func_wrap_table p))
  end.

Fixpoint process_run (evs : list process_event) (p : process)
  : option process :=
  match evs with
  | [] => Some p
  | ev :: evs' => p' ← process_step ev p; process_run evs' p'
  end.

(** What holds of every state of the process. *)
Record process_inv (p : process) : Prop := ProcessInv {
  inv_alloc :
    alloc_inv (process_instances p) (runtime_holder <$> process_runtimes p);
  inv_bits : length (AllocatedInstances (process_instances p)) = MAX_INSTANCES;
  inv_table : length (func_wrap_table p) = MAX_INSTANCES;
  inv_numbered : ∀ n r, process_runtimes p !! n = Some r →
    (runtime_this r < process_contexts p)%nat;
  inv_this : ∀ n m r1 r2, n ≠ m →
    process_runtimes p !! n = Some r1 → process_runtimes p !! m = Some r2 →
    runtime_this r1 ≠ runtime_this r2;
  inv_bound : ∀ n r, process_runtimes p !! n = Some r →
    runtime_bound r = true →
    0 ≤ holder_InstanceNumber (runtime_holder r) ∧
    func_wrap_table p !! Z.to_nat (holder_InstanceNumber (runtime_holder r))
      = Some (Some (runtime_this r))
}.

Section InstancedCore.

(** [FPaths::GetBaseFilename(core, false)] and [FPaths::GetExtension(core)]
    of the engine. *)
Variable GetBaseFilename : string → string.
Variable GetExtension : string → string.

(** Lines 814 and 827-828: the file the runtime loads its core from.
    [%d] is the decimal numeral of the [int32]. *)
Definition InstancedCorePath (core : string) (CoreInstanceNumber : Z) : string :=
  if 0 <? CoreInstanceNumber
  then GetBaseFilename core +:+ pretty CoreInstanceNumber +:+ "."
       +:+ GetExtension core
  else core.

End InstancedCore.

(** ** sdlarch.cpp: the run loop of [LibretroContext::launch] *)

(** [FMath::Max(A, B)] on [double]: [(A >= B) ? A : B]. *)
Definition FMath_Max (A B : float) : float :=
  if (B <=? A)%float then A else B.

(** [FTimespan::GetTotalSeconds]: the ticks of 100 nanoseconds, as a
    [double], over [ETimespan::TicksPerSecond]. *)
Definition GetTotalSeconds (Ticks : Z) : float :=
  (int64_to_double Ticks / 10000000)%float.

(** What the loop reads in an iteration: [runloop_frame_time] (whether a
    callback is registered, and its [reference]),
    [runloop_frame_time_last], whether [audio_callback.callback] is set, and
    the locals [frames] and [start] (an [FDateTime], in ticks). *)
Record run_loop : Type := RunLoop {
  runloop_frame_time_callback : bool;
  runloop_frame_time_reference : Z;
  runloop_frame_time_last : Z;
  audio_callback_callback : bool;
  frames : Z;
  start : Z
}.

(** The clocks read in an iteration: [SDL_GetTicks()] (milliseconds, a
    [Uint32]) and the two readings of [FDateTime::Now()]. *)
Record clocks : Type := Clocks {
  SDL_GetTicks : Z;
  Now_elapsed : Z;
  Now_reset : Z
}.

(** The calls an iteration makes, in order.  [Sleep] carries the [double]
    it is called with. *)
Inductive loop_call : Type :=
| frame_time_callback (usec : Z)
| audio_callback
| retro_run
| Sleep (Seconds : float).

(** [cpu_features_get_time_usec()]: [(retro_time_t)SDL_GetTicks()]. *)
Definition cpu_features_get_time_usec (c : clocks) : Z :=
  to_int64 (SDL_GetTicks c).

(** Lines 868-876: the frame-time callback.  The result is the argument the
    callback is called with, if it is called, and the new
    [runloop_frame_time_last]. *)
Definition frame_time_step (c : clocks) (l : run_loop) : option Z * Z :=
  if runloop_frame_time_callback l then
    let current := cpu_features_get_time_usec c in
    let delta := to_int64 (current - runloop_frame_time_last l) in
    let delta :=
      if runloop_frame_time_last l =? 0
      then runloop_frame_time_reference l else delta in
    (Some (to_int64 (delta * 1000)), current)
  else (None, runloop_frame_time_last l).

(** Line 893: [sleep], from the incremented [frames], the frame rate, the
    first reading of [FDateTime::Now()] and [start]. *)
Definition pacing_sleep (fps : float) (frames : Z) (Now start : Z) : float :=
  (uint64_to_double frames / fps - GetTotalSeconds (to_int64 (Now - start)))%float.

(** Lines 890-898: the timing loop.  The result is the argument of
    [FPlatformProcess::Sleep] and the new [frames] and [start]. *)
Definition pacing_step (fps : float) (c : clocks) (l : run_loop)
  : float * Z * Z :=
  let frames := to_uint64 (frames l + 1) in
  let sleep := pacing_sleep fps frames (Now_elapsed c) (start l) in
  let '(start, frames) :=
    if (sleep <? - (1 / fps))%float then (Now_reset c, 0) else (start l, frames) in
  (FMath_Max 0 sleep, frames, start).

(** One iteration of [while (l->running)] (lines 863-900), for a core whose
    [av.timing.fps] is [fps]. *)
Definition run_loop_iteration (fps : float) (c : clocks) (l : run_loop)
  : list loop_call * run_loop :=
  let '(usec, last) := frame_time_step c l in
  let '(Seconds, frames, start) := pacing_step fps c l in
  (from_option (λ u, [frame_time_callback u]) [] usec
   ++ (if audio_callback_callback l then [audio_callback] else [])
   ++ [retro_run; Sleep Seconds],
   RunLoop (runloop_frame_time_callback l) (runloop_frame_time_reference l)
           last (audio_callback_callback l) frames start).

(** The run loop's view of a context: what [run_loop_iteration] reads of
    the members that [core_environment] sets, with the loop's own
    [runloop_frame_time_last], [frames] and [start]. *)
Definition run_loop_of (e : environment) (last frames start : Z) : run_loop :=
  RunLoop (frame_time_set (runloop_frame_time e))
          (frame_time_reference (runloop_frame_time e))
          last (audio_callback_set e) frames start.

(** ** LibretroCoreInstance.cpp: the ordered file-access chain *)

(** The life of a scheduled operation.  [Held]: made on the game thread,
    its closure not called yet (for [SaveState]: the file task is held).
    [Called]: the runtime's thread has called the closure, which waits for
    [LastIOOperation] (for [SaveState]: the state is serialized and the file
    task unlocked, waiting for its prerequisite).  [Running]: the wait is
    over and the I/O has begun.  [Finished]: the I/O has returned and
    [Unlock] is called.  [Completed]: the completion event has fired. *)
Inductive io_status : Type := Held | Called | Running | Finished | Completed.

Global Instance io_status_eq_dec : EqDecision io_status.
Proof. solve_decision. Defined.

(** What the task graph does on a path, as an observer sees it. *)
Inductive io_event : Type :=
| IOBegin (i : nat)
| IOEnd (i : nat)
| IOSignal (i : nat).

Global Instance io_event_eq_dec : EqDecision io_event.
Proof. solve_decision. Defined.

Section OrderedIO.

(** What the I/O operations read and write: the files, and the core they
    are called with. *)
Context {W : Type}.

(** A scheduled operation: the captures of the closure ([FilePath],
    [LastIOOperation], [IOOperation]; [ThisIOOperation] is the operation's
    index, graph events being numbered in the order they are made), what
    the runtime's task does before unlocking ([task_Serialize], for
    [SaveState]), and how far the operation has got. *)
Record io_task : Type := IOTask {
  task_FilePath : string;
  task_LastIOOperation : option nat;
  task_Serialize : W → W;
  task_IOOperation : string → W → W;
  task_status : io_status
}.

Definition with_status (s : io_status) (t : io_task) : io_task :=
  IOTask (task_FilePath t) (task_LastIOOperation t) (task_Serialize t)
         (task_IOOperation t) s.

(** The global [LastIOTask], the operations made so far, and what has
    happened.  A path whose entry would hold a null [FGraphEventRef] has no
    entry. *)
Record io_state : Type := IOState {
  LastIOTask : gmap string nat;
  io_tasks : list io_task;
  io_trace : list io_event
}.

Definition io_init : io_state := IOState ∅ [] [].

(** [Replace(LastIOTask.FindOrAdd(FilePath), event)]: the entry is swapped
    for [event] and its old value, null for a new entry, is returned. *)
Definition Replace (m : gmap string nat) (FilePath : string) (event : nat)
  : option nat * gmap string nat :=
  (m !! FilePath, <[FilePath := event]> m).

(** [MakeOrderedFileAccessOperation(FilePath, IOOperation)]: [None] is the
    failed [check(IsInGameThread())]. *)
Definition MakeOrderedFileAccessOperation (IsInGameThread : bool)
  (FilePath : string) (IOOperation : string → W → W) (st : io_state)
  : option (nat * io_state) :=
  if IsInGameThread then
    let ThisIOOperation := length (io_tasks st) in
    let '(LastIOOperation, LastIOTask') :=
      Replace (LastIOTask st) FilePath ThisIOOperation in
    Some (ThisIOOperation,
          IOState LastIOTask'
                  (io_tasks st ++ [IOTask FilePath LastIOOperation id IOOperation Held])
                  (io_trace st))
  else None.

(** The scheduling half of [ULibretroCoreInstance::SaveState]:
    [Prerequisites] is the entry of the path, the held
    [SaveStateToFileTask] is made with it, and the entry becomes the task's
    completion event.  [Serialize] is what the task enqueued to the runtime
    does before [Unlock], [SaveArrayToFile] is the file task. *)
Definition SaveState_schedule (SaveStatePath : string) (Serialize : W → W)
  (SaveArrayToFile : string → W → W) (st : io_state) : nat * io_state :=
  let Prerequisites := LastIOTask st !! SaveStatePath in
  let SaveStateToFileTask := length (io_tasks st) in
  (SaveStateToFileTask,
   IOState (<[SaveStatePath := SaveStateToFileTask]> (LastIOTask st))
           (io_tasks st
            ++ [IOTask SaveStatePath Prerequisites Serialize SaveArrayToFile Held])
           (io_trace st)).

(** [WaitUntilTaskCompletes(LastIOOperation)] returns, or the prerequisite
    of the file task is met: there is no earlier event, or it has fired. *)
Definition prerequisite_complete (st : io_state) (t : io_task) : bool :=
  match task_LastIOOperation t with
  | None => true
  | Some k =>
      match io_tasks st !! k with
      | Some tk => bool_decide (task_status tk = Completed)
      | None => false
      end
  end.

(** What the threads of the process can do to the chain. *)
Inductive io_action : Type :=
| Schedule (IsInGameThread : bool) (FilePath : string)
           (IOOperation : string → W → W)
| ScheduleSaveState (SaveStatePath : string) (Serialize : W → W)
                    (SaveArrayToFile : string → W → W)
| Call (i : nat)
| Begin (i : nat)
| Finish (i : nat)
| Signal (i : nat).

Definition advance (i : nat) (from to : io_status) (ev : list io_event)
  (st : io_state) : option io_state :=
  t ← io_tasks st !! i;
  if bool_decide (task_status t = from)
  then Some (IOState (LastIOTask st) (alter (with_status to) i (io_tasks st))
                     (io_trace st ++ ev))
  else None.

(** One step; [None] when the action cannot happen in this state. *)
Definition io_step (a : io_action) (s : io_state * W) : option (io_state * W) :=
  let '(st, w) := s in
  match a with
  | Schedule IsInGameThread FilePath IOOperation =>
      '(_, st') ← MakeOrderedFileAccessOperation IsInGameThread FilePath
                    IOOperation st;
      Some (st', w)
  | ScheduleSaveState SaveStatePath Serialize SaveArrayToFile =>
      Some (snd (SaveState_schedule SaveStatePath Serialize SaveArrayToFile st), w)
  | Call i =>
      t ← io_tasks st !! i;
      st' ← advance i Held Called [] st;
      Some (st', task_Serialize t w)
  | Begin i =>
      t ← io_tasks st !! i;
      if prerequisite_complete st t
      then st' ← advance i Called Running [IOBegin i] st; Some (st', w)
      else None
  | Finish i =>
      t ← io_tasks st !! i;
      st' ← advance i Running Finished [IOEnd i] st;
      Some (st', task_IOOperation t (task_FilePath t) w)
  | Signal i =>
      st' ← advance i Finished Completed [IOSignal i] st;
      Some (st', w)
  end.

Fixpoint io_run (acts : list io_action) (s : io_state * W)
  : option (io_state * W) :=
  match acts with
  | [] => Some s
  | a :: acts' => s' ← io_step a s; io_run acts' s'
  end.

(** [x] happens before [y] in a trace. *)
Definition precedes (x y : io_event) (trace : list io_event) : Prop :=
  ∃ l1 l2 l3, trace = l1 ++ x :: l2 ++ y :: l3.

End OrderedIO.

Arguments io_task : clear implicits.
Arguments io_state : clear implicits.
Arguments io_action : clear implicits.

(** *** What holds of every state of the chain *)

Section OrderedIOInvariant.
Context {W : Type}.
Implicit Types (st : io_state W) (t : io_task W) (w : W).

(** The path, the prerequisite and the status of the [i]-th operation. *)
Definition path_of st (i : nat) : option string :=
  task_FilePath <$> io_tasks st !! i.
Definition prev_of st (i : nat) : option (option nat) :=
  task_LastIOOperation <$> io_tasks st !! i.
Definition status_of st (i : nat) : option io_status :=
  task_status <$> io_tasks st !! i.

(** The events an operation in status [s] has behind it. *)
Definition events_of (s : io_status) (i : nat) : list io_event :=
  match s with
  | Held | Called => []
  | Running => [IOBegin i]
  | Finished => [IOBegin i; IOEnd i]
  | Completed => [IOBegin i; IOEnd i; IOSignal i]
  end.

Definition has_begun (s : io_status) : bool :=
  match s with Held | Called => false | _ => true end.

Definition event_index (e : io_event) : nat :=
  match e with IOBegin i | IOEnd i | IOSignal i => i end.

(** The steps of an operation, with what each adds to the trace. *)
Inductive transition (i : nat) : io_status → io_status → list io_event → Prop :=
| transition_call : transition i Held Called []
| transition_begin : transition i Called Running [IOBegin i]
| transition_finish : transition i Running Finished [IOEnd i]
| transition_signal : transition i Finished Completed [IOSignal i].

(** The invariant.  [LastIOTask] holds, for each path, the latest operation
    scheduled on it; the prerequisite of an operation is the latest
    operation scheduled before it on its path; the trace holds exactly the
    events the statuses account for, each once; an operation that has begun
    has every earlier operation of its path completed; and the trace is in
    order. *)
Record io_inv st : Prop := IOInv {
  inv_last_some : ∀ p k, LastIOTask st !! p = Some k →
    path_of st k = Some p ∧ ∀ m, (k < m)%nat → path_of st m ≠ Some p;
  inv_last_none : ∀ p, LastIOTask st !! p = None →
    ∀ m, path_of st m ≠ Some p;
  inv_prev_some : ∀ j k, prev_of st j = Some (Some k) →
    (k < j)%nat ∧ path_of st k = path_of st j ∧
    ∀ m, (k < m < j)%nat → path_of st m ≠ path_of st j;
  inv_prev_none : ∀ j, prev_of st j = Some None →
    ∀ m, (m < j)%nat → path_of st m ≠ path_of st j;
  inv_events : ∀ e,
    e ∈ io_trace st ↔ ∃ i s, status_of st i = Some s ∧ e ∈ events_of s i;
  inv_nodup : NoDup (io_trace st);
  inv_chain : ∀ i j p s, (i < j)%nat →
    path_of st i = Some p → path_of st j = Some p →
    status_of st j = Some s → has_begun s = true →
    status_of st i = Some Completed;
  inv_begin_end : ∀ i, IOEnd i ∈ io_trace st →
    precedes (IOBegin i) (IOEnd i) (io_trace st);
  inv_end_signal : ∀ i, IOSignal i ∈ io_trace st →
    precedes (IOEnd i) (IOSignal i) (io_trace st);
  inv_order : ∀ i j p, (i < j)%nat →
    path_of st i = Some p → path_of st j = Some p →
    IOBegin j ∈ io_trace st →
    precedes (IOEnd i) (IOBegin j) (io_trace st) ∧
    precedes (IOSignal i) (IOBegin j) (io_trace st)
}.
End OrderedIOInvariant.

(** The steps an operation in status [s] has before it, and the steps the
    operations of a chain have before them. *)
Definition steps_left (s : io_status) : nat :=
  match s with
  | Held => 4
  | Called => 3
  | Running => 2
  | Finished => 1
  | Completed => 0
  end.

Definition chain_steps_left {W} (st : io_state W) : nat :=
  sum_list (steps_left ∘ task_status <$> io_tasks st).

(** The next step of the [i]-th operation, in status [s]. *)
Definition next_step {W} (i : nat) (s : io_status) : option (io_action W) :=
  match s with
  | Held => Some (Call i)
  | Called => Some (Begin i)
  | Running => Some (Finish i)
  | Finished => Some (Signal i)
  | Completed => None
  end.

(** No thread schedules: the action is a step of an operation that is
    already made. *)
Definition is_step {W} (a : io_action W) : bool :=
  match a with
  | Schedule _ _ _ | ScheduleSaveState _ _ _ => false
  | _ => true
  end.

(** *** Examples *)

(** Two runtimes and three operations: a load and a save of slot A,
    scheduled in that order, and a load of slot B.  The world is the list of
    the operations done. *)
Definition example_actions : list (io_action (list string)) :=
  [Schedule true "slotA" (λ p w, w ++ ["load " +:+ p]);
   ScheduleSaveState "slotA" id (λ p w, w ++ ["save " +:+ p]);
   Schedule true "slotB" (λ p w, w ++ ["load " +:+ p]);
   Call 1; Call 2; Begin 2; Call 0; Begin 0; Finish 2; Finish 0; Signal 0;
   Begin 1; Finish 1; Signal 1].

(** ** LibretroCoreInstance.cpp: the component on the game thread *)

(** The lines the component writes to the log. *)
Inductive log_line : Type :=
| NotLaunched (func Core : string)
| CoreNotFound (Core CorePath : string)
| RomNotFound (Core RomPath : string)
| SizeMismatch (Core : string) (FileSize CoreSize : Z).

Section Component.

(** The state of a loaded core, with the entries of [libretro_api_t] that
    the file operations call.  [retro_unserialize data size] is the core
    after the call; its result is not looked at.  [write_save_ram bytes] is
    the core after [bytes] are stored at
    [get_memory_data(RETRO_MEMORY_SAVE_RAM)]. *)
Context {core : Type}.
Variable retro_serialize_size : core → Z.
Variable retro_unserialize : list Z → Z → core → core.
Variable retro_get_memory_size : core → Z.
Variable write_save_ram : list Z → core → core.

(** The paths of [FUnrealLibretroModule] and of the component. *)
Variable CorePath : string → string.
Variable ROMPath : string → string.
Variable SRAMPath : string → string → string.

(** What an I/O operation acts on: the files (a path that cannot be read
    has no entry), the core it is called with, and the log. *)
Record io_world : Type := IOWorld {
  files : gmap string (list Z);
  api : core;
  Log : list log_line
}.

(** The operation [LoadState] schedules (lines 173-188):
    [FFileHelper::LoadFileToArray], the comparison of sizes, and
    [unserialize]. *)
Definition LoadState_IOOperation (Core : string) (SaveStatePath : string)
  (w : io_world) : io_world :=
  match files w !! SaveStatePath with
  | None => w
  | Some SaveStateBuffer =>
      let Num := Z.of_nat (length SaveStateBuffer) in
      let Log' :=
        if negb (Num =? retro_serialize_size (api w))
        then Log w ++ [SizeMismatch Core Num (retro_serialize_size (api w))]
        else Log w in
      IOWorld (files w) (retro_unserialize SaveStateBuffer Num (api w)) Log'
  end.

(** The operation [Launch] schedules (lines 122-130): the file is read
    into the save RAM when it opens and the core has save RAM. *)
Definition LoadSRAM_IOOperation (SRAMPath : string) (w : io_world) : io_world :=
  match files w !! SRAMPath with
  | Some File =>
      if negb (retro_get_memory_size (api w) =? 0)
      then IOWorld (files w)
                   (write_save_ram
                      (take (Z.to_nat (retro_get_memory_size (api w))) File)
                      (api w))
                   (Log w)
      else w
  | None => w
  end.

(** The component ([Rom], [Core], [CoreInstance], [AudioBuffer],
    [RenderTarget]; objects and contexts are numbered in the order they are
    made, and a null pointer or an unset optional is [None]) together with
    what it acts on: the files and directories that exist, the objects
    [NewObject] has made, the contexts [LibretroContext::Launch] has made,
    each with its background thread, the contexts asked to shut down, the
    chain, and the log. *)
Record game : Type := Game {
  Rom : string;
  Core : string;
  CoreInstance : option nat;
  AudioBuffer : option nat;
  RenderTarget : option nat;
  physical_files : gset string;
  physical_directories : gset string;
  objects : nat;
  contexts : list (string * string * nat);
  shutdown_requests : list nat;
  chain : io_state io_world;
  game_log : list log_line
}.

(** [ULibretroCoreInstance::Shutdown], with its [NOT_LAUNCHED_GUARD]. *)
Definition Shutdown (g : game) : game :=
  match CoreInstance g with
  | None =>
      Game (Rom g) (Core g) None (AudioBuffer g) (RenderTarget g)
           (physical_files g) (physical_directories g) (objects g)
           (contexts g) (shutdown_requests g) (chain g)
           (game_log g ++ [NotLaunched "Shutdown" (Core g)])
  | Some ctx =>
      Game (Rom g) (Core g) None (AudioBuffer g) (RenderTarget g)
           (physical_files g) (physical_directories g) (objects g)
           (contexts g) (shutdown_requests g ++ [ctx]) (chain g)
           (game_log g)
  end.

(** [ULibretroCoreInstance::Launch], called on the game thread. *)
Definition Launch (g : game) : game :=
  let g := Shutdown g in
  let Rom' := if decide (Rom g = "") then "MAZE" else Rom g in
  let Core' := if decide (Core g = "") then "emux_chip8_libretro.dll" else Core g in
  let CorePath' := CorePath Core' in
  let RomPath' := ROMPath Rom' in
  if negb (bool_decide (CorePath' ∈ physical_files g)) then
    Game Rom' Core' (CoreInstance g) (AudioBuffer g) (RenderTarget g)
         (physical_files g) (physical_directories g) (objects g)
         (contexts g) (shutdown_requests g) (chain g)
         (game_log g ++ [CoreNotFound Core' CorePath'])
  else if negb (bool_decide (RomPath' ∈ physical_files g))
          && negb (bool_decide (RomPath' ∈ physical_directories g)) then
    Game Rom' Core' (CoreInstance g) (AudioBuffer g) (RenderTarget g)
         (physical_files g) (physical_directories g) (objects g)
         (contexts g) (shutdown_requests g) (chain g)
         (game_log g ++ [RomNotFound Core' RomPath'])
  else
    let AudioBuffer' := objects g in
    let '(RenderTarget', objects') :=
      match RenderTarget g with
      | None => (S (objects g), S (S (objects g)))
      | Some r => (r, S (objects g))
      end in
    match MakeOrderedFileAccessOperation true (SRAMPath Rom' "Default")
            LoadSRAM_IOOperation (chain g) with
    | Some (LoadSRAM, chain') =>
        Game Rom' Core' (Some (length (contexts g))) (Some AudioBuffer')
             (Some RenderTarget')
             (physical_files g) (physical_directories g) objects'
             (contexts g ++ [(CorePath', RomPath', LoadSRAM)])
             (shutdown_requests g) chain' (game_log g)
    | None => g
    end.

End Component.

(** ** LibretroCoreInstance.cpp: [LoadState] and [SaveState] *)

Section SaveStates.

(** The core, as in the section above, with [serialize]:
    [retro_serialize size c] is the [size] bytes of the buffer after
    [serialize(data, size)], and the core afterwards.
    [SaveArrayToFile bytes path] is what [FFileHelper::SaveArrayToFile]
    does to the files. *)
Context {core : Type}.
Variable retro_serialize_size : core → Z.
Variable retro_serialize : Z → core → list Z * core.
Variable retro_unserialize : list Z → Z → core → core.
Variable SaveArrayToFile :
  list Z → string → gmap string (list Z) → gmap string (list Z).

(** [FUnrealLibretroModule::SaveStatePath(Rom, Identifier)]; the member
    [SaveStatePath(Identifier)] is taken to be this path for the [Rom] of
    the component. *)
Variable SaveStatePath : string → string → string.

(** What the operations of [SaveState] act on besides the files and the
    core: the buffers made by [new TArray<uint8>()], by the index of the
    file task they are made for.  A buffer that is made and not filled yet
    is empty and has no entry. *)
Record save_world : Type := SaveWorld {
  save_io : @io_world core;
  SaveStateBuffers : gmap nat (list Z)
}.

(** The operation of [LoadState], on this world. *)
Definition LoadState_operation (Core : string) (SaveStatePath : string)
  (w : save_world) : save_world :=
  SaveWorld (LoadState_IOOperation retro_serialize_size retro_unserialize
               Core SaveStatePath (save_io w))
            (SaveStateBuffers w).

(** The task [SaveState] enqueues to the runtime (lines 224-231), up to
    its [Unlock]: the buffer gets [serialize_size()] bytes, which
    [serialize] fills. *)
Definition SaveState_serialize (SaveStateBuffer : nat) (w : save_world)
  : save_world :=
  let '(bytes, api') :=
    retro_serialize (retro_serialize_size (api (save_io w))) (api (save_io w)) in
  SaveWorld (IOWorld (files (save_io w)) api' (Log (save_io w)))
            (<[SaveStateBuffer := bytes]> (SaveStateBuffers w)).

(** The file task of [SaveState] (lines 211-215): the buffer is written
    to the path and deleted. *)
Definition SaveState_to_file (SaveStateBuffer : nat) (SaveStatePath : string)
  (w : save_world) : save_world :=
  SaveWorld (IOWorld (SaveArrayToFile
                        (default [] (SaveStateBuffers w !! SaveStateBuffer))
                        SaveStatePath (files (save_io w)))
                     (api (save_io w)) (Log (save_io w)))
            (delete SaveStateBuffer (SaveStateBuffers w)).

(** What [LoadState] and [SaveState] read and write of the component and
    of the process: [Rom], [Core], [CoreInstance], the chain, the tasks
    handed to [EnqueueTask], each with the context it is enqueued to, and
    the log. *)
Record save_states : Type := SaveStates {
  saving_Rom : string;
  saving_Core : string;
  saving_CoreInstance : option nat;
  saving_chain : io_state save_world;
  saving_enqueued : list (nat * nat);
  saving_log : list log_line
}.

(** [ULibretroCoreInstance::LoadState(Identifier)]. *)
Definition LoadState (Identifier : string) (c : save_states) : save_states :=
  match saving_CoreInstance c with
  | None =>
      SaveStates (saving_Rom c) (saving_Core c) None (saving_chain c)
                 (saving_enqueued c)
                 (saving_log c ++ [NotLaunched "LoadState" (saving_Core c)])
  | Some ctx =>
      match MakeOrderedFileAccessOperation true
              (SaveStatePath (saving_Rom c) Identifier)
              (LoadState_operation (saving_Core c)) (saving_chain c) with
      | Some (LoadSaveState, chain') =>
          SaveStates (saving_Rom c) (saving_Core c) (Some ctx) chain'
                     (saving_enqueued c ++ [(ctx, LoadSaveState)])
                     (saving_log c)
      | None => c
      end
  end.

(** [ULibretroCoreInstance::SaveState(Identifier)]. *)
Definition SaveState (Identifier : string) (c : save_states) : save_states :=
  match saving_CoreInstance c with
  | None =>
      SaveStates (saving_Rom c) (saving_Core c) None (saving_chain c)
                 (saving_enqueued c)
                 (saving_log c ++ [NotLaunched "SaveState" (saving_Core c)])
  | Some ctx =>
      let SaveStateBuffer := length (io_tasks (saving_chain c)) in
      let '(SaveStateToFileTask, chain') :=
        SaveState_schedule (SaveStatePath (saving_Rom c) Identifier)
          (SaveState_serialize SaveStateBuffer)
          (SaveState_to_file SaveStateBuffer) (saving_chain c) in
      SaveStates (saving_Rom c) (saving_Core c) (Some ctx) chain'
                 (saving_enqueued c ++ [(ctx, SaveStateToFileTask)])
                 (saving_log c)
  end.

(** How far a [SaveState] and the [LoadState] scheduled after it on the
    same path have got, the first in status [s0] and the second in [s1],
    and what the world [w'] is then, when it was [w] before both: the
    state is serialized once the first is called, the file is written once
    it has finished, and the file is loaded once the second has
    finished.  No other combination of statuses occurs. *)
Definition save_then_load (w : save_world) (SaveStateBuffer : nat)
  (Core SaveStatePath : string) (s0 s1 : io_status) (w' : save_world) : Prop :=
  let '(bytes, api') :=
    retro_serialize (retro_serialize_size (api (save_io w))) (api (save_io w)) in
  let serialized := IOWorld (files (save_io w)) api' (Log (save_io w)) in
  let saved :=
    IOWorld (SaveArrayToFile bytes SaveStatePath (files (save_io w))) api'
            (Log (save_io w)) in
  match s0, s1 with
  | Held, (Held | Called) => save_io w' = save_io w
  | (Called | Running), (Held | Called) =>
      save_io w' = serialized
      ∧ SaveStateBuffers w' !! SaveStateBuffer = Some bytes
  | Finished, (Held | Called) | Completed, (Held | Called | Running) =>
      save_io w' = saved
  | Completed, (Finished | Completed) =>
      save_io w' = LoadState_IOOperation retro_serialize_size retro_unserialize
                     Core SaveStatePath saved
  | _, _ => False
  end.

End SaveStates.

(** ** LibretroCoreInstance.cpp: controllers, [Pause] and [BeginDestroy] *)

(** What the component calls on other objects: on a player controller,
    with the input component of a port; on the delegate of a port; on the
    input component of a port; on a context. *)
Inductive component_call : Type :=
| PopInputComponent (PlayerController Port : nat)
| PushInputComponent (PlayerController Port : nat)
| ExecuteDisconnected (delegate : nat) (PlayerController : option nat)
                      (Port : nat)
| EmptyKeyBindings (Port : nat)
| BindKeys (Port : nat) (ControllerBindings : list (Z * Z))
| ContextPause (ctx : nat) (ShouldPause : bool)
| EnqueueTask (ctx : nat) (task : nat).

(** The arrays [Controller] (weak pointers to player controllers, [None]
    when null) and [Disconnected] (delegates, [None] when unbound), one
    entry for each port. *)
Record input_ports : Type := InputPorts {
  Controller : list (option nat);
  Disconnected : list (option nat)
}.

Section Lifetime.

Context {core : Type}.
Variable retro_get_memory_size : core → Z.

(** The bytes at [get_memory_data(RETRO_MEMORY_SAVE_RAM)]. *)
Variable retro_get_memory_data : core → list Z.
Variable SaveArrayToFile :
  list Z → string → gmap string (list Z) → gmap string (list Z).
Variable SRAMPath : string → string → string.

(** [PortCount] of the header, and whether a player controller is still
    alive, which is what [TWeakObjectPtr::IsValid] tells. *)
Variable PortCount : nat.
Variable IsValid : nat → bool.

(** [DisconnectController(Port)]: the calls it makes; [None] is the failed
    [check].  [Controller[Port].Get()] is null for a controller that is not
    alive any more. *)
Definition DisconnectController (Port : Z) (ports : input_ports)
  : option (list component_call) :=
  if (0 <=? Port) && (Port <? Z.of_nat PortCount) then
    weak ← Controller ports !! Z.to_nat Port;
    delegate ← Disconnected ports !! Z.to_nat Port;
    let PlayerController :=
      weak ≫= λ pc, if IsValid pc then Some pc else None in
    Some (from_option (λ pc, [PopInputComponent pc (Z.to_nat Port)]) []
                      PlayerController
          ++ from_option
               (λ d, [ExecuteDisconnected d PlayerController (Z.to_nat Port)])
               [] delegate)
  else None.

(** [ConnectController(PlayerController, Port, ControllerBindings,
    OnControllerDisconnected)], once [InitializeComponent] has made the input
    components.  [None] is the failed [check], or a null
    [PlayerController], which is dereferenced. *)
Definition ConnectController (PlayerController : option nat) (Port : Z)
  (ControllerBindings : list (Z * Z)) (OnControllerDisconnected : option nat)
  (ports : input_ports) : option (input_ports * list component_call) :=
  if (0 <=? Port) && (Port <? Z.of_nat PortCount) then
    calls ← DisconnectController Port ports;
    pc ← PlayerController;
    Some (InputPorts (<[Z.to_nat Port := PlayerController]> (Controller ports))
                     (<[Z.to_nat Port := OnControllerDisconnected]>
                        (Disconnected ports)),
          calls ++ [EmptyKeyBindings (Z.to_nat Port);
                    BindKeys (Z.to_nat Port) ControllerBindings;
                    PushInputComponent pc (Z.to_nat Port)])
  else None.

(** [ULibretroCoreInstance::Pause(ShouldPause)], on the component and its
    member [Paused]. *)
Definition Pause (ShouldPause : bool) (g : @game core) (Paused : bool)
  : @game core * bool * list component_call :=
  match CoreInstance g with
  | None =>
      (Game (Rom g) (Core g) None (AudioBuffer g) (RenderTarget g)
            (physical_files g) (physical_directories g) (objects g)
            (contexts g) (shutdown_requests g) (chain g)
            (game_log g ++ [NotLaunched "Pause" (Core g)]),
       Paused, [])
  | Some ctx => (g, ShouldPause, [ContextPause ctx ShouldPause])
  end.

(** The operation [BeginDestroy] schedules (lines 276-284): the save RAM
    of the core is written to the path. *)
Definition SaveSRAM_IOOperation (SRAMPath : string) (w : @io_world core)
  : @io_world core :=
  IOWorld (SaveArrayToFile
             (take (Z.to_nat (retro_get_memory_size (api w)))
                   (retro_get_memory_data (api w)))
             SRAMPath (files w))
          (api w) (Log w).

(** [ULibretroCoreInstance::BeginDestroy], up to the calls into the engine
    that end it: every port is disconnected, the save of the save RAM is
    scheduled and enqueued to the runtime when there is one, and
    [Shutdown] is called. *)
Definition BeginDestroy (g : @game core) (ports : input_ports)
  : option (@game core * list component_call) :=
  calls ← mapM (λ Port, DisconnectController Port ports)
               (seqZ 0 (Z.of_nat PortCount));
  match CoreInstance g with
  | Some ctx =>
      '(SaveSRAM, chain') ←
        MakeOrderedFileAccessOperation true (SRAMPath (Rom g) "Default")
          SaveSRAM_IOOperation (chain g);
      Some (Shutdown
              (Game (Rom g) (Core g) (CoreInstance g) (AudioBuffer g)
                    (RenderTarget g) (physical_files g)
                    (physical_directories g) (objects g) (contexts g)
                    (shutdown_requests g) chain' (game_log g)),
            concat calls ++ [EnqueueTask ctx SaveSRAM])
  | None => Some (Shutdown g, concat calls)
  end.

End Lifetime.

(** *** Examples *)

(** A core for the examples: its state is the bytes last handed to
    [unserialize], it reports a state size of 4, and it has no save RAM. *)
Definition example_LoadState : string → string → @io_world (list Z) → io_world :=
  LoadState_IOOperation (λ _, 4) (λ data n _, take (Z.to_nat n) data).

Definition example_Launch : @game (list Z) → @game (list Z) :=
  Launch (λ _, 0) (λ _ c, c) (λ c, "cores/" +:+ c) (λ r, "roms/" +:+ r)
         (λ r i, "saves/" +:+ r +:+ i).

(** A component with a running core, in a process where the ROM exists and
    the file of the core does not. *)
Definition example_game : @game (list Z) :=
  Game "pong" "chip8.dll" (Some 0%nat) None None {["roms/pong"]} ∅ 0
       [("cores/chip8.dll", "roms/pong", 0%nat)] [] io_init [].

(** The same component in a process where both exist. *)
Definition example_game_with_core : @game (list Z) :=
  Game "pong" "chip8.dll" (Some 0%nat) None None
       {["roms/pong"; "cores/chip8.dll"]} ∅ 0
       [("cores/chip8.dll", "roms/pong", 0%nat)] [] io_init [].

(** A world with one save state, of three bytes. *)
Definition example_world : @io_world (list Z) :=
  IOWorld {["saves/pong0" := [1; 2; 3]]} [] [].

(** A chain whose only operation is a [LoadState] of a file that does not
    exist, called and not begun. *)
Definition example_loading : io_state (@io_world (list Z)) :=
  IOState {["saves/pong1" := 0%nat]}
          [IOTask "saves/pong1" None id (example_LoadState "chip8.dll") Called]
          [].

(** Variables as a core declares them, a context that has set nothing,
    a launched component whose chain is empty, and the component of the
    examples above once it is destroyed. *)
Definition example_variables : list (string * string) :=
  [("region", "Console region;  NTSC|PAL");
   ("overscan", "Crop overscan; enabled|disabled");
   ("region", "Region; PAL|NTSC")].

Definition example_environment : environment :=
  Environment ∅ (Video 0 0 0 0 0 0 0) false (FrameTimeCallback false 0) false
              "saves/" "system/" [] [].

Definition example_save_states : @save_states (list Z) :=
  SaveStates "pong" "chip8.dll" (Some 0%nat) io_init [] [].

Definition example_BeginDestroy
  : option (@game (list Z) * list component_call) :=
  BeginDestroy (λ _, 0) (λ c, c) (λ bytes p fs, <[p := bytes]> fs)
               (λ r i, "saves/" +:+ r +:+ i) 0 (λ _, true)
               example_game_with_core (InputPorts [] []).

Definition example_destroyed : @game (list Z) :=
  (default (example_game_with_core, []) example_BeginDestroy).1.

(* ===================================================================== *)
(** * Part II: lemmas and theorems                                        *)
(* ===================================================================== *)

(** ** The pixel format and [video_refresh] *)

Lemma lookup_concat_uniform {A} (n : nat) (ls : list (list A)) (i j : nat) :
  Forall (λ l, length l = n) ls → (j < n)%nat →
  concat ls !! (i * n + j)%nat = ls !! i ≫= (.!! j).
Proof.
  intros Hall Hj. revert i. induction Hall as [|l ls Hl Hall IH]; intros i.
  - by rewrite !lookup_nil.
  - destruct i as [|i]; cbn [concat].
    + rewrite lookup_app_l by lia. done.
    + rewrite lookup_app_r by (cbn; lia).
      replace (S i * n + j - length l)%nat with (i * n + j)%nat by (cbn; lia).
      by rewrite IH.
Qed.

Lemma length_concat_uniform {A} (n : nat) (ls : list (list A)) :
  Forall (λ l, length l = n) ls → length (concat ls) = (length ls * n)%nat.
Proof.
  induction 1 as [|l ls Hl Hall IH]; [done|].
  cbn [concat]. rewrite length_app, IH. cbn. lia.
Qed.

(** The tables hold the field rescaled to a byte, rounded to nearest:
    [255 * v / 31] and [255 * v / 63]. *)
Lemma _5_bit_threshold_rescales (v : Z) :
  0 ≤ v < 32 → _5_bit_threshold !! Z.to_nat v = Some ((510 * v + 31) / 62).
Proof.
  intros Hv.
  assert (Hall : forallb (λ i, bool_decide
            (_5_bit_threshold !! i = Some ((510 * Z.of_nat i + 31) / 62)))
            (seq 0 32) = true) by (vm_compute; reflexivity).
  rewrite forallb_forall in Hall.
  specialize (Hall (Z.to_nat v)).
  rewrite Z2Nat.id in Hall by lia.
  eapply bool_decide_eq_true, Hall, in_seq. lia.
Qed.

Lemma _6_bit_threshold_rescales (v : Z) :
  0 ≤ v < 64 → _6_bit_threshold !! Z.to_nat v = Some ((510 * v + 63) / 126).
Proof.
  intros Hv.
  assert (Hall : forallb (λ i, bool_decide
            (_6_bit_threshold !! i = Some ((510 * Z.of_nat i + 63) / 126)))
            (seq 0 64) = true) by (vm_compute; reflexivity).
  rewrite forallb_forall in Hall.
  specialize (Hall (Z.to_nat v)).
  rewrite Z2Nat.id in Hall by lia.
  eapply bool_decide_eq_true, Hall, in_seq. lia.
Qed.

Lemma land_ones_range (a n : Z) : 0 ≤ n → 0 ≤ Z.land a (Z.ones n) < 2 ^ n.
Proof.
  intros Hn. rewrite Z.land_ones by lia. apply Z.mod_pos_bound. lia.
Qed.

Lemma FDXTColor565_B_range px : 0 ≤ FDXTColor565_B px < 32.
Proof. apply (land_ones_range px 5). lia. Qed.

Lemma FDXTColor565_G_range px : 0 ≤ FDXTColor565_G px < 64.
Proof. apply (land_ones_range (Z.shiftr px 5) 6). lia. Qed.

Lemma FDXTColor565_R_range px : 0 ≤ FDXTColor565_R px < 32.
Proof. apply (land_ones_range (Z.shiftr px 11) 5). lia. Qed.

(** A [uint16] is its three fields put together. *)
Lemma FDXTColor565_fields px :
  0 ≤ px < 2 ^ 16 →
  px = FDXTColor565_B px + 32 * FDXTColor565_G px + 2048 * FDXTColor565_R px.
Proof.
  intros Hpx. unfold FDXTColor565_B, FDXTColor565_G, FDXTColor565_R.
  change 31 with (Z.ones 5). change 63 with (Z.ones 6).
  rewrite !Z.land_ones by lia.
  rewrite !Z.shiftr_div_pow2 by lia.
  change (2 ^ 5) with 32. change (2 ^ 6) with 64. change (2 ^ 11) with 2048.
  change (2 ^ 16) with 65536 in Hpx.
  Z.div_mod_to_equations. lia.
Qed.

Lemma bgra_of_inj px1 px2 :
  0 ≤ px1 < 2 ^ 16 → 0 ≤ px2 < 2 ^ 16 → bgra_of px1 = bgra_of px2 → px1 = px2.
Proof.
  intros H1 H2 Heq.
  rewrite (FDXTColor565_fields px1 H1), (FDXTColor565_fields px2 H2).
  pose proof (FDXTColor565_B_range px1). pose proof (FDXTColor565_B_range px2).
  pose proof (FDXTColor565_G_range px1). pose proof (FDXTColor565_G_range px2).
  pose proof (FDXTColor565_R_range px1). pose proof (FDXTColor565_R_range px2).
  unfold bgra_of in Heq. injection Heq as Hb Hg Hr.
  assert (FDXTColor565_B px1 = FDXTColor565_B px2)
    by (revert Hb; Z.div_mod_to_equations; lia).
  assert (FDXTColor565_G px1 = FDXTColor565_G px2)
    by (revert Hg; Z.div_mod_to_equations; lia).
  assert (FDXTColor565_R px1 = FDXTColor565_R px2)
    by (revert Hr; Z.div_mod_to_equations; lia).
  lia.
Qed.

Lemma Update16BitTexture_pixel_Some data pitch x y px :
  data !! Z.to_nat (to_uint32 (x + pitch / 2 * y)) = Some px →
  Update16BitTexture_pixel data pitch x y = Some (bgra_of px).
Proof.
  intros Hpx. unfold Update16BitTexture_pixel. rewrite Hpx.
  cbn [mbind option_bind].
  rewrite (_5_bit_threshold_rescales _ (FDXTColor565_B_range px)).
  cbn [mbind option_bind].
  rewrite (_6_bit_threshold_rescales _ (FDXTColor565_G_range px)).
  cbn [mbind option_bind].
  rewrite (_5_bit_threshold_rescales _ (FDXTColor565_R_range px)).
  done.
Qed.

Lemma Update16BitTexture_pixel_length data pitch x y l :
  Update16BitTexture_pixel data pitch x y = Some l → length l = 4%nat.
Proof.
  unfold Update16BitTexture_pixel. intros H.
  destruct (data !! _) as [px|]; [|done]. cbn in H.
  destruct (_5_bit_threshold !! Z.to_nat (FDXTColor565_B px)); [|done]. cbn in H.
  destruct (_6_bit_threshold !! _); [|done]. cbn in H.
  destruct (_5_bit_threshold !! _); [|done]. cbn in H.
  by injection H as <-.
Qed.

Lemma Update16BitTexture_row data pitch width y row :
  0 ≤ width →
  mapM (λ x, Update16BitTexture_pixel data pitch x y) (seqZ 0 width) = Some row →
  length (concat row) = Z.to_nat (4 * width) ∧
  ∀ x, 0 ≤ x < width →
    ∃ px, data !! Z.to_nat (to_uint32 (x + pitch / 2 * y)) = Some px ∧
    ∀ c, (c < 4)%nat → concat row !! (Z.to_nat (4 * x) + c)%nat = bgra_of px !! c.
Proof.
  intros Hw Hrow. apply mapM_Some_1 in Hrow.
  assert (Hlen : Forall (λ l : list Z, length l = 4%nat) row).
  { apply Forall_forall. intros l Hl.
    apply list_elem_of_lookup in Hl as [i Hi].
    destruct (Forall2_lookup_r _ _ _ _ _ Hrow Hi) as (x & _ & Hx).
    eapply Update16BitTexture_pixel_length, Hx. }
  split.
  - rewrite (length_concat_uniform 4 _ Hlen).
    rewrite <- (Forall2_length _ _ _ Hrow), length_seqZ. lia.
  - intros x Hx.
    assert (Hsx : seqZ 0 width !! Z.to_nat x = Some x).
    { rewrite lookup_seqZ_lt by lia. f_equal. lia. }
    destruct (Forall2_lookup_l _ _ _ _ _ Hrow Hsx) as (l & Hl & Hconv).
    destruct (data !! Z.to_nat (to_uint32 (x + pitch / 2 * y))) as [px|] eqn:Hpx.
    + exists px. split; [done|]. intros c Hc.
      rewrite (Update16BitTexture_pixel_Some _ _ _ _ _ Hpx) in Hconv.
      injection Hconv as <-.
      replace (Z.to_nat (4 * x) + c)%nat with (Z.to_nat x * 4 + c)%nat by lia.
      rewrite (lookup_concat_uniform 4 _ _ _ Hlen Hc), Hl. done.
    + unfold Update16BitTexture_pixel in Hconv. by rewrite Hpx in Hconv.
Qed.

Lemma Update16BitTexture_is_Some data width height pitch :
  4 * width * height < 2 ^ 32 →
  (∀ x y, 0 ≤ x < width → 0 ≤ y < height →
     is_Some (data !! Z.to_nat (to_uint32 (x + pitch / 2 * y)))) →
  is_Some (Update16BitTexture data width height pitch).
Proof.
  intros Hsize Hin. unfold Update16BitTexture.
  destruct (Z.ltb_spec (4 * width * height) (2 ^ 32)); [|lia].
  assert (Hrows : is_Some (mapM (λ y,
        @concat Z <$> mapM (λ x, Update16BitTexture_pixel data pitch x y)
                           (seqZ 0 width)) (seqZ 0 height))).
  { apply mapM_is_Some_2, Forall_forall. intros y Hy.
    apply elem_of_seqZ in Hy. cbn.
    assert (Hrow : is_Some (mapM (λ x, Update16BitTexture_pixel data pitch x y)
                                 (seqZ 0 width))).
    { apply mapM_is_Some_2, Forall_forall. intros x Hx.
      apply elem_of_seqZ in Hx. cbn.
      destruct (Hin x y) as [px Hpx]; [lia|lia|].
      rewrite (Update16BitTexture_pixel_Some _ _ _ _ _ Hpx). done. }
    destruct Hrow as [row ->]. done. }
  destruct Hrows as [rows ->]. done.
Qed.

Lemma Update16BitTexture_Some data width height pitch u :
  0 ≤ width → 0 ≤ height →
  Update16BitTexture data width height pitch = Some u →
  region_Width u = width ∧ region_Height u = height ∧
  SrcPitch u = to_uint32 (4 * width) ∧ SrcBpp u = 4 ∧
  length (SrcData u) = Z.to_nat (4 * width * height) ∧
  ∀ x y, 0 ≤ x < width → 0 ≤ y < height →
    ∃ px, data !! Z.to_nat (to_uint32 (x + pitch / 2 * y)) = Some px ∧
    ∀ c, (c < 4)%nat →
      SrcData u !! (Z.to_nat (4 * (x + y * width)) + c)%nat = bgra_of px !! c.
Proof.
  intros Hw Hh. unfold Update16BitTexture.
  destruct (Z.ltb_spec (4 * width * height) (2 ^ 32)) as [Hsize|]; [|done].
  destruct (mapM _ (seqZ 0 height)) as [rows|] eqn:Hrows; [|done].
  cbn [mbind option_bind]. intros [= <-]. cbn.
  apply mapM_Some_1 in Hrows.
  assert (Hrow : ∀ y, 0 ≤ y < height → ∃ r row,
     rows !! Z.to_nat y = Some r ∧ r = concat row ∧
     mapM (λ x, Update16BitTexture_pixel data pitch x y) (seqZ 0 width) = Some row).
  { intros y Hy.
    assert (Hsy : seqZ 0 height !! Z.to_nat y = Some y).
    { rewrite lookup_seqZ_lt by lia. f_equal. lia. }
    destruct (Forall2_lookup_l _ _ _ _ _ Hrows Hsy) as (r & Hr & Hconv).
    destruct (mapM _ (seqZ 0 width)) as [row|] eqn:Hmap; [|done].
    exists r, row. cbn in Hconv. by injection Hconv as <-. }
  assert (Hlen : Forall (λ l : list Z, length l = Z.to_nat (4 * width)) rows).
  { apply Forall_forall. intros r Hr.
    apply list_elem_of_lookup in Hr as [i Hi].
    destruct (Forall2_lookup_r _ _ _ _ _ Hrows Hi) as (y & Hy & Hconv).
    apply lookup_seqZ in Hy as [-> Hy].
    destruct (mapM _ (seqZ 0 width)) as [row|] eqn:Hmap; [|done].
    cbn in Hconv. injection Hconv as <-.
    by destruct (Update16BitTexture_row _ _ _ _ _ Hw Hmap). }
  repeat split; try done.
  - rewrite (length_concat_uniform _ _ Hlen).
    rewrite <- (Forall2_length _ _ _ Hrows), length_seqZ. nia.
  - intros x y Hx Hy.
    destruct (Hrow y Hy) as (r & row & Hr & -> & Hmap).
    destruct (Update16BitTexture_row _ _ _ _ _ Hw Hmap) as [_ Hpix].
    destruct (Hpix x Hx) as (px & Hpx & Hc).
    exists px. split; [done|]. intros c Hc4.
    replace (Z.to_nat (4 * (x + y * width)) + c)%nat
      with (Z.to_nat y * Z.to_nat (4 * width) + (Z.to_nat (4 * x) + c))%nat by nia.
    rewrite (lookup_concat_uniform _ _ _ _ Hlen) by lia.
    rewrite Hr. cbn. by apply Hc.
Qed.

(** In a frame that holds [height] rows of [pitch / 2] pixels, a row is at
    least [width] pixels long, every read of [Update16BitTexture] is inside
    the frame, at the index as written. *)
Lemma frame_index_in_range (data : list Z) width height pitch x y :
  width ≤ pitch / 2 →
  pitch / 2 * height ≤ Z.of_nat (length data) →
  pitch / 2 * height < 2 ^ 32 →
  0 ≤ x < width → 0 ≤ y < height →
  to_uint32 (x + pitch / 2 * y) = x + pitch / 2 * y ∧
  is_Some (data !! Z.to_nat (x + pitch / 2 * y)).
Proof.
  intros Hrow Hlen Hfit Hx Hy.
  assert (0 ≤ x + pitch / 2 * y < pitch / 2 * height) by nia.
  split.
  - unfold to_uint32. apply Z.mod_small. lia.
  - apply lookup_lt_is_Some. lia.
Qed.

(** [Update16BitTexture] on a frame of RGB565 pixels: the region is
    the whole picture, the buffer holds four bytes for each pixel, and the
    pixel at column [x] of row [y], read at [x + pitch / 2 * y], gives at
    [4 * (x + y * width)] its blue, green and red fields rescaled to
    [0..255] (rounded to nearest) and the alpha byte [255]. *)
Theorem Update16BitTexture_rescales (data : list Z) (width height pitch : Z) :
  0 ≤ width ≤ pitch / 2 → 0 ≤ height →
  4 * width * height < 2 ^ 32 →
  pitch / 2 * height ≤ Z.of_nat (length data) →
  pitch / 2 * height < 2 ^ 32 →
  ∃ u, Update16BitTexture data width height pitch = Some u ∧
    region_Width u = width ∧ region_Height u = height ∧
    SrcPitch u = to_uint32 (4 * width) ∧ SrcBpp u = 4 ∧
    Z.of_nat (length (SrcData u)) = 4 * width * height ∧
    ∀ x y, 0 ≤ x < width → 0 ≤ y < height →
      ∃ px, data !! Z.to_nat (x + pitch / 2 * y) = Some px ∧
        ∀ c, (c < 4)%nat →
          SrcData u !! (Z.to_nat (4 * (x + y * width)) + c)%nat
          = [(510 * FDXTColor565_B px + 31) / 62;
             (510 * FDXTColor565_G px + 63) / 126;
             (510 * FDXTColor565_R px + 31) / 62;
             255] !! c.
Proof.
  intros [Hw Hrow] Hh Hsize Hlen Hfit.
  destruct (Update16BitTexture_is_Some data width height pitch Hsize) as [u Hu].
  { intros x y Hx Hy.
    destruct (frame_index_in_range data width height pitch x y) as [-> ?]; done. }
  exists u. split; [done|].
  destruct (Update16BitTexture_Some _ _ _ _ _ Hw Hh Hu)
    as (Hrw & Hrh & Hp & Hb & Hl & Hpix).
  repeat split; try done.
  - rewrite Hl. nia.
  - intros x y Hx Hy. destruct (Hpix x y Hx Hy) as (px & Hpx & Hc).
    destruct (frame_index_in_range data width height pitch x y) as [Hidx _];
      try done.
    rewrite Hidx in Hpx. by exists px.
Qed.

(** The conversion loses nothing: two frames of 16-bit pixels that
    [Update16BitTexture] turns into the same bytes agree on every pixel of
    the picture. *)
Theorem Update16BitTexture_lossless (data1 data2 : list Z)
  (width height pitch : Z) (u : texture_update) :
  0 ≤ width → 0 ≤ height →
  Forall (λ px, 0 ≤ px < 2 ^ 16) data1 →
  Forall (λ px, 0 ≤ px < 2 ^ 16) data2 →
  Update16BitTexture data1 width height pitch = Some u →
  Update16BitTexture data2 width height pitch = Some u →
  ∀ x y, 0 ≤ x < width → 0 ≤ y < height →
    data1 !! Z.to_nat (to_uint32 (x + pitch / 2 * y))
    = data2 !! Z.to_nat (to_uint32 (x + pitch / 2 * y)).
Proof.
  intros Hw Hh H1 H2 Hu1 Hu2 x y Hx Hy.
  destruct (Update16BitTexture_Some _ _ _ _ _ Hw Hh Hu1)
    as (_ & _ & _ & _ & _ & Hpix1).
  destruct (Update16BitTexture_Some _ _ _ _ _ Hw Hh Hu2)
    as (_ & _ & _ & _ & _ & Hpix2).
  destruct (Hpix1 x y Hx Hy) as (px1 & Hpx1 & Hc1).
  destruct (Hpix2 x y Hx Hy) as (px2 & Hpx2 & Hc2).
  rewrite Hpx1, Hpx2. f_equal.
  apply bgra_of_inj.
  - eapply (Forall_lookup_1 _ _ _ _ H1), Hpx1.
  - eapply (Forall_lookup_1 _ _ _ _ H2), Hpx2.
  - apply list_eq. intros c.
    destruct (decide (c < 4)%nat) as [Hc|Hc].
    + by rewrite <- Hc1, <- Hc2.
    + rewrite !lookup_ge_None_2; [done|cbn; lia|cbn; lia].
Qed.

(** The witness of [Update16BitTexture_lossless]: a frame of two pixels. *)
Lemma Update16BitTexture_lossless_witness :
  [4660; 65535] !! 1%nat = [4660; 65535] !! 1%nat.
Proof.
  destruct (Update16BitTexture [4660; 65535] 2 1 4) as [u|] eqn:Hu;
    [|vm_compute in Hu; discriminate].
  apply (Update16BitTexture_lossless [4660; 65535] [4660; 65535] 2 1 4 u
           ltac:(lia) ltac:(lia)
           ltac:(repeat constructor; lia) ltac:(repeat constructor; lia)
           Hu Hu 1 0 ltac:(lia) ltac:(lia)).
Defined.

(** The witness of [Update16BitTexture_rescales]: a frame of two rows of
    two pixels, each row followed by a pixel of padding. *)
Lemma Update16BitTexture_rescales_witness :
  ∃ u, Update16BitTexture [4660; 65535; 0; 31; 2016; 63488] 2 2 6 = Some u ∧
       SrcData u = [165; 69; 16; 255; 255; 255; 255; 255;
                    255; 0; 0; 255; 0; 255; 0; 255].
Proof.
  destruct (Update16BitTexture_rescales [4660; 65535; 0; 31; 2016; 63488] 2 2 6)
    as (u & Hu & _);
    [vm_compute; split; discriminate|lia|lia|vm_compute; discriminate|
     vm_compute; reflexivity|].
  exists u. split; [done|].
  vm_compute in Hu. by injection Hu as <-.
Defined.

Lemma video_set_pixel_format_Some format v r v' :
  video_set_pixel_format format v = Some (r, v') →
  r = true ∧ tex_id v = 0 ∧ tex_id v' = 0 ∧
  ((format = RETRO_PIXEL_FORMAT_0RGB1555 ∧ pixfmt v' = GL_UNSIGNED_SHORT_5_5_5_1)
   ∨ (format = RETRO_PIXEL_FORMAT_XRGB8888 ∧ pixfmt v' = GL_UNSIGNED_INT_8_8_8_8_REV)
   ∨ (format = RETRO_PIXEL_FORMAT_RGB565 ∧ pixfmt v' = GL_UNSIGNED_SHORT_5_6_5)).
Proof.
  unfold video_set_pixel_format.
  destruct (Z.eqb_spec (tex_id v) 0) as [Ht|]; [|done]. cbn.
  destruct (Z.eqb_spec format RETRO_PIXEL_FORMAT_0RGB1555);
    [intros [= <- <-]; cbn; auto 10|].
  destruct (Z.eqb_spec format RETRO_PIXEL_FORMAT_XRGB8888);
    [intros [= <- <-]; cbn; auto 10|].
  destruct (Z.eqb_spec format RETRO_PIXEL_FORMAT_RGB565);
    [intros [= <- <-]; cbn; auto 10|done].
Qed.

Lemma video_refresh_software UsingOpenGL v data width height pitch :
  video_refresh UsingOpenGL v (software_frame data) width height pitch
  = if pixfmt v =? GL_UNSIGNED_SHORT_5_6_5
    then u ← Update16BitTexture data width height pitch;
         Some (Texture16 u,
               if negb (clip_w v =? width) || negb (clip_h v =? height)
               then Video (tex_id v) (pixfmt v) (pixtype v) (bpp v)
                          (video_pitch v) width height
               else v)
    else None.
Proof.
  unfold video_refresh.
  by destruct (negb (clip_w v =? width) || negb (clip_h v =? height)).
Qed.

(** A frame in memory is accepted only in RGB565: after the core's
    [RETRO_ENVIRONMENT_SET_PIXEL_FORMAT] was answered with [true],
    [video_refresh] passes its [check] on such a frame exactly when the
    format set was [RETRO_PIXEL_FORMAT_RGB565] (and the frame can be
    converted); with either of the other two formats it fails. *)
Theorem software_frame_needs_RGB565 (e e' : environment) (fmt : Z)
  (w : env_reply) (data : list Z) (width height pitch : Z) :
  - 2 ^ 31 ≤ fmt < 2 ^ 31 →
  core_environment (RETRO_ENVIRONMENT_SET_PIXEL_FORMAT fmt) e
    = Some (true, w, e') →
  is_Some (video_refresh (UsingOpenGL e') (g_video e') (software_frame data)
                         width height pitch)
  ↔ fmt = RETRO_PIXEL_FORMAT_RGB565
    ∧ is_Some (Update16BitTexture data width height pitch).
Proof.
  intros Hfmt. cbn [core_environment].
  destruct (Z.gtb_spec fmt RETRO_PIXEL_FORMAT_RGB565) as [|Hle]; [done|].
  destruct (video_set_pixel_format (to_uint32 fmt) (g_video e))
    as [[r v]|] eqn:Hset; [|done].
  cbn [mbind option_bind]. intros [= -> <- <-].
  cbn [UsingOpenGL g_video with_video].
  apply video_set_pixel_format_Some in Hset as (_ & _ & _ & Hcase).
  rewrite video_refresh_software.
  assert (Hu : ∀ k, to_uint32 fmt = k → 0 ≤ k ≤ 2 → fmt = k).
  { unfold to_uint32. intros k <- Hk. unfold RETRO_PIXEL_FORMAT_RGB565 in Hle.
    symmetry. apply Z.mod_small.
    destruct (Z.le_gt_cases 0 fmt); [lia|].
    exfalso. revert Hk. Z.div_mod_to_equations. lia. }
  destruct Hcase as [[Hf ->]|[[Hf ->]|[Hf ->]]]; apply Hu in Hf; try done.
  - cbn. split; [by intros []|]. intros [? _]. by subst.
  - cbn. split; [by intros []|]. intros [? _]. by subst.
  - change (GL_UNSIGNED_SHORT_5_6_5 =? GL_UNSIGNED_SHORT_5_6_5) with true.
    cbv iota. split.
    + intros Hs. split; [done|].
      destruct (Update16BitTexture data width height pitch); [done|].
      by destruct Hs.
    + intros [_ [u ->]]. done.
Qed.

(** The witness of [software_frame_needs_RGB565]: a core that has set
    XRGB8888 and presents a frame in memory. *)
Lemma software_frame_needs_RGB565_witness :
  ¬ is_Some (video_refresh false
       (Video 0 GL_UNSIGNED_INT_8_8_8_8_REV GL_BGRA 4 0 0 0)
       (software_frame [0; 0; 0; 0]) 2 1 8).
Proof.
  intros Hs.
  pose (e := Environment ∅ (Video 0 0 0 0 0 0 0) false
                         (FrameTimeCallback false 0) false "" "" [] []).
  apply (software_frame_needs_RGB565 e
           (with_video e (Video 0 GL_UNSIGNED_INT_8_8_8_8_REV GL_BGRA 4 0 0 0))
           RETRO_PIXEL_FORMAT_XRGB8888 nothing_written [0; 0; 0; 0] 2 1 8
           ltac:(vm_compute; split; [discriminate|reflexivity])
           ltac:(reflexivity)) in Hs as [Hs _].
  discriminate Hs.
Defined.

Lemma core_environment_UsingOpenGL cmd e r w e' :
  core_environment cmd e = Some (r, w, e') →
  UsingOpenGL e' = true
  ↔ UsingOpenGL e = true ∨ cmd = RETRO_ENVIRONMENT_SET_HW_RENDER.
Proof.
  destruct cmd; cbn [core_environment]; intros H;
    try (injection H as <- <- <-; cbn; intuition congruence); try done.
  - destruct (settings e !! key); injection H as <- <- <-;
      intuition congruence.
  - destruct arr_var; [done|].
    destruct (set_variables _ _); [|done]. injection H as <- <- <-.
    cbn. intuition congruence.
  - destruct (fmt >? _); [injection H as <- <- <-; intuition congruence|].
    destruct (video_set_pixel_format _ _) as [[]|]; [|done].
    injection H as <- <- <-. cbn. intuition congruence.
  - destruct descriptions; [done|]. injection H as <- <- <-.
    cbn. intuition congruence.
Qed.

Lemma core_environment_calls_UsingOpenGL cmds e e' :
  core_environment_calls cmds e = Some e' →
  UsingOpenGL e' = true
  ↔ UsingOpenGL e = true ∨ RETRO_ENVIRONMENT_SET_HW_RENDER ∈ cmds.
Proof.
  revert e. induction cmds as [|cmd cmds IH]; intros e; cbn.
  - intros [= ->]. rewrite elem_of_nil. tauto.
  - destruct (core_environment cmd e) as [[[r w] e1]|] eqn:Hcmd; [|done].
    cbn. intros Hrun. rewrite (IH _ Hrun).
    rewrite (core_environment_UsingOpenGL _ _ _ _ _ Hcmd).
    rewrite elem_of_cons. intuition congruence.
Qed.

(** The frontend tells every core that it may repeat a frame
    ([RETRO_ENVIRONMENT_GET_CAN_DUPE] writes [true]), but a repeated frame (a
    null [data]) passes the [check] of [video_refresh] only for a core that
    has called [RETRO_ENVIRONMENT_SET_HW_RENDER], and then it still divides
    the new pitch by [g_video.bpp]: from a context without OpenGL, whatever
    else the core has called, the frame is accepted exactly when that
    command is among the calls and either the pitch is the one stored or
    [bpp] is not zero. *)
Theorem repeated_frame_needs_SET_HW_RENDER (cmds : list env_command)
  (e e' : environment) (width height pitch : Z) :
  UsingOpenGL e = false →
  core_environment_calls cmds e = Some e' →
  core_environment RETRO_ENVIRONMENT_GET_CAN_DUPE e'
    = Some (true, can_dupe true, e')
  ∧ (is_Some (video_refresh (UsingOpenGL e') (g_video e') null_frame
                            width height pitch)
     ↔ RETRO_ENVIRONMENT_SET_HW_RENDER ∈ cmds
       ∧ (pitch = video_pitch (g_video e') ∨ bpp (g_video e') ≠ 0)).
Proof.
  intros He Hrun. split; [done|].
  pose proof (core_environment_calls_UsingOpenGL _ _ _ Hrun) as Hgl.
  rewrite He in Hgl.
  assert (Hv : ∀ v : video,
    video_pitch (if negb (clip_w v =? width) || negb (clip_h v =? height)
                 then Video (tex_id v) (pixfmt v) (pixtype v) (bpp v)
                            (video_pitch v) width height
                 else v) = video_pitch v
    ∧ bpp (if negb (clip_w v =? width) || negb (clip_h v =? height)
           then Video (tex_id v) (pixfmt v) (pixtype v) (bpp v)
                      (video_pitch v) width height
           else v) = bpp v).
  { intros v. by destruct (negb _ || negb _). }
  unfold video_refresh. destruct (Hv (g_video e')) as [-> ->].
  destruct (UsingOpenGL e').
  - assert (Hin : RETRO_ENVIRONMENT_SET_HW_RENDER ∈ cmds).
    { destruct (proj1 Hgl eq_refl) as [|]; done. }
    destruct (Z.eqb_spec pitch (video_pitch (g_video e'))) as [Hp|Hp];
      cbn [negb].
    + split; [auto|done].
    + cbn [bpp]. destruct (Z.eqb_spec (bpp (g_video e')) 0) as [Hb|Hb].
      * split; [by intros []|]. intros [_ [|]]; done.
      * split; [auto|done].
  - split; [by intros []|]. intros [Hin _].
    assert (false = true) by (apply Hgl; auto). done.
Qed.

(** The witness of [repeated_frame_needs_SET_HW_RENDER]: a core that has
    called [RETRO_ENVIRONMENT_SET_HW_RENDER] and no
    [RETRO_ENVIRONMENT_SET_PIXEL_FORMAT], so that [bpp] is zero, asks whether
    it may repeat frames, and repeats one: with the pitch stored the frame is
    accepted, with a pitch of 4 the division is by zero. *)
Lemma repeated_frame_needs_SET_HW_RENDER_witness :
  is_Some (video_refresh true (Video 0 0 0 0 0 0 0) null_frame 2 1 0)
  ∧ ¬ is_Some (video_refresh true (Video 0 0 0 0 0 0 0) null_frame 2 1 4).
Proof.
  pose (e := Environment ∅ (Video 0 0 0 0 0 0 0) false
                         (FrameTimeCallback false 0) false "" "" [] []).
  pose (e' := Environment ∅ (Video 0 0 0 0 0 0 0) true
                          (FrameTimeCallback false 0) false "" "" [] []).
  pose proof (λ pitch, proj2 (repeated_frame_needs_SET_HW_RENDER
           [RETRO_ENVIRONMENT_SET_HW_RENDER; RETRO_ENVIRONMENT_GET_CAN_DUPE]
           e e' 2 1 pitch eq_refl eq_refl)) as H.
  split.
  - apply (H 0). split; [|by left]. apply elem_of_cons. by left.
  - intros Hs. apply (H 4) in Hs as [_ [Hs|Hs]]; [discriminate Hs|by apply Hs].
Defined.

(** ** [core_environment] *)

Lemma app_string_cons (x : Ascii.ascii) (a b : string) :
  String x a +:+ b = String x (a +:+ b).
Proof. done. Qed.

Lemma app_string_nil (b : string) : "" +:+ b = b.
Proof. done. Qed.

Lemma strchr_app_None (a b : string) (c : Ascii.ascii) :
  strchr a c = None →
  strchr (a +:+ b) c = (λ n, String.length a + n)%nat <$> strchr b c.
Proof.
  induction a as [|x a IH].
  - intros _. rewrite app_string_nil. by destruct (strchr b c).
  - rewrite app_string_cons. cbn.
    destruct (Ascii.eqb x c); [done|].
    destruct (strchr a c) eqn:Ha; [done|]. intros _.
    rewrite IH by done. by destruct (strchr b c).
Qed.

Lemma strchr_blanks n : strchr (blanks n) "|" = None.
Proof. induction n as [|n IH]; [done|]. cbn. by rewrite IH. Qed.

Lemma string_from_app (a b : string) :
  string_from (String.length a) (a +:+ b) = b.
Proof.
  induction a as [|x a IH]; [by destruct b|].
  by rewrite app_string_cons.
Qed.

Lemma spaces_blanks (n : nat) (s : string) :
  spaces (blanks n +:+ s) = (n + spaces s)%nat.
Proof.
  induction n as [|n IH]; [done|].
  cbn [blanks]. rewrite app_string_cons. cbn. by rewrite IH.
Qed.

Lemma spaces_app_0 (a : string) (c : Ascii.ascii) (b : string) :
  spaces a = 0%nat → c ≠ " "%char → spaces (a +:+ String c b) = 0%nat.
Proof.
  destruct a as [|x a].
  - intros _ Hc. rewrite app_string_nil. cbn.
    by destruct (Ascii.eqb_spec c " ").
  - rewrite app_string_cons. cbn. by destruct (Ascii.eqb x " ").
Qed.

Lemma substring_app_r (a b : string) (n : nat) :
  String.substring (String.length a) n (a +:+ b) = String.substring 0 n b.
Proof.
  induction a as [|x a IH]; [done|]. by rewrite app_string_cons.
Qed.

Lemma substring_app_l (a b : string) :
  String.substring 0 (String.length a) (a +:+ b) = a.
Proof.
  induction a as [|x a IH]; [by destruct b|].
  rewrite app_string_cons. cbn. by rewrite IH.
Qed.

Lemma length_blanks n : String.length (blanks n) = n.
Proof. induction n; cbn; congruence. Qed.

Lemma length_app_string (a b : string) :
  String.length (a +:+ b) = (String.length a + String.length b)%nat.
Proof.
  induction a as [|x a IH]; [done|]. rewrite app_string_cons. cbn. congruence.
Qed.

Lemma app_string_assoc (a b c : string) : (a +:+ b) +:+ c = a +:+ (b +:+ c).
Proof.
  induction a as [|x a IH]; [done|]. rewrite !app_string_cons. congruence.
Qed.

(** The convention of libretro.h for the [value] of a variable, a
    description, a semicolon, spaces, and the choices separated by bars:
    the default setting is the first choice. *)
Lemma default_setting_first_choice (desc opt rest : string) (n : nat) :
  strchr desc ";" = None → strchr desc "|" = None →
  strchr opt "|" = None → spaces opt = 0%nat →
  default_setting (desc +:+ ";" +:+ blanks n +:+ opt +:+ "|" +:+ rest)
  = Some opt.
Proof.
  intros Hd1 Hd2 Ho Hsp.
  set (value := desc +:+ ";" +:+ blanks n +:+ opt +:+ "|" +:+ rest).
  assert (Hsemi : strchr value ";" = Some (String.length desc)).
  { unfold value. rewrite (strchr_app_None desc _ ";" Hd1).
    rewrite app_string_cons. cbn. f_equal. lia. }
  assert (Hpast : advance_past_space value (S (String.length desc))
                  = (String.length desc + 1 + n)%nat).
  { unfold advance_past_space, value.
    replace (S (String.length desc))
      with (String.length (desc +:+ ";")) by (rewrite length_app_string; cbn; lia).
    rewrite <- (app_string_assoc desc ";").
    rewrite string_from_app, spaces_blanks.
    rewrite (app_string_cons "|" "" rest), app_string_nil.
    rewrite spaces_app_0 by done.
    rewrite length_app_string. cbn. lia. }
  assert (Hbar : strchr value "|"
                 = Some (String.length desc + 1 + n + String.length opt)%nat).
  { unfold value. rewrite (strchr_app_None desc _ "|" Hd2).
    rewrite app_string_cons, app_string_nil. cbn [strchr].
    change (Ascii.eqb ";" "|") with false. cbv iota.
    rewrite (strchr_app_None (blanks n) _ "|" (strchr_blanks n)).
    rewrite (strchr_app_None opt _ "|" Ho).
    rewrite app_string_cons. cbn [strchr].
    change (Ascii.eqb "|" "|") with true. cbv iota.
    cbn. rewrite length_blanks. f_equal. lia. }
  unfold default_setting. rewrite Hsemi. cbn [mbind option_bind].
  rewrite Hpast, Hbar. cbn [mbind option_bind].
  destruct (decide _) as [_|Hn]; [|lia]. f_equal.
  replace (String.length desc + 1 + n + String.length opt
           - (String.length desc + 1 + n))%nat with (String.length opt) by lia.
  replace (String.length desc + 1 + n)%nat
    with (String.length ((desc +:+ ";") +:+ blanks n))
    by (rewrite !length_app_string, length_blanks; cbn; lia).
  unfold value.
  rewrite <- (app_string_assoc desc ";"), <- (app_string_assoc (desc +:+ ";")).
  rewrite substring_app_r. apply substring_app_l.
Qed.

Lemma set_variables_Some arr_var s s' :
  set_variables arr_var s = Some s' →
  (∀ i key value, arr_var !! i = Some (key, value) →
     (∀ j kv, (i < j)%nat → arr_var !! j = Some kv → kv.1 ≠ key) →
     s' !! key = default_setting value ∧ is_Some (default_setting value))
  ∧ (∀ key, (∀ kv, kv ∈ arr_var → kv.1 ≠ key) → s' !! key = s !! key).
Proof.
  revert s. induction arr_var as [|[k v] arr IH]; intros s; cbn.
  - intros [= ->]. split; [by intros i key value Hi|done].
  - destruct (default_setting v) as [d|] eqn:Hd; [|done]. cbn.
    intros Hset. destruct (IH _ Hset) as [IHlast IHother]. split.
    + intros [|i] key value Hi Hlater.
      * injection Hi as -> ->. rewrite Hd. split; [|done].
        rewrite IHother, lookup_insert_eq; [done|].
        intros kv Hkv. apply list_elem_of_lookup in Hkv as [j Hj].
        apply (Hlater (S j)); [lia|done].
      * apply (IHlast i); [done|]. intros j kv Hj Hkv.
        apply (Hlater (S j)); [lia|done].
    + intros key Hkey. rewrite IHother.
      * apply lookup_insert_ne. intros ->. by apply (Hkey (key, v)); [left|].
      * intros kv Hkv. apply Hkey. by right.
Qed.

Lemma set_variables_None arr_var s key value :
  (key, value) ∈ arr_var → default_setting value = None →
  set_variables arr_var s = None.
Proof.
  intros Hin Hnone. revert s.
  induction arr_var as [|[k v] arr IH]; intros s; [by apply elem_of_nil in Hin|].
  cbn. apply elem_of_cons in Hin as [[= <- <-]|Hin].
  - by rewrite Hnone.
  - destruct (default_setting v); [|done]. cbn. by apply IH.
Qed.

(** Variables round trip: after [RETRO_ENVIRONMENT_SET_VARIABLES], a
    variable declared as "description; first|second..." (spaces after the
    semicolon skipped) reads back, through
    [RETRO_ENVIRONMENT_GET_VARIABLE], as its first choice; of two entries
    with one key the later one counts. *)
Theorem SET_VARIABLES_then_GET_VARIABLE (arr_var : list (string * string))
  (e e' : environment) (r : bool) (w : env_reply) (i : nat)
  (key desc opt rest : string) (n : nat) :
  core_environment (RETRO_ENVIRONMENT_SET_VARIABLES arr_var) e
    = Some (r, w, e') →
  arr_var !! i
    = Some (key, desc +:+ ";" +:+ blanks n +:+ opt +:+ "|" +:+ rest) →
  strchr desc ";" = None → strchr desc "|" = None →
  strchr opt "|" = None → spaces opt = 0%nat →
  (∀ j kv, (i < j)%nat → arr_var !! j = Some kv → kv.1 ≠ key) →
  core_environment (RETRO_ENVIRONMENT_GET_VARIABLE key) e'
  = Some (true, variable_value opt, e').
Proof.
  intros Hset Hi Hd1 Hd2 Ho Hsp Hlast. cbn [core_environment] in Hset.
  destruct arr_var as [|kv arr]; [done|].
  destruct (set_variables (kv :: arr) (settings e)) as [s|] eqn:Hs; [|done].
  injection Hset as <- <- <-.
  destruct (set_variables_Some _ _ _ Hs) as [Hl _].
  destruct (Hl _ _ _ Hi Hlast) as [Hkey _].
  rewrite default_setting_first_choice in Hkey by done.
  cbn [core_environment settings with_settings]. by rewrite Hkey.
Qed.

(** The witness of [SET_VARIABLES_then_GET_VARIABLE]: the variable
    declared twice reads back as the first choice of its later entry. *)
Lemma SET_VARIABLES_then_GET_VARIABLE_witness :
  ∃ e', core_environment (RETRO_ENVIRONMENT_SET_VARIABLES example_variables)
                         example_environment = Some (true, nothing_written, e')
      ∧ core_environment (RETRO_ENVIRONMENT_GET_VARIABLE "region") e'
        = Some (true, variable_value "PAL", e').
Proof.
  destruct (core_environment (RETRO_ENVIRONMENT_SET_VARIABLES example_variables)
                             example_environment) as [[[r w] e']|] eqn:Hset;
    [|vm_compute in Hset; discriminate].
  exists e'.
  pose proof (SET_VARIABLES_then_GET_VARIABLE example_variables
                example_environment e' r w 2 "region" "Region" "PAL" "NTSC" 1
                Hset eq_refl eq_refl eq_refl eq_refl eq_refl) as Hget.
  split.
  - cbn in Hset. by injection Hset as <- <- <-.
  - apply Hget. intros j kv Hj Hkv.
    apply lookup_lt_Some in Hkv. cbn in Hkv. lia.
Defined.

(** A variable with a single choice, whose [value] holds no bar,
    makes [RETRO_ENVIRONMENT_SET_VARIABLES] undefined: [strchr] returns a
    null pointer and the length of the default setting is computed from
    it.  So does a [value] without a semicolon. *)
Theorem SET_VARIABLES_needs_both_delimiters (arr_var : list (string * string))
  (e : environment) (key value : string) :
  (key, value) ∈ arr_var →
  strchr value "|" = None ∨ strchr value ";" = None →
  core_environment (RETRO_ENVIRONMENT_SET_VARIABLES arr_var) e = None.
Proof.
  intros Hin Hvalue. cbn [core_environment].
  destruct arr_var as [|kv arr] eqn:Harr; [done|]. rewrite <- Harr in *.
  rewrite (set_variables_None arr_var (settings e) key value); [done|done|].
  unfold default_setting. destruct Hvalue as [-> | ->]; [|done].
  by destruct (strchr value ";").
Qed.

(** The witness of [SET_VARIABLES_needs_both_delimiters]: a variable
    with one choice. *)
Lemma SET_VARIABLES_needs_both_delimiters_witness :
  core_environment
    (RETRO_ENVIRONMENT_SET_VARIABLES
       [("overscan", "Crop overscan; enabled|disabled");
        ("bios", "BIOS; internal")])
    example_environment = None.
Proof.
  apply (SET_VARIABLES_needs_both_delimiters _ _ "bios" "BIOS; internal").
  - apply elem_of_cons. right. apply elem_of_cons. by left.
  - by left.
Defined.

(** [RETRO_ENVIRONMENT_SET_FRAME_TIME_CALLBACK] stores the callback
    and yet returns [false], the answer for a command that is not
    supported: the run loop calls the callback from its first iteration on,
    there with the [reference] scaled by [1000]. *)
Theorem frame_time_callback_stored_but_refused (e : environment)
  (reference : Z) (fps : float) (c : clocks) (frames start : Z) :
  ∃ e',
    core_environment
      (RETRO_ENVIRONMENT_SET_FRAME_TIME_CALLBACK
         (FrameTimeCallback true reference)) e
    = Some (false, nothing_written, e')
    ∧ settings e' = settings e ∧ g_video e' = g_video e
    ∧ head (run_loop_iteration fps c (run_loop_of e' 0 frames start)).1
      = Some (frame_time_callback (to_int64 (reference * 1000))).
Proof.
  eexists. split; [reflexivity|]. split; [done|]. split; [done|].
  unfold run_loop_iteration, run_loop_of, frame_time_step. cbn.
  by destruct (pacing_step _ _ _) as [[? ?] ?].
Qed.

(** ** [audio_write] *)

(** The loop enqueues the frames from [FramesEnqueued] on, in order, and
    stops after [todo] of them or when the queue has no room left. *)
Lemma audio_write_loop_spec (todo : nat) (buf : list Z) (k : nat) (q : audio_queue) :
  (k + todo ≤ length buf)%nat →
  let n := (todo `min` (queue_room q - length (queue_items q)))%nat in
  audio_write_loop todo buf k q =
    Some ((k + n)%nat,
          AudioQueue (queue_items q ++ take n (drop k buf)) (queue_room q)).
Proof.
  revert k q. induction todo as [|todo IH]; intros k q Hlen; cbn.
  - rewrite Nat.add_0_r, app_nil_r. by destruct q.
  - destruct (lookup_lt_is_Some_2 buf k) as [x Hx]; [lia|].
    rewrite Hx. cbn. unfold Enqueue.
    destruct (Nat.ltb_spec (length (queue_items q)) (queue_room q)) as [Hroom|Hfull].
    + rewrite IH by lia. cbn. rewrite length_app. cbn.
      destruct (queue_room q - length (queue_items q))%nat as [|m] eqn:Hfree;
        [lia|].
      replace (queue_room q - (length (queue_items q) + 1))%nat with m by lia.
      rewrite (drop_S _ _ _ Hx). cbn. rewrite <- app_assoc. cbn.
      do 2 f_equal. lia.
    + replace (queue_room q - length (queue_items q))%nat with 0%nat by lia.
      rewrite Nat.add_0_r. cbn. rewrite app_nil_r. by destruct q.
Qed.

(** C7, as the code has it.  While [running], [audio_write] enqueues the
    frames of [buf] one at a time, in order, until [frames] of them are in or
    the queue is full, and returns how many went in.  When not [running] it
    enqueues nothing and returns [frames]. *)
Theorem audio_write_running_or_not (ctx : audio_context) (buf : list Z) (frames : nat) :
  (frames ≤ length buf)%nat →
  (running ctx = true → is_Some (QueuedAudio ctx)) →
  ∃ r ctx', audio_write ctx buf frames = Some (r, ctx') ∧
    if running ctx then
      ∃ q n, QueuedAudio ctx = Some q ∧
        n = (frames `min` (queue_room q - length (queue_items q)))%nat ∧
        r = Z.of_nat n ∧
        r = frames_accepted ctx ctx' ∧
        ctx' = AudioContext true
                 (Some (AudioQueue (queue_items q ++ take n buf) (queue_room q)))
    else r = Z.of_nat frames ∧ ctx' = ctx ∧ frames_accepted ctx ctx' = 0.
Proof.
  intros Hlen Hq. unfold audio_write. destruct (running ctx) eqn:Hrun.
  - destruct (Hq eq_refl) as [q Hq']. rewrite Hq'. cbn.
    rewrite audio_write_loop_spec by (cbn; lia). cbn.
    eexists _, _. split; [reflexivity|].
    exists q, (frames `min` (queue_room q - length (queue_items q)))%nat.
    rewrite drop_0. repeat split.
    unfold frames_accepted. rewrite Hq'. cbn. rewrite length_app, length_take. lia.
  - eexists _, _. split; [reflexivity|]. repeat split.
    unfold frames_accepted. lia.
Qed.

(** The witness of [audio_write_running_or_not]: three frames offered to a
    running context whose queue has room for two more. *)
Lemma audio_write_running_or_not_witness :
  ∃ r ctx',
    audio_write (AudioContext true (Some (AudioQueue [5] 3))) [10; 20; 30] 3
      = Some (r, ctx') ∧
    ∃ q n, Some (AudioQueue [5] 3) = Some q ∧
      n = (3 `min` (queue_room q - length (queue_items q)))%nat ∧
      r = Z.of_nat n ∧
      r = frames_accepted (AudioContext true (Some (AudioQueue [5] 3))) ctx' ∧
      ctx' = AudioContext true
               (Some (AudioQueue (queue_items q ++ take n [10; 20; 30]) (queue_room q))).
Proof.
  apply (audio_write_running_or_not
           (AudioContext true (Some (AudioQueue [5] 3))) [10; 20; 30] 3).
  - cbn. lia.
  - intros _. cbn. eauto.
Defined.

(** C7 as stated fails: a context that is not [running] answers 3 to an
    offer of 3 frames and takes none of them. *)
Lemma audio_write_not_running_counterexample :
  ¬ (∀ ctx buf frames r ctx',
       audio_write ctx buf frames = Some (r, ctx') →
       r = frames_accepted ctx ctx').
Proof.
  intros H.
  specialize (H (AudioContext false (Some (AudioQueue [] 8))) [10; 20; 30] 3%nat
                3 (AudioContext false (Some (AudioQueue [] 8))) eq_refl).
  discriminate H.
Qed.

(** ** [core_audio_sample] *)

(** The two samples can be read back from the frame. *)
Lemma stereo_frame_halves (left right : Z) :
  - 2 ^ 15 ≤ left < 2 ^ 15 → - 2 ^ 15 ≤ right < 2 ^ 15 →
  to_int16 (stereo_frame left right) = left
  ∧ to_int16 (Z.shiftr (stereo_frame left right) 16) = right.
Proof.
  intros Hl Hr. unfold stereo_frame, to_int16, to_int32, to_uint16.
  rewrite Z.shiftr_div_pow2 by lia.
  change (2 ^ 15) with 32768 in *. change (2 ^ 16) with 65536.
  change (2 ^ 31) with 2147483648. change (2 ^ 32) with 4294967296.
  split; Z.div_mod_to_equations; lia.
Qed.

(** [core_audio_sample] hands the queue one frame that holds both
    samples, [left] in its low half and [right] in its high half; the frame
    is dropped, and nothing else happens, when the context is not running or
    the queue is full. *)
Theorem core_audio_sample_one_frame (ctx : audio_context) (q : audio_queue)
  (left right : Z) :
  QueuedAudio ctx = Some q →
  - 2 ^ 15 ≤ left < 2 ^ 15 → - 2 ^ 15 ≤ right < 2 ^ 15 →
  ∃ frame,
    to_int16 frame = left ∧ to_int16 (Z.shiftr frame 16) = right ∧
    core_audio_sample ctx left right
    = Some (AudioContext (running ctx)
              (Some (AudioQueue
                       (queue_items q
                        ++ (if running ctx
                               && (length (queue_items q) <? queue_room q)%nat
                            then [frame] else []))
                       (queue_room q)))).
Proof.
  intros Hq Hl Hr. exists (stereo_frame left right).
  destruct (stereo_frame_halves left right Hl Hr) as [Hlow Hhigh].
  split; [done|]. split; [done|].
  unfold core_audio_sample, audio_write. destruct ctx as [run queue].
  cbn in Hq. subst queue. destruct run; cbn -[Nat.ltb].
  - unfold Enqueue.
    destruct (length (queue_items q) <? queue_room q)%nat; cbn; [done|].
    rewrite app_nil_r. by destruct q.
  - rewrite app_nil_r. by destruct q.
Qed.

(** The witness of [core_audio_sample_one_frame]: a running context
    whose queue has room. *)
Lemma core_audio_sample_one_frame_witness :
  core_audio_sample (AudioContext true (Some (AudioQueue [5] 3))) (-2) 3
  = Some (AudioContext true (Some (AudioQueue [5; 262142] 3))).
Proof.
  destruct (core_audio_sample_one_frame
              (AudioContext true (Some (AudioQueue [5] 3))) (AudioQueue [5] 3)
              (-2) 3 eq_refl)
    as (frame & _ & _ & Hsample); [lia|lia|].
  reflexivity.
Defined.

(** ** [core_input_state] *)

(** C10: a nonzero port reads as 0 whatever the device, index and id, and on
    port 0 every device other than the analog stick and the joypad reads as
    0. *)
Theorem core_input_state_zero (inp : input_arrays) (port device index id : Z) :
  (port ≠ 0 → core_input_state inp port device index id = Some 0) ∧
  (port = 0 → device ≠ RETRO_DEVICE_ANALOG → device ≠ RETRO_DEVICE_JOYPAD →
   core_input_state inp port device index id = Some 0).
Proof.
  unfold core_input_state. split.
  - intros Hport. apply Z.eqb_neq in Hport. by rewrite Hport.
  - intros -> Han Hjoy. apply Z.eqb_neq in Han, Hjoy. cbn.
    by rewrite Han, Hjoy.
Qed.

(** The witness of [core_input_state_zero]: port 1 with the joypad, and port
    0 with device class 2 (the mouse). *)
Lemma core_input_state_zero_witness :
  core_input_state (InputArrays [[7; 8]] [1; 0]) 1 RETRO_DEVICE_JOYPAD 0 0 = Some 0 ∧
  core_input_state (InputArrays [[7; 8]] [1; 0]) 0 2 0 0 = Some 0.
Proof.
  split.
  - apply (proj1 (core_input_state_zero (InputArrays [[7; 8]] [1; 0])
                    1 RETRO_DEVICE_JOYPAD 0 0)).
    lia.
  - apply (proj2 (core_input_state_zero (InputArrays [[7; 8]] [1; 0]) 0 2 0 0));
      [reflexivity | unfold RETRO_DEVICE_ANALOG; lia
      | unfold RETRO_DEVICE_JOYPAD; lia].
Defined.

(** ** The instance bookkeeping *)

(** [FindFirstZeroBit] returns a clear bit below which every bit is set. *)
Lemma FindFirstZeroBit_Some (bits : list bool) (i : nat) :
  FindFirstZeroBit bits = Some i →
  bits !! i = Some false ∧ ∀ j, (j < i)%nat → bits !! j = Some true.
Proof.
  revert i. induction bits as [|b bits IH]; intros i; [done|].
  destruct b; cbn.
  - destruct (FindFirstZeroBit bits) as [k|]; [|done].
    intros [= <-]. destruct (IH k eq_refl) as [Hk Hlt]. split; [done|].
    intros [|j] Hj; [done|]. cbn. apply Hlt. lia.
  - intros [= <-]. split; [done|]. intros j Hj. lia.
Qed.

(** [FindFirstZeroBit] finds nothing exactly when every bit is set. *)
Lemma FindFirstZeroBit_None (bits : list bool) :
  FindFirstZeroBit bits = None ↔ ∀ j b, bits !! j = Some b → b = true.
Proof.
  induction bits as [|b bits IH]; [done|]. destruct b; cbn.
  - destruct (FindFirstZeroBit bits) as [k|]; cbn; split.
    + done.
    + intros H. destruct IH as [_ IH]. discriminate IH.
      intros j b Hj. apply (H (S j) b Hj).
    + intros _ [|j] b Hj; [by injection Hj|]. cbn in Hj.
      destruct IH as [IH _]. by apply (IH eq_refl j).
    + done.
  - split; [done|]. intros H. by specialize (H 0%nat false eq_refl).
Qed.

(** The [check] of [Allocate] fails only when both bit arrays are full: one
    full array alone is let through, with [INDEX_NONE] for its index. *)
Lemma Allocate_None (core : string) (st : instances) :
  Allocate core st = None ↔
  FindFirstZeroBit (core_bits core st) = None ∧
  FindFirstZeroBit (AllocatedInstances st) = None.
Proof.
  unfold Allocate, FindAndSetFirstZeroBit.
  destruct (FindFirstZeroBit (core_bits core st)) as [i|];
    destruct (FindFirstZeroBit (AllocatedInstances st)) as [j|]; cbn.
  - replace (Z.of_nat i =? INDEX_NONE) with false
      by (symmetry; apply Z.eqb_neq; unfold INDEX_NONE; lia).
    cbn. split; [done | by intros [? ?]].
  - replace (Z.of_nat i =? INDEX_NONE) with false
      by (symmetry; apply Z.eqb_neq; unfold INDEX_NONE; lia).
    cbn. split; [done | by intros [? ?]].
  - replace (Z.of_nat j =? INDEX_NONE) with false
      by (symmetry; apply Z.eqb_neq; unfold INDEX_NONE; lia).
    cbn. split; [done | by intros [? ?]].
  - done.
Qed.

(** C3, evaluated on the code.  With 50 runtimes of core a and 50 of core b
    live, all 100 bits of [AllocatedInstances] are set; the 101st launch (of
    core a) passes the [check] and is handed [INDEX_NONE] as its
    [InstanceNumber].  With 64 runtimes of one core live, the 65th launch of
    that core passes the [check] with [INDEX_NONE] as its
    [CoreInstanceNumber]. *)
Theorem Allocate_full_array_passes_check :
  (live_after (launches 50 "a" ++ launches 50 "b" ++ [Launched "a"]))
    ≫= (.!! 100%nat) = Some (Holder "a" INDEX_NONE 50) ∧
  (live_after (launches 64 "a" ++ [Launched "a"]))
    ≫= (.!! 64%nat) = Some (Holder "a" 64 INDEX_NONE).
Proof. split; vm_compute; reflexivity. Qed.

(** C4, evaluated on the code.  After 50 launches of core a and 50 of
    core b, a further launch of each is handed the same pair
    [(INDEX_NONE, 50)], and both runtimes are live with it. *)
Theorem Allocate_same_pair_twice :
  ∃ live h1 h2,
    live_after (launches 50 "a" ++ launches 50 "b"
                ++ [Launched "a"; Launched "b"]) = Some live ∧
    live !! 100%nat = Some h1 ∧ live !! 101%nat = Some h2 ∧
    (holder_InstanceNumber h1, holder_CoreInstanceNumber h1) = (INDEX_NONE, 50) ∧
    (holder_InstanceNumber h2, holder_CoreInstanceNumber h2) = (INDEX_NONE, 50).
Proof.
  eexists _, _, _. split; [vm_compute; reflexivity|].
  split; [reflexivity|]. split; [reflexivity|]. split; reflexivity.
Qed.

(** [FindAndSetFirstZeroBit] returns the lowest clear bit and sets it, or
    returns [INDEX_NONE] and changes nothing. *)
Lemma FindAndSetFirstZeroBit_spec (bits : list bool) :
  match FindAndSetFirstZeroBit bits with
  | (i, bits') =>
      (i = INDEX_NONE ∧ bits' = bits ∧ ∀ j b, bits !! j = Some b → b = true) ∨
      (∃ n, i = Z.of_nat n ∧ bits !! n = Some false ∧
            (∀ j, (j < n)%nat → bits !! j = Some true) ∧
            bits' = <[n := true]> bits)
  end.
Proof.
  unfold FindAndSetFirstZeroBit.
  destruct (FindFirstZeroBit bits) as [n|] eqn:Hn.
  - right. exists n. destruct (FindFirstZeroBit_Some bits n Hn). eauto.
  - left. split; [done|]. split; [done|]. by apply FindFirstZeroBit_None.
Qed.

(** When the [check] passes, [Allocate] has given, for each bit array that
    has a clear bit, its lowest clear bit, and has set it. *)
Lemma Allocate_lowest_clear_bits (core : string) (st st' : instances)
  (InstanceNumber CoreInstanceNumber : Z) :
  Allocate core st = Some (InstanceNumber, CoreInstanceNumber, st') →
  (InstanceNumber, AllocatedInstances st')
    = FindAndSetFirstZeroBit (AllocatedInstances st) ∧
  (CoreInstanceNumber, core_bits core st')
    = FindAndSetFirstZeroBit (core_bits core st) ∧
  ∀ other, other ≠ core →
    PerCoreAllocatedInstances st' !! other = PerCoreAllocatedInstances st !! other.
Proof.
  unfold Allocate.
  destruct (FindAndSetFirstZeroBit (core_bits core st)) as [c cbits].
  destruct (FindAndSetFirstZeroBit (AllocatedInstances st)) as [i gbits].
  destruct (negb (c =? INDEX_NONE) || negb (i =? INDEX_NONE)); [|done].
  intros [= <- <- <-]. unfold core_bits at 1. cbn. rewrite lookup_insert_eq. cbn.
  split; [done|]. split; [done|].
  intros other Hne. by rewrite lookup_insert_ne.
Qed.

(** [Release] clears the two bits, and nothing else. *)
Lemma Release_clears_two_bits (core : string) (st st' : instances)
  (InstanceNumber CoreInstanceNumber : Z) :
  Release core InstanceNumber CoreInstanceNumber st = Some st' →
  0 ≤ InstanceNumber ∧ 0 ≤ CoreInstanceNumber ∧
  AllocatedInstances st'
    = <[Z.to_nat InstanceNumber := false]> (AllocatedInstances st) ∧
  PerCoreAllocatedInstances st' !! core
    = Some (<[Z.to_nat CoreInstanceNumber := false]> (core_bits core st)) ∧
  ∀ other, other ≠ core →
    PerCoreAllocatedInstances st' !! other = PerCoreAllocatedInstances st !! other.
Proof.
  unfold Release, SetBit, core_bits.
  destruct ((0 <=? InstanceNumber) && _) eqn:Hi; [|done]. cbn.
  destruct (PerCoreAllocatedInstances st !! core) as [bits|]; [|done]. cbn.
  destruct ((0 <=? CoreInstanceNumber) && _) eqn:Hc; [|done]. cbn.
  intros [= <-]. cbn. rewrite lookup_insert_eq.
  apply andb_true_iff in Hi as [Hi _], Hc as [Hc _].
  apply Z.leb_le in Hi, Hc.
  repeat split; try done. intros other Hne. by rewrite lookup_insert_ne.
Qed.

(** Allocate, release, allocate: when an allocation got two indices, the
    release of these two and a new allocation for the same core give the
    same two indices, and the same bit arrays, again. *)
Lemma Allocate_Release_Allocate (core : string) (st st1 : instances)
  (InstanceNumber CoreInstanceNumber : Z) :
  Allocate core st = Some (InstanceNumber, CoreInstanceNumber, st1) →
  InstanceNumber ≠ INDEX_NONE → CoreInstanceNumber ≠ INDEX_NONE →
  ∃ st2, Release core InstanceNumber CoreInstanceNumber st1 = Some st2 ∧
         Allocate core st2 = Some (InstanceNumber, CoreInstanceNumber, st1).
Proof.
  intros Halloc Hi Hc. unfold Allocate in Halloc.
  pose proof (FindAndSetFirstZeroBit_spec (AllocatedInstances st)) as Hg.
  pose proof (FindAndSetFirstZeroBit_spec (core_bits core st)) as Hb.
  set (bits0 := core_bits core st) in *.
  destruct (FindAndSetFirstZeroBit bits0) as [c bits1] eqn:Hfc.
  destruct (FindAndSetFirstZeroBit (AllocatedInstances st)) as [i g1] eqn:Hfg.
  destruct (negb (c =? INDEX_NONE) || negb (i =? INDEX_NONE)) eqn:Hcheck; [|done].
  injection Halloc as <- <- <-.
  destruct Hg as [(-> & _)|(n & -> & Hn & _ & ->)]; [done|].
  destruct Hb as [(-> & _)|(m & -> & Hm & _ & ->)]; [done|].
  assert (Hgn : (n < length (AllocatedInstances st))%nat)
    by (apply lookup_lt_is_Some; eauto).
  assert (Hbm : (m < length bits0)%nat) by (apply lookup_lt_is_Some; eauto).
  eexists. split.
  - unfold Release, SetBit. cbn. rewrite !length_insert.
    replace ((0 <=? Z.of_nat n) && (Z.of_nat n <? Z.of_nat (length (AllocatedInstances st))))
      with true by (symmetry; apply andb_true_iff; split; [apply Z.leb_le | apply Z.ltb_lt]; lia).
    cbn. rewrite lookup_insert_eq. cbn. rewrite length_insert.
    replace ((0 <=? Z.of_nat m) && (Z.of_nat m <? Z.of_nat (length bits0)))
      with true by (symmetry; apply andb_true_iff; split; [apply Z.leb_le | apply Z.ltb_lt]; lia).
    cbn. rewrite !Nat2Z.id. rewrite !list_insert_insert_eq.
    rewrite (list_insert_id _ _ _ Hn), (list_insert_id _ _ _ Hm).
    rewrite insert_insert_eq. reflexivity.
  - unfold Allocate. unfold core_bits at 1. cbn. rewrite lookup_insert_eq. cbn.
    rewrite Hfc, Hfg, Hcheck. by rewrite insert_insert_eq.
Qed.

(** The invariant holds before any launch, and [Allocate] and [Release]
    keep it. *)
Lemma alloc_inv_init : alloc_inv no_instances [].
Proof. split; intros; by rewrite ?lookup_nil in *. Qed.

(** A bit that is set stays set when [FindAndSetFirstZeroBit] sets another,
    and the index returned is not one whose bit was set. *)
Lemma FindAndSetFirstZeroBit_keeps (bits bits' : list bool) (i : Z) (k : nat) :
  FindAndSetFirstZeroBit bits = (i, bits') →
  bits !! k = Some true →
  bits' !! k = Some true ∧ i ≠ Z.of_nat k.
Proof.
  intros Hf Hk. pose proof (FindAndSetFirstZeroBit_spec bits) as Hspec.
  rewrite Hf in Hspec.
  destruct Hspec as [(-> & -> & _)|(n & -> & Hn & _ & ->)].
  - split; [done|]. unfold INDEX_NONE. lia.
  - assert (n ≠ k) by congruence.
    split; [by rewrite list_lookup_insert_ne | lia].
Qed.

(** The bit of the index returned is set afterwards. *)
Lemma FindAndSetFirstZeroBit_sets (bits bits' : list bool) (i : Z) :
  FindAndSetFirstZeroBit bits = (i, bits') → i ≠ INDEX_NONE →
  0 ≤ i ∧ bits' !! Z.to_nat i = Some true.
Proof.
  intros Hf Hi. pose proof (FindAndSetFirstZeroBit_spec bits) as Hspec.
  rewrite Hf in Hspec.
  destruct Hspec as [(-> & _)|(n & -> & Hn & _ & ->)]; [done|].
  split; [lia|]. rewrite Nat2Z.id. apply list_lookup_insert_eq.
  apply lookup_lt_is_Some. eauto.
Qed.

Lemma alloc_inv_Allocate (core : string) (st st' : instances)
  (live : list holder) (i c : Z) :
  alloc_inv st live → Allocate core st = Some (i, c, st') →
  alloc_inv st' (live ++ [Holder core i c]).
Proof.
  intros [Hset Hown Hcset Hcown] Halloc.
  destruct (Allocate_lowest_clear_bits _ _ _ _ _ Halloc) as (Hg & Hb & Hother).
  symmetry in Hg, Hb.
  assert (Hcases : ∀ n h, (live ++ [Holder core i c]) !! n = Some h →
            live !! n = Some h ∨ (n = length live ∧ h = Holder core i c)).
  { intros n h [Hn|(Hge & Hn)]%lookup_app_Some; [by left|].
    apply list_lookup_singleton_Some in Hn as (Hn & <-). right. split; [lia|done]. }
  assert (Hold_core : ∀ n h, live !! n = Some h →
            holder_CoreInstanceNumber h ≠ INDEX_NONE →
            core_bits (holder_core h) st' !! Z.to_nat (holder_CoreInstanceNumber h)
              = Some true ∧
            (holder_core h = core → c ≠ holder_CoreInstanceNumber h)).
  { intros n h Hn Hv. destruct (Hcset n h Hn Hv) as [Hpos Hbit].
    destruct (decide (holder_core h = core)) as [Heq|Hne].
    - rewrite Heq in *.
      destruct (FindAndSetFirstZeroBit_keeps _ _ _ _ Hb Hbit) as [? Hc].
      split; [done|]. intros _. lia.
    - split; [|done]. unfold core_bits in *. by rewrite Hother. }
  split.
  - intros n h [Hn|[-> ->]]%Hcases Hv; cbn in *.
    + destruct (Hset n h Hn Hv) as [Hpos Hbit]. split; [done|].
      by destruct (FindAndSetFirstZeroBit_keeps _ _ _ _ Hg Hbit).
    + by apply (FindAndSetFirstZeroBit_sets _ _ _ Hg).
  - intros n m h1 h2 Hnm [Hn|[-> ->]]%Hcases [Hm|[-> ->]]%Hcases Hv; cbn in *.
    + by apply (Hown n m).
    + destruct (Hset n h1 Hn Hv) as [Hpos Hbit].
      destruct (FindAndSetFirstZeroBit_keeps _ _ _ _ Hg Hbit) as [_ Hi]. lia.
    + destruct (decide (holder_InstanceNumber h2 = INDEX_NONE)) as [->|Hv2];
        [done|].
      destruct (Hset m h2 Hm Hv2) as [Hpos Hbit].
      destruct (FindAndSetFirstZeroBit_keeps _ _ _ _ Hg Hbit) as [_ Hi]. lia.
    + done.
  - intros n h [Hn|[-> ->]]%Hcases Hv; cbn in *.
    + destruct (Hcset n h Hn Hv) as [Hpos _]. split; [done|].
      by destruct (Hold_core n h Hn Hv).
    + by apply (FindAndSetFirstZeroBit_sets _ _ _ Hb).
  - intros n m h1 h2 Hnm [Hn|[-> ->]]%Hcases [Hm|[-> ->]]%Hcases Hcore Hv;
      cbn in *.
    + by apply (Hcown n m).
    + destruct (Hold_core n h1 Hn Hv) as [_ Hc]. specialize (Hc Hcore). lia.
    + destruct (decide (holder_CoreInstanceNumber h2 = INDEX_NONE)) as [->|Hv2];
        [done|].
      destruct (Hold_core m h2 Hm Hv2) as [_ Hc]. by apply Hc.
    + done.
Qed.

(** The runtimes left when the [n0]-th has exited, by their old position. *)
Lemma live_delete_Some (live : list holder) (n0 n : nat) (h : holder) :
  delete n0 live !! n = Some h →
  ∃ n', n' ≠ n0 ∧ live !! n' = Some h ∧
        n' = (if decide (n < n0)%nat then n else S n).
Proof.
  intros Hn. case_decide as Hlt.
  - rewrite list_lookup_delete_lt in Hn by done. exists n. split; [lia|done].
  - rewrite list_lookup_delete_ge in Hn by lia. exists (S n). split; [lia|done].
Qed.

Lemma alloc_inv_Release (st st' : instances) (live : list holder) (n0 : nat)
  (h0 : holder) :
  alloc_inv st live → live !! n0 = Some h0 →
  Release (holder_core h0) (holder_InstanceNumber h0)
          (holder_CoreInstanceNumber h0) st = Some st' →
  alloc_inv st' (delete n0 live).
Proof.
  intros [Hset Hown Hcset Hcown] Hh0 Hrel.
  destruct (Release_clears_two_bits _ _ _ _ _ Hrel)
    as (Hi0 & Hc0 & Hg & Hb & Hother).
  assert (Hv0 : holder_InstanceNumber h0 ≠ INDEX_NONE) by (unfold INDEX_NONE; lia).
  assert (Hcv0 : holder_CoreInstanceNumber h0 ≠ INDEX_NONE)
    by (unfold INDEX_NONE; lia).
  split.
  - intros n h (n' & Hne & Hn & _)%live_delete_Some Hv.
    destruct (Hset n' h Hn Hv) as [Hpos Hbit]. split; [done|].
    rewrite Hg. rewrite list_lookup_insert_ne; [done|].
    intros Heq. apply (Hown n' n0 h h0 Hne Hn Hh0 Hv). lia.
  - intros n m h1 h2 Hnm (n' & _ & Hn & Hn')%live_delete_Some
      (m' & _ & Hm & Hm')%live_delete_Some Hv.
    apply (Hown n' m' h1 h2); try done.
    subst n' m'. repeat case_decide; lia.
  - intros n h (n' & Hne & Hn & _)%live_delete_Some Hv.
    destruct (Hcset n' h Hn Hv) as [Hpos Hbit]. split; [done|].
    destruct (decide (holder_core h = holder_core h0)) as [Heq|Hnc].
    + unfold core_bits at 1. rewrite Heq, Hb. cbn.
      rewrite list_lookup_insert_ne; [by rewrite <- Heq|].
      intros Hidx. apply (Hcown n' n0 h h0 Hne Hn Hh0 Heq Hv). lia.
    + unfold core_bits in *. by rewrite Hother.
  - intros n m h1 h2 Hnm (n' & _ & Hn & Hn')%live_delete_Some
      (m' & _ & Hm & Hm')%live_delete_Some Hcore Hv.
    apply (Hcown n' m' h1 h2); try done.
    subst n' m'. repeat case_decide; lia.
Qed.

(** Every sequence of launches and exits keeps the invariant. *)
Lemma alloc_inv_run (evs : list alloc_event) (st st' : instances)
  (live live' : list holder) :
  alloc_inv st live → alloc_run evs (st, live) = Some (st', live') →
  alloc_inv st' live'.
Proof.
  revert st live. induction evs as [|ev evs IH]; intros st live Hinv.
  - by intros [= <- <-].
  - change (alloc_run (ev :: evs) (st, live))
      with (alloc_step ev (st, live) ≫= alloc_run evs).
    destruct (alloc_step ev (st, live)) as [[st1 live1]|] eqn:Hstep; [|done].
    cbn. apply IH. destruct ev as [core|n]; cbn in Hstep.
    + destruct (Allocate core st) as [[[i c] st2]|] eqn:Halloc; [|done].
      cbn in Hstep. injection Hstep as <- <-.
      by apply (alloc_inv_Allocate core st).
    + destruct (live !! n) as [h|] eqn:Hn; [|done]. cbn in Hstep.
      destruct (Release _ _ _ st) as [st2|] eqn:Hrel; [|done].
      cbn in Hstep. injection Hstep as <- <-.
      by apply (alloc_inv_Release st st2 live n h).
Qed.

(** Whatever has been launched and has exited: two live runtimes never
    hold the same [InstanceNumber], and two live runtimes of one core never
    hold the same [CoreInstanceNumber], unless it is [INDEX_NONE]. *)
Theorem live_indices_not_shared (evs : list alloc_event) (live : list holder)
  (n m : nat) (h1 h2 : holder) :
  live_after evs = Some live →
  n ≠ m → live !! n = Some h1 → live !! m = Some h2 →
  (holder_InstanceNumber h1 ≠ INDEX_NONE →
   holder_InstanceNumber h1 ≠ holder_InstanceNumber h2) ∧
  (holder_core h1 = holder_core h2 →
   holder_CoreInstanceNumber h1 ≠ INDEX_NONE →
   holder_CoreInstanceNumber h1 ≠ holder_CoreInstanceNumber h2).
Proof.
  unfold live_after. intros Hrun Hnm Hn Hm.
  destruct (alloc_run evs (no_instances, [])) as [[st live']|] eqn:Hr; [|done].
  injection Hrun as ->.
  destruct (alloc_inv_run _ _ _ _ _ alloc_inv_init Hr) as [_ Hown _ Hcown].
  split; [by apply (Hown n m) | by apply (Hcown n m)].
Qed.

(** The witness of [live_indices_not_shared]: a core is launched, another is
    launched, the first exits, and its core is launched again. *)
Lemma live_indices_not_shared_witness :
  live_after [Launched "a"; Launched "b"; Exited 0; Launched "a"]
    = Some [Holder "b" 1 0; Holder "a" 0 0] ∧
  holder_InstanceNumber (Holder "b" 1 0) ≠ holder_InstanceNumber (Holder "a" 0 0).
Proof.
  assert (Hlive : live_after [Launched "a"; Launched "b"; Exited 0; Launched "a"]
                  = Some [Holder "b" 1 0; Holder "a" 0 0])
    by (vm_compute; reflexivity).
  split; [exact Hlive|].
  apply (proj1 (live_indices_not_shared _ _ 0%nat 1%nat _ _ Hlive
                  (O_S 0) eq_refl eq_refl)).
  cbn. unfold INDEX_NONE. lia.
Defined.

(** The witness of [Allocate_Release_Allocate]: the first launch of a core
    in a process that has launched nothing. *)
Lemma Allocate_Release_Allocate_witness :
  ∃ st1 st2,
    Allocate "a" no_instances = Some (0, 0, st1) ∧
    Release "a" 0 0 st1 = Some st2 ∧
    Allocate "a" st2 = Some (0, 0, st1).
Proof.
  destruct (Allocate "a" no_instances) as [[[i c] st1]|] eqn:Halloc;
    [|vm_compute in Halloc; discriminate Halloc].
  assert (i = 0 ∧ c = 0) as [-> ->]
    by (vm_compute in Halloc; injection Halloc as <- <- _; done).
  destruct (Allocate_Release_Allocate "a" no_instances st1 0 0 Halloc)
    as (st2 & Hrel & Hagain); [unfold INDEX_NONE; lia .. |].
  exists st1, st2. done.
Defined.

(** *** Indices are not leaked *)

Lemma bits_inv_init : bits_inv no_instances [].
Proof.
  assert (Hcore : ∀ core,
    core_bits core no_instances = replicate MAX_INSTANCES_PER_CORE false).
  { intros core. unfold core_bits, no_instances.
    cbn [PerCoreAllocatedInstances]. by rewrite lookup_empty. }
  split.
  - intros k Hk. change (replicate MAX_INSTANCES false !! k = Some true) in Hk.
    apply lookup_replicate in Hk as [? _]. done.
  - intros core k Hk. rewrite Hcore in Hk.
    apply lookup_replicate in Hk as [? _]. done.
  - change (length (replicate MAX_INSTANCES false) = MAX_INSTANCES).
    apply length_replicate.
  - intros core. rewrite Hcore. apply length_replicate.
Qed.

Lemma FindAndSetFirstZeroBit_length (bits bits' : list bool) (i : Z) :
  FindAndSetFirstZeroBit bits = (i, bits') → length bits' = length bits.
Proof.
  intros Hf. pose proof (FindAndSetFirstZeroBit_spec bits) as Hspec.
  rewrite Hf in Hspec.
  destruct Hspec as [(_ & -> & _)|(n & _ & _ & _ & ->)];
    [done|by rewrite length_insert].
Qed.

(** A bit that is set after [FindAndSetFirstZeroBit] was set before, or is
    the bit of the index returned. *)
Lemma FindAndSetFirstZeroBit_set (bits bits' : list bool) (i : Z) (k : nat) :
  FindAndSetFirstZeroBit bits = (i, bits') → bits' !! k = Some true →
  bits !! k = Some true ∨ i = Z.of_nat k.
Proof.
  intros Hf Hk. pose proof (FindAndSetFirstZeroBit_spec bits) as Hspec.
  rewrite Hf in Hspec.
  destruct Hspec as [(_ & -> & _)|(n & -> & _ & _ & ->)]; [by left|].
  destruct (decide (n = k)) as [->|Hne]; [by right|].
  left. by rewrite list_lookup_insert_ne in Hk.
Qed.

Lemma bits_inv_Allocate (core : string) (st st' : instances)
  (live : list holder) (i c : Z) :
  bits_inv st live → Allocate core st = Some (i, c, st') →
  bits_inv st' (live ++ [Holder core i c]).
Proof.
  intros [Hheld Hcheld Hlen Hclen] Halloc.
  destruct (Allocate_lowest_clear_bits _ _ _ _ _ Halloc) as (Hg & Hb & Hother).
  symmetry in Hg, Hb.
  assert (Hcore : ∀ other, other ≠ core → core_bits other st' = core_bits other st).
  { intros other Hne. unfold core_bits. by rewrite Hother. }
  split.
  - intros k Hk.
    destruct (FindAndSetFirstZeroBit_set _ _ _ _ Hg Hk) as [Hold| ->].
    + destruct (Hheld k Hold) as (n & h & Hn & Hi).
      exists n, h. split; [|done]. by apply lookup_app_l_Some.
    + exists (length live), (Holder core (Z.of_nat k) c).
      split; [|done]. by rewrite lookup_app_r, Nat.sub_diag by lia.
  - intros core' k Hk. destruct (decide (core' = core)) as [->|Hne].
    + destruct (FindAndSetFirstZeroBit_set _ _ _ _ Hb Hk) as [Hold| ->].
      * destruct (Hcheld core k Hold) as (n & h & Hn & Hc & Hi).
        exists n, h. split; [|done]. by apply lookup_app_l_Some.
      * exists (length live), (Holder core i (Z.of_nat k)).
        split; [|done]. by rewrite lookup_app_r, Nat.sub_diag by lia.
    + rewrite (Hcore core' Hne) in Hk.
      destruct (Hcheld core' k Hk) as (n & h & Hn & Hc & Hi).
      exists n, h. split; [|done]. by apply lookup_app_l_Some.
  - by rewrite (FindAndSetFirstZeroBit_length _ _ _ Hg).
  - intros core'. destruct (decide (core' = core)) as [->|Hne].
    + by rewrite (FindAndSetFirstZeroBit_length _ _ _ Hb).
    + by rewrite (Hcore core' Hne).
Qed.

Lemma bits_inv_Release (st st' : instances) (live : list holder) (n0 : nat)
  (h0 : holder) :
  bits_inv st live → live !! n0 = Some h0 →
  Release (holder_core h0) (holder_InstanceNumber h0)
          (holder_CoreInstanceNumber h0) st = Some st' →
  bits_inv st' (delete n0 live).
Proof.
  intros [Hheld Hcheld Hlen Hclen] Hh0 Hrel.
  destruct (Release_clears_two_bits _ _ _ _ _ Hrel)
    as (Hi0 & Hc0 & Hg & Hb & Hother).
  assert (Hcore : ∀ other, other ≠ holder_core h0 →
            core_bits other st' = core_bits other st).
  { intros other Hne. unfold core_bits. by rewrite Hother. }
  assert (Hkept : ∀ n h, live !! n = Some h → n ≠ n0 →
            ∃ n', delete n0 live !! n' = Some h).
  { intros n h Hn Hne. destruct (decide (n < n0)%nat).
    - exists n. by rewrite list_lookup_delete_lt.
    - exists (n - 1)%nat. rewrite list_lookup_delete_ge by lia.
      by replace (S (n - 1)) with n by lia. }
  assert (Hcleared : ∀ (bits : list bool) (j k : nat),
            <[j := false]> bits !! k = Some true →
            k ≠ j ∧ bits !! k = Some true).
  { intros bits j k Hk. destruct (decide (k = j)) as [->|Hne].
    - apply lookup_lt_Some in Hk as Hlt. rewrite length_insert in Hlt.
      by rewrite list_lookup_insert_eq in Hk.
    - by rewrite list_lookup_insert_ne in Hk. }
  split.
  - intros k Hk. rewrite Hg in Hk. apply Hcleared in Hk as [Hne Hk].
    destruct (Hheld k Hk) as (n & h & Hn & Hi).
    destruct (Hkept n h Hn) as [n' Hn']; [|by exists n', h].
    intros ->. rewrite Hh0 in Hn. injection Hn as <-. lia.
  - intros core k Hk.
    destruct (decide (core = holder_core h0)) as [->|Hnc].
    + unfold core_bits at 1 in Hk. rewrite Hb in Hk. cbn in Hk.
      apply Hcleared in Hk as [Hne Hk].
      destruct (Hcheld _ k Hk) as (n & h & Hn & Hc & Hi).
      destruct (Hkept n h Hn) as [n' Hn']; [|by exists n', h].
      intros ->. rewrite Hh0 in Hn. injection Hn as <-. lia.
    + rewrite (Hcore core Hnc) in Hk.
      destruct (Hcheld core k Hk) as (n & h & Hn & Hc & Hi).
      destruct (Hkept n h Hn) as [n' Hn']; [|by exists n', h].
      intros ->. rewrite Hh0 in Hn. injection Hn as <-. done.
  - by rewrite Hg, length_insert.
  - intros core. destruct (decide (core = holder_core h0)) as [->|Hnc].
    + unfold core_bits at 1. rewrite Hb. cbn. by rewrite length_insert.
    + by rewrite (Hcore core Hnc).
Qed.

Lemma bits_inv_run (evs : list alloc_event) (st st' : instances)
  (live live' : list holder) :
  bits_inv st live → alloc_run evs (st, live) = Some (st', live') →
  bits_inv st' live'.
Proof.
  revert st live. induction evs as [|ev evs IH]; intros st live Hinv.
  - by intros [= <- <-].
  - change (alloc_run (ev :: evs) (st, live))
      with (alloc_step ev (st, live) ≫= alloc_run evs).
    destruct (alloc_step ev (st, live)) as [[st1 live1]|] eqn:Hstep; [|done].
    cbn. apply IH. destruct ev as [core|n]; cbn in Hstep.
    + destruct (Allocate core st) as [[[i c] st2]|] eqn:Halloc; [|done].
      cbn in Hstep. injection Hstep as <- <-.
      by apply (bits_inv_Allocate core st).
    + destruct (live !! n) as [h|] eqn:Hn; [|done]. cbn in Hstep.
      destruct (Release _ _ _ st) as [st2|] eqn:Hrel; [|done].
      cbn in Hstep. injection Hstep as <- <-.
      by apply (bits_inv_Release st st2 live n h).
Qed.

(** A bit array with more bits than there are holders has a clear bit. *)
Lemma clear_bit_exists (bits : list bool) (held : list Z) :
  (∀ k, bits !! k = Some true → Z.of_nat k ∈ held) →
  (length held < length bits)%nat →
  is_Some (FindFirstZeroBit bits).
Proof.
  intros Hheld Hlt.
  destruct (FindFirstZeroBit bits) as [n|] eqn:Hfind; [done|].
  exfalso. pose proof (proj1 (FindFirstZeroBit_None bits) Hfind) as Hall.
  assert (Hsub : Z.of_nat <$> seq 0 (length bits) ⊆+ held).
  { apply NoDup_submseteq.
    - apply (NoDup_fmap_2 _), NoDup_seq.
    - intros x (k & -> & Hk)%list_elem_of_fmap.
      apply elem_of_seq in Hk. apply Hheld.
      destruct (lookup_lt_is_Some_2 bits k) as [b Hb]; [lia|].
      by rewrite Hb, (Hall k b Hb). }
  apply submseteq_length in Hsub.
  rewrite length_fmap, length_seq in Hsub. lia.
Qed.

(** Nothing is leaked: whatever has been launched and has exited, a launch
    gets two indices, neither of them [INDEX_NONE], as long as fewer than
    [MAX_INSTANCES] runtimes are live and fewer than
    [MAX_INSTANCES_PER_CORE] of them are of its core. *)
Theorem Allocate_below_capacity (evs : list alloc_event) (st : instances)
  (live : list holder) (core : string) :
  alloc_run evs (no_instances, []) = Some (st, live) →
  (length live < MAX_INSTANCES)%nat →
  (length (filter (λ h, holder_core h = core) live) < MAX_INSTANCES_PER_CORE)%nat →
  ∃ InstanceNumber CoreInstanceNumber st',
    Allocate core st = Some (InstanceNumber, CoreInstanceNumber, st')
    ∧ InstanceNumber ≠ INDEX_NONE ∧ CoreInstanceNumber ≠ INDEX_NONE.
Proof.
  intros Hrun Hlive Hcore.
  destruct (bits_inv_run _ _ _ _ _ bits_inv_init Hrun)
    as [Hheld Hcheld Hlen Hclen].
  destruct (clear_bit_exists (AllocatedInstances st)
              (holder_InstanceNumber <$> live)) as [i Hi].
  { intros k Hk. destruct (Hheld k Hk) as (n & h & Hn & <-).
    apply list_elem_of_fmap. exists h. split; [done|].
    by apply list_elem_of_lookup_2 with n. }
  { by rewrite length_fmap, Hlen. }
  destruct (clear_bit_exists (core_bits core st)
              (holder_CoreInstanceNumber
                 <$> filter (λ h, holder_core h = core) live)) as [c Hc].
  { intros k Hk. destruct (Hcheld core k Hk) as (n & h & Hn & Hhc & <-).
    apply list_elem_of_fmap. exists h. split; [done|].
    apply list_elem_of_filter. split; [done|].
    by apply list_elem_of_lookup_2 with n. }
  { by rewrite length_fmap, Hclen. }
  unfold Allocate, FindAndSetFirstZeroBit. rewrite Hi, Hc.
  assert ((Z.of_nat c =? INDEX_NONE) = false) as ->
    by (apply Z.eqb_neq; unfold INDEX_NONE; lia).
  cbn. eexists _, _, _. split; [done|]. unfold INDEX_NONE. lia.
Qed.

(** The witness of [Allocate_below_capacity]: two cores are launched and
    the first exits. *)
Lemma Allocate_below_capacity_witness :
  ∃ InstanceNumber CoreInstanceNumber st',
    (alloc_run [Launched "a"; Launched "b"; Exited 0] (no_instances, [])
       ≫= (λ s, Allocate "b" s.1))
    = Some (InstanceNumber, CoreInstanceNumber, st')
    ∧ InstanceNumber ≠ INDEX_NONE ∧ CoreInstanceNumber ≠ INDEX_NONE.
Proof.
  destruct (alloc_run [Launched "a"; Launched "b"; Exited 0]
                      (no_instances, [])) as [[st live]|] eqn:Hrun;
    [|vm_compute in Hrun; discriminate].
  cbn [mbind option_bind fst].
  apply (Allocate_below_capacity _ st live "b" Hrun).
  - vm_compute in Hrun. injection Hrun as _ <-. vm_compute. lia.
  - vm_compute in Hrun. injection Hrun as _ <-. vm_compute. lia.
Defined.

(** *** The table of callbacks *)

Lemma Allocate_length (core : string) (st st' : instances) (i c : Z) :
  Allocate core st = Some (i, c, st') →
  length (AllocatedInstances st') = length (AllocatedInstances st).
Proof.
  intros Halloc.
  destruct (Allocate_lowest_clear_bits _ _ _ _ _ Halloc) as (Hg & _).
  pose proof (FindAndSetFirstZeroBit_spec (AllocatedInstances st)) as Hspec.
  rewrite <- Hg in Hspec.
  destruct Hspec as [(_ & -> & _)|(n & _ & _ & _ & ->)];
    [done|by rewrite length_insert].
Qed.

Lemma Release_length (core : string) (st st' : instances) (i c : Z) :
  Release core i c st = Some st' →
  length (AllocatedInstances st') = length (AllocatedInstances st).
Proof.
  intros Hrel.
  destruct (Release_clears_two_bits _ _ _ _ _ Hrel) as (_ & _ & -> & _).
  by rewrite length_insert.
Qed.

Lemma process_inv_start : process_inv process_start.
Proof.
  split; cbn; try done; apply alloc_inv_init.
Qed.

Lemma process_inv_step (ev : process_event) (p p' : process) :
  process_inv p → process_step ev p = Some p' → process_inv p'.
Proof.
  intros [Halloc Hbits Htable Hnum Hthis Hbound] Hstep.
  destruct ev as [core|n|n]; cbn in Hstep.
  - destruct (Allocate core (process_instances p)) as [[[i c] st']|] eqn:Ha;
      [|done].
    cbn in Hstep. injection Hstep as <-.
    assert (Hcases : ∀ k r,
      (process_runtimes p ++ [Runtime (process_contexts p) (Holder core i c) false])
        !! k = Some r →
      process_runtimes p !! k = Some r
      ∨ r = Runtime (process_contexts p) (Holder core i c) false).
    { intros k r [Hk|(_ & Hk)]%lookup_app_Some; [by left|].
      apply list_lookup_singleton_Some in Hk as (_ & <-). by right. }
    split; cbn.
    + rewrite fmap_app. by apply (alloc_inv_Allocate core (process_instances p)).
    + by rewrite (Allocate_length _ _ _ _ _ Ha).
    + done.
    + intros k r [Hk| ->]%Hcases; [|cbn; lia].
      specialize (Hnum k r Hk). lia.
    + intros k m r1 r2 Hkm Hk Hm.
      apply lookup_app_Some in Hk as [Hk'|(Hge & Hk')];
        apply lookup_app_Some in Hm as [Hm'|(Hge' & Hm')].
      * by apply (Hthis k m).
      * apply list_lookup_singleton_Some in Hm' as (_ & <-). cbn.
        specialize (Hnum k r1 Hk'). lia.
      * apply list_lookup_singleton_Some in Hk' as (_ & <-). cbn.
        specialize (Hnum m r2 Hm'). lia.
      * apply list_lookup_singleton_Some in Hk' as (Hk0 & _).
        apply list_lookup_singleton_Some in Hm' as (Hm0 & _). lia.
    + intros k r [Hk| ->]%Hcases Hb; [by apply (Hbound k)|done].
  - destruct (process_runtimes p !! n) as [r|] eqn:Hn; [|done]. cbn in Hstep.
    destruct ((0 <=? _) && _) eqn:Hrange; [|done]. injection Hstep as <-.
    apply andb_true_iff in Hrange as [Hpos Hlt].
    apply Z.leb_le in Hpos. apply Z.ltb_lt in Hlt.
    set (r' := Runtime (runtime_this r) (runtime_holder r) true).
    assert (Hcases : ∀ k x, <[n := r']> (process_runtimes p) !! k = Some x →
      (k = n ∧ x = r') ∨ (k ≠ n ∧ process_runtimes p !! k = Some x)).
    { intros k x Hk. destruct (decide (k = n)) as [->|Hne].
      - left. split; [done|].
        rewrite list_lookup_insert_eq in Hk by (by eapply lookup_lt_Some).
        by injection Hk.
      - right. by rewrite list_lookup_insert_ne in Hk. }
    split; cbn.
    + rewrite list_fmap_insert. cbn.
      rewrite list_insert_id; [done|]. by rewrite list_lookup_fmap, Hn.
    + done.
    + by rewrite length_insert.
    + intros k x [[-> ->]|[_ Hk]]%Hcases; [by apply (Hnum n r)|by apply (Hnum k)].
    + intros k m x1 x2 Hkm [[-> ->]|[Hk1 Hk]]%Hcases [[-> ->]|[Hm1 Hm]]%Hcases;
        cbn; try done.
      * by apply (Hthis n m r x2).
      * by apply (Hthis k n x1 r).
      * by apply (Hthis k m).
    + intros k x [[-> ->]|[Hkn Hk]]%Hcases Hb; cbn.
      * split; [done|]. apply list_lookup_insert_eq. lia.
      * destruct (Hbound k x Hk Hb) as [Hx Hentry]. split; [done|].
        rewrite list_lookup_insert_ne; [done|].
        destruct Halloc as [_ Hown _ _].
        assert (holder_InstanceNumber (runtime_holder x)
                ≠ holder_InstanceNumber (runtime_holder r)); [|lia].
        apply (Hown k n); [done| | |unfold INDEX_NONE; lia].
        -- by rewrite list_lookup_fmap, Hk.
        -- by rewrite list_lookup_fmap, Hn.
  - destruct (process_runtimes p !! n) as [r|] eqn:Hn; [|done]. cbn in Hstep.
    destruct (Release _ _ _ _) as [st'|] eqn:Hrel; [|done].
    cbn in Hstep. injection Hstep as <-.
    assert (Hcases : ∀ k x, delete n (process_runtimes p) !! k = Some x →
      ∃ k', process_runtimes p !! k' = Some x
            ∧ k' = (if decide (k < n)%nat then k else S k)).
    { intros k x Hk. case_decide.
      - rewrite list_lookup_delete_lt in Hk by done. eauto.
      - rewrite list_lookup_delete_ge in Hk by lia. eauto. }
    split; cbn.
    + rewrite list_fmap_delete.
      apply (alloc_inv_Release (process_instances p) st' _ n (runtime_holder r));
        [done| |done].
      by rewrite list_lookup_fmap, Hn.
    + by rewrite (Release_length _ _ _ _ _ Hrel).
    + done.
    + intros k x (k' & Hk & _)%Hcases. by apply (Hnum k').
    + intros k m x1 x2 Hkm (k' & Hk & Hk')%Hcases (m' & Hm & Hm')%Hcases.
      apply (Hthis k' m'); [|done|done].
      subst k' m'. repeat case_decide; lia.
    + intros k x (k' & Hk & _)%Hcases Hb. by apply (Hbound k').
Qed.

Lemma process_inv_run (evs : list process_event) (p p' : process) :
  process_inv p → process_run evs p = Some p' → process_inv p'.
Proof.
  revert p. induction evs as [|ev evs IH]; intros p Hinv; cbn.
  - by intros [= <-].
  - destruct (process_step ev p) as [p1|] eqn:Hstep; [|done]. cbn.
    apply IH. by apply (process_inv_step ev p).
Qed.

(** The callbacks of a core reach the runtime that loaded it: whatever
    the threads of the process have allocated, bound and released, the entry
    of [func_wrap_table] at the [InstanceNumber] of a live runtime whose
    [core_load] has bound its callbacks holds that runtime's context, and no
    other live runtime is that context. *)
Theorem callbacks_reach_their_runtime (evs : list process_event) (p : process)
  (n : nat) (r : runtime) :
  process_run evs process_start = Some p →
  process_runtimes p !! n = Some r → runtime_bound r = true →
  func_wrap_table p !! Z.to_nat (holder_InstanceNumber (runtime_holder r))
    = Some (Some (runtime_this r))
  ∧ ∀ m r', m ≠ n → process_runtimes p !! m = Some r' →
      runtime_this r' ≠ runtime_this r.
Proof.
  intros Hrun Hn Hb.
  destruct (process_inv_run _ _ _ process_inv_start Hrun)
    as [_ _ _ _ Hthis Hbound].
  split; [by apply (Hbound n)|].
  intros m r' Hmn Hm. by apply (Hthis m n).
Qed.

(** The witness of [callbacks_reach_their_runtime]: a runtime exits and
    the next one of its core takes over its entry of the table. *)
Lemma callbacks_reach_their_runtime_witness :
  ∃ p, process_run [thread_allocates "a"; thread_allocates "b";
                    thread_binds 0; thread_releases 0;
                    thread_allocates "a"; thread_binds 0; thread_binds 1]
                   process_start = Some p
       ∧ func_wrap_table p !! 0%nat = Some (Some 2%nat).
Proof.
  destruct (process_run [thread_allocates "a"; thread_allocates "b";
                         thread_binds 0; thread_releases 0;
                         thread_allocates "a"; thread_binds 0; thread_binds 1]
                        process_start) as [p|] eqn:Hrun;
    [|vm_compute in Hrun; discriminate].
  exists p. split; [done|].
  pose proof (callbacks_reach_their_runtime _ p 1%nat
                (Runtime 2 (Holder "a" 0 0) true) Hrun) as H.
  vm_compute in Hrun. injection Hrun as <-.
  exact (proj1 (H eq_refl eq_refl)).
Defined.

(** A runtime whose [InstanceNumber] is an index, not [INDEX_NONE], can
    bind its callbacks: the index is inside the table. *)
Lemma thread_binds_in_range (p : process) (n : nat) (r : runtime) :
  process_inv p → process_runtimes p !! n = Some r →
  holder_InstanceNumber (runtime_holder r) ≠ INDEX_NONE →
  is_Some (process_step (thread_binds n) p).
Proof.
  intros [[Hset _ _ _] Hbits Htable _ _ _] Hn Hi. cbn. rewrite Hn. cbn.
  destruct (Hset n (runtime_holder r)) as [Hpos Hbit];
    [by rewrite list_lookup_fmap, Hn|done|].
  apply lookup_lt_Some in Hbit. rewrite Hbits, <- Htable in Hbit.
  destruct (Z.leb_spec 0 (holder_InstanceNumber (runtime_holder r))); [|lia].
  destruct (Z.ltb_spec (holder_InstanceNumber (runtime_holder r))
                       (Z.of_nat (length (func_wrap_table p)))); [|lia].
  done.
Qed.

(** Binding is defined for the runtimes that got an [InstanceNumber], and
    only for them: in every state the process can reach, the write of
    [core_load] through [callback_instance] is inside [func_wrap_table]
    exactly when the [InstanceNumber] of the runtime is not [INDEX_NONE]. *)
Theorem binding_needs_InstanceNumber (evs : list process_event) (p : process)
  (n : nat) (r : runtime) :
  process_run evs process_start = Some p →
  process_runtimes p !! n = Some r →
  is_Some (process_step (thread_binds n) p)
  ↔ holder_InstanceNumber (runtime_holder r) ≠ INDEX_NONE.
Proof.
  intros Hrun Hn. split.
  - cbn. rewrite Hn. cbn.
    destruct (Z.leb_spec 0 (holder_InstanceNumber (runtime_holder r)));
      [|by intros []].
    intros _. unfold INDEX_NONE. lia.
  - apply thread_binds_in_range; [|done].
    by apply (process_inv_run evs process_start).
Qed.

(** The witness of [binding_needs_InstanceNumber]: the first runtime of a
    process. *)
Lemma binding_needs_InstanceNumber_witness :
  ∃ p, process_run [thread_allocates "a"] process_start = Some p
       ∧ is_Some (process_step (thread_binds 0) p).
Proof.
  destruct (process_run [thread_allocates "a"] process_start) as [p|] eqn:Hrun;
    [|vm_compute in Hrun; discriminate].
  exists p. split; [done|].
  apply (binding_needs_InstanceNumber _ p 0%nat
           (Runtime 0 (Holder "a" 0 0) false) Hrun).
  - vm_compute in Hrun. by injection Hrun as <-.
  - vm_compute. discriminate.
Defined.


(** *** The file a runtime loads *)

Section InstancedCoreFacts.
Variable GetBaseFilename : string → string.
Variable GetExtension : string → string.

Lemma app_string_inv_tail (a b c : string) : a +:+ c = b +:+ c → a = b.
Proof.
  intros Heq.
  assert (Hlen : String.length a = String.length b).
  { apply (f_equal String.length) in Heq. rewrite !length_app_string in Heq. lia. }
  revert b Heq Hlen. induction a as [|x a IH]; intros [|y b]; try done.
  rewrite !app_string_cons. intros [= -> Heq] [= Hlen]. f_equal. by apply IH.
Qed.

Lemma pretty_N_go_not_empty (x : N) (s : string) :
  (0 < x)%N → pretty_N_go x s ≠ "".
Proof.
  revert s. induction (N.lt_wf_0 x) as [x _ IH]; intros s Hx.
  rewrite pretty_N_go_step by done.
  destruct (decide (x `div` 10 = 0)%N) as [->|Hd].
  - by rewrite pretty_N_go_0.
  - apply IH; [apply N.div_lt; lia|]. by apply N.neq_0_lt_0.
Qed.

Lemma pretty_Z_not_empty (z : Z) : 0 < z → pretty z ≠ "".
Proof.
  intros Hz. destruct z as [|q|q]; [lia| |lia].
  unfold pretty, pretty_Z. destruct (decide (Z.pos q < 0)); [lia|].
  unfold pretty, pretty_N. cbn [Z.to_N].
  destruct (decide (N.pos q = 0)%N); [lia|].
  apply pretty_N_go_not_empty. lia.
Qed.

Lemma InstancedCorePath_inj (core : string) (c1 c2 : Z) :
  core = GetBaseFilename core +:+ "." +:+ GetExtension core →
  0 ≤ c1 → 0 ≤ c2 →
  InstancedCorePath GetBaseFilename GetExtension core c1
  = InstancedCorePath GetBaseFilename GetExtension core c2 →
  c1 = c2.
Proof.
  intros Hcore H1 H2. unfold InstancedCorePath.
  assert (Hne : ∀ c, 0 < c →
    GetBaseFilename core +:+ pretty c +:+ "." +:+ GetExtension core ≠ core).
  { intros c Hc Heq. rewrite Hcore in Heq at 3.
    apply (inj (String.app _)) in Heq.
    apply (app_string_inv_tail (pretty c) "") in Heq.
    by apply (pretty_Z_not_empty c). }
  destruct (Z.ltb_spec 0 c1), (Z.ltb_spec 0 c2); intros Heq.
  - apply (inj (String.app _)) in Heq.
    apply app_string_inv_tail in Heq. by apply (inj pretty) in Heq.
  - by apply Hne in Heq.
  - symmetry in Heq. by apply Hne in Heq.
  - lia.
Qed.

(** No two live runtimes load the same file: whatever has been
    launched and has exited, two live runtimes of one core, each with a
    [CoreInstanceNumber] that is not [INDEX_NONE], have different
    [InstancedCorePath]s, for a core whose path has an extension. *)
Theorem live_runtimes_load_different_files (evs : list alloc_event)
  (live : list holder) (n m : nat) (h1 h2 : holder) :
  live_after evs = Some live →
  n ≠ m → live !! n = Some h1 → live !! m = Some h2 →
  holder_core h1 = holder_core h2 →
  holder_core h1
    = GetBaseFilename (holder_core h1) +:+ "." +:+ GetExtension (holder_core h1) →
  holder_CoreInstanceNumber h1 ≠ INDEX_NONE →
  holder_CoreInstanceNumber h2 ≠ INDEX_NONE →
  InstancedCorePath GetBaseFilename GetExtension
    (holder_core h1) (holder_CoreInstanceNumber h1)
  ≠ InstancedCorePath GetBaseFilename GetExtension
      (holder_core h2) (holder_CoreInstanceNumber h2).
Proof.
  unfold live_after. intros Hrun Hnm Hn Hm Hcore Hext Hv1 Hv2.
  destruct (alloc_run evs (no_instances, [])) as [[st live']|] eqn:Hr; [|done].
  injection Hrun as ->.
  destruct (alloc_inv_run _ _ _ _ _ alloc_inv_init Hr) as [_ _ Hcset Hcown].
  destruct (Hcset n h1 Hn Hv1) as [Hp1 _].
  destruct (Hcset m h2 Hm Hv2) as [Hp2 _].
  rewrite <- Hcore. intros Heq.
  apply (InstancedCorePath_inj _ _ _ Hext Hp1 Hp2) in Heq.
  by apply (Hcown n m h1 h2).
Qed.

End InstancedCoreFacts.

(** The witness of [live_runtimes_load_different_files]: two runtimes
    of one core. *)
Lemma live_runtimes_load_different_files_witness :
  "cores/snes1.dll" ≠ "cores/snes.dll".
Proof.
  assert (Hlive : live_after [Launched "cores/snes.dll"; Launched "cores/snes.dll"]
                  = Some [Holder "cores/snes.dll" 0 0; Holder "cores/snes.dll" 1 1])
    by (vm_compute; reflexivity).
  apply (live_runtimes_load_different_files (λ _, "cores/snes") (λ _, "dll")
           _ _ 1%nat 0%nat _ _ Hlive ltac:(lia) eq_refl eq_refl eq_refl eq_refl
           ltac:(vm_compute; discriminate) ltac:(vm_compute; discriminate)).
Defined.

(** ** The run loop *)
















(** At 60 frames a second, with 10 frames run since [start]: when one
    second has passed the iteration is more than a frame behind, so it
    resets [frames] and [start] and does not sleep; when a tenth of a second
    has passed it keeps counting and sleeps. *)
Lemma run_loop_stall_resets :
  run_loop_iteration 60 (Clocks 0 10000000 10000005)
                     (RunLoop false 0 0 false 10 0)
    = ([retro_run; Sleep 0], RunLoop false 0 0 false 0 10000005) ∧
  ∃ Seconds,
    run_loop_iteration 60 (Clocks 0 1000000 1000005)
                       (RunLoop false 0 0 false 10 0)
      = ([retro_run; Sleep Seconds], RunLoop false 0 0 false 11 0) ∧
    (0.0625 <? Seconds)%float = true ∧ (Seconds <? 0.125)%float = true.
Proof.
  split; [vm_compute; reflexivity|].
  eexists. split; [vm_compute; reflexivity|]. split; vm_compute; reflexivity.
Qed.

(** With a nonzero [runloop_frame_time_last], and both it and the tick
    count within [Uint32], the callback gets the milliseconds since the call
    before, times 1000. *)
Lemma frame_time_step_measured (c : clocks) (l : run_loop) :
  runloop_frame_time_callback l = true →
  0 < runloop_frame_time_last l < 2 ^ 32 →
  0 ≤ SDL_GetTicks c < 2 ^ 32 →
  frame_time_step c l =
    (Some ((SDL_GetTicks c - runloop_frame_time_last l) * 1000), SDL_GetTicks c).
Proof.
  intros Hcb Hlast Hticks. unfold frame_time_step, cpu_features_get_time_usec.
  rewrite Hcb. replace (runloop_frame_time_last l =? 0) with false
    by (symmetry; apply Z.eqb_neq; lia).
  assert (Hid : ∀ z, - 2 ^ 63 ≤ z < 2 ^ 63 → to_int64 z = z).
  { intros z Hz. unfold to_int64. rewrite Z.mod_small; lia. }
  rewrite (Hid (SDL_GetTicks c)) by lia.
  rewrite (Hid (_ - _)) by lia. rewrite Hid by lia. reflexivity.
Qed.

(** The witness of [frame_time_step_measured]: the call before was at 100
    milliseconds, this one is at 116. *)
Lemma frame_time_step_measured_witness :
  frame_time_step (Clocks 116 0 0) (RunLoop true 16667 100 false 0 0)
    = (Some 16000, 116).
Proof.
  apply (frame_time_step_measured (Clocks 116 0 0)
           (RunLoop true 16667 100 false 0 0)); cbn; [reflexivity | lia | lia].
Defined.

(** C6, evaluated on the code.  A core registers a frame-time callback with
    a [reference] of 16667 microseconds (60 frames a second); the first
    iteration, 100 milliseconds after [SDL_Init], calls it with 16667000. *)
Theorem frame_time_first_call_scaled :
  frame_time_step (Clocks 100 1000000 1000000) (RunLoop true 16667 0 false 0 0)
    = (Some 16667000, 100) ∧
  fst (run_loop_iteration 60 (Clocks 100 1000000 1000000)
         (RunLoop true 16667 0 false 0 0)) !! 0%nat
    = Some (frame_time_callback 16667000).
Proof. split; reflexivity. Qed.

(** ** The ordered file-access chain *)

Section OrderedIOFacts.
Context {W : Type}.
Implicit Types (st : io_state W) (t : io_task W) (w : W).

(** What follows a trace does not change the order within it. *)
Lemma precedes_app_r (x y : io_event) (l l' : list io_event) :
  precedes x y l → precedes x y (l ++ l').
Proof.
  intros (l1 & l2 & l3 & ->). exists l1, l2, (l3 ++ l').
  rewrite <- app_assoc. cbn. by rewrite <- app_assoc.
Qed.

(** A new last event comes after every event of the trace. *)
Lemma precedes_snoc (x y : io_event) (l : list io_event) :
  x ∈ l → precedes x y (l ++ [y]).
Proof.
  intros (l1 & l2 & ->)%list_elem_of_split. exists l1, l2, [].
  by rewrite <- app_assoc.
Qed.

(** The events of the [i]-th operation carry the index [i]. *)
Lemma events_of_index (s : io_status) (i : nat) (e : io_event) :
  e ∈ events_of s i → event_index e = i.
Proof.
  destruct s; cbn; intros He;
    repeat (apply elem_of_cons in He as [->|He]; [done|]);
    by apply elem_of_nil in He.
Qed.

(** *** Scheduling *)

Section Scheduled.
Variables (st : io_state W) (t : io_task W).
Let n := length (io_tasks st).
Let st' := IOState (<[task_FilePath t := n]> (LastIOTask st))
                   (io_tasks st ++ [t]) (io_trace st).
Hypothesis Hprev : task_LastIOOperation t = LastIOTask st !! task_FilePath t.
Hypothesis Hheld : task_status t = Held.
Hypothesis Hinv : io_inv st.

(** The operations after scheduling [t]: the old ones, then [t]. *)
Lemma scheduled_lookup (j : nat) :
  io_tasks st' !! j =
    if decide (j < n)%nat then io_tasks st !! j
    else if decide (j = n) then Some t else None.
Proof.
  subst st' n. cbn. case_decide as Hlt.
  - by rewrite lookup_app_l.
  - case_decide as Heq.
    + subst j. by rewrite list_lookup_middle.
    + apply lookup_ge_None. rewrite length_app. cbn. lia.
Qed.

(** An operation that is there has an index below the next one. *)
Lemma lookup_valid {A} (f : io_task W → A) (j : nat) (x : A) :
  f <$> io_tasks st !! j = Some x → (j < n)%nat.
Proof.
  intros Hj. subst n. apply lookup_lt_is_Some.
  destruct (io_tasks st !! j); [eauto | discriminate].
Qed.

(** Scheduling leaves the old operations as they were. *)
Lemma scheduled_old {A} (f : io_task W → A) (j : nat) :
  (j < n)%nat → f <$> io_tasks st' !! j = f <$> io_tasks st !! j.
Proof. intros Hj. rewrite scheduled_lookup. by rewrite decide_True. Qed.

(** The new operation takes the next index. *)
Lemma scheduled_new {A} (f : io_task W → A) :
  f <$> io_tasks st' !! n = Some (f t).
Proof.
  rewrite scheduled_lookup. rewrite decide_False by lia. by rewrite decide_True.
Qed.

(** An operation after scheduling is an old one or the new one. *)
Lemma scheduled_cases {A} (f : io_task W → A) (j : nat) (x : A) :
  f <$> io_tasks st' !! j = Some x →
  ((j < n)%nat ∧ f <$> io_tasks st !! j = Some x) ∨ (j = n ∧ x = f t).
Proof.
  rewrite scheduled_lookup. repeat case_decide; cbn.
  - eauto.
  - intros [= <-]. eauto.
  - discriminate.
Qed.

(** Scheduling keeps the invariant. *)
Lemma io_inv_scheduled : io_inv st'.
Proof.
  destruct Hinv as [Hls Hln Hps Hpn Hev Hnd Hch Hbe Hes Hord].
  assert (Hnone : ∀ {A} (f : io_task W → A), f <$> io_tasks st !! n = None).
  { intros A f. subst n. by rewrite lookup_ge_None_2. }
  split.
  - (* last_some *)
    intros p k. unfold path_of. cbn [LastIOTask st']. intros Hk.
    destruct (decide (task_FilePath t = p)) as [<-|Hne].
    + rewrite lookup_insert_eq in Hk. injection Hk as <-.
      split; [apply scheduled_new|].
      intros m Hm. rewrite scheduled_lookup. by rewrite !decide_False by lia.
    + rewrite lookup_insert_ne in Hk by done.
      destruct (Hls p k Hk) as [Hpk Hafter]. unfold path_of in *.
      pose proof (lookup_valid _ _ _ Hpk) as Hkn.
      split; [by rewrite scheduled_old|].
      intros m Hm [[? Hold]|[-> Heq]]%scheduled_cases.
      * by apply (Hafter m).
      * congruence.
  - (* last_none *)
    intros p. cbn [LastIOTask st']. intros Hp m.
    destruct (decide (task_FilePath t = p)) as [<-|Hne].
    { by rewrite lookup_insert_eq in Hp. }
    rewrite lookup_insert_ne in Hp by done. unfold path_of.
    intros [[? Hold]|[-> Heq]]%scheduled_cases.
    + by apply (Hln p Hp m).
    + congruence.
  - (* prev_some *)
    intros j k. unfold prev_of, path_of.
    intros [[Hj Hold]|[-> Heq]]%scheduled_cases.
    + destruct (Hps j k Hold) as (Hkj & Hpath & Hbetween).
      unfold path_of in *. rewrite !scheduled_old by lia.
      split; [done|]. split; [done|].
      intros m Hm. rewrite scheduled_old by lia. by apply Hbetween.
    + rewrite Hprev in Heq. symmetry in Heq.
      destruct (Hls _ k Heq) as [Hpk Hafter]. unfold path_of in *.
      pose proof (lookup_valid _ _ _ Hpk) as Hkn.
      rewrite scheduled_new, scheduled_old by lia.
      split; [done|]. split; [done|].
      intros m Hm. rewrite scheduled_old by lia. apply Hafter. lia.
  - (* prev_none *)
    intros j. unfold prev_of, path_of.
    intros [[Hj Hold]|[-> Heq]]%scheduled_cases; intros m Hm.
    + rewrite !scheduled_old by lia. by apply (Hpn j Hold).
    + rewrite Hprev in Heq. symmetry in Heq.
      rewrite scheduled_new, scheduled_old by lia.
      apply (Hln _ Heq m).
  - (* events *)
    intros e. cbn [io_trace st']. rewrite Hev. unfold status_of.
    split; intros (i & s & Hs & He).
    + exists i, s. split; [|done].
      rewrite scheduled_old; [done|]. by eapply lookup_valid.
    + apply scheduled_cases in Hs as [[? Hold]|[-> ->]]; [eauto|].
      rewrite Hheld in He. by apply elem_of_nil in He.
  - done.
  - (* chain *)
    intros i j p s Hij. unfold path_of, status_of.
    intros Hi Hj [[Hjn Hs]|[-> ->]]%scheduled_cases Hb.
    + rewrite scheduled_old in Hi by lia. rewrite scheduled_old in Hj by lia.
      rewrite scheduled_old by lia. by eapply (Hch i j).
    + by rewrite Hheld in Hb.
  - done.
  - done.
  - (* order *)
    intros i j p Hij. unfold path_of. intros Hi Hj Hb.
    cbn [io_trace st'] in *.
    assert (j < n)%nat as Hjn.
    { apply Hev in Hb as (j' & s & Hs & He).
      apply events_of_index in He. cbn in He. subst j'.
      by eapply lookup_valid. }
    rewrite scheduled_old in Hi by lia. rewrite scheduled_old in Hj by lia.
    by eapply Hord.
Qed.
End Scheduled.

(** *** Advancing an operation *)

Section Advanced.
Variables (st : io_state W) (a : nat) (t : io_task W).
Variables (from to : io_status) (ev : list io_event).
Let st' := IOState (LastIOTask st) (alter (with_status to) a (io_tasks st))
                   (io_trace st ++ ev).
Hypothesis Ht : io_tasks st !! a = Some t.
Hypothesis Hfrom : task_status t = from.
Hypothesis Htrans : transition a from to ev.
Hypothesis Hpre : to = Running → prerequisite_complete st t = true.
Hypothesis Hinv : io_inv st.

(** A step of an operation changes no path, no prerequisite, and the
    status of that operation only. *)
Lemma advanced_path (j : nat) : path_of st' j = path_of st j.
Proof.
  unfold path_of. subst st'. cbn. rewrite list_lookup_alter.
  case_decide as Hj; [subst j|done]. by rewrite Ht.
Qed.

Lemma advanced_prev (j : nat) : prev_of st' j = prev_of st j.
Proof.
  unfold prev_of. subst st'. cbn. rewrite list_lookup_alter.
  case_decide as Hj; [subst j|done]. by rewrite Ht.
Qed.

Lemma advanced_status (j : nat) :
  status_of st' j = if decide (j = a) then Some to else status_of st j.
Proof.
  unfold status_of. subst st'. cbn. rewrite list_lookup_alter.
  repeat case_decide; try congruence. subst j. by rewrite Ht.
Qed.

(** The operation that steps was in the status the step starts from. *)
Lemma advanced_from : status_of st a = Some from.
Proof. unfold status_of. by rewrite Ht, <- Hfrom. Qed.

(** After a step, the events behind the operation are those it had and
    those the step adds. *)
Lemma transition_events (e : io_event) :
  e ∈ events_of to a ↔ e ∈ events_of from a ∨ e ∈ ev.
Proof.
  destruct Htrans; cbn; rewrite ?elem_of_cons, ?elem_of_nil; tauto.
Qed.

(** A step adds no event the operation had behind it. *)
Lemma transition_fresh (e : io_event) : e ∈ ev → e ∉ events_of from a.
Proof.
  destruct Htrans; cbn; rewrite ?elem_of_cons, ?elem_of_nil;
    intros He Hin; intuition congruence.
Qed.

(** Which step adds which event. *)
Lemma transition_begin_event (j : nat) :
  IOBegin j ∈ ev → j = a ∧ to = Running ∧ ev = [IOBegin a].
Proof.
  destruct Htrans; intros Hin;
    repeat (apply elem_of_cons in Hin as [Heq|Hin]; [try done|]);
    try by apply elem_of_nil in Hin.
  by injection Heq as ->.
Qed.

Lemma transition_end_event (i : nat) :
  IOEnd i ∈ ev → i = a ∧ from = Running ∧ ev = [IOEnd a].
Proof.
  destruct Htrans; intros Hin;
    repeat (apply elem_of_cons in Hin as [Heq|Hin]; [try done|]);
    try by apply elem_of_nil in Hin.
  by injection Heq as ->.
Qed.

Lemma transition_signal_event (i : nat) :
  IOSignal i ∈ ev → i = a ∧ from = Finished ∧ ev = [IOSignal a].
Proof.
  destruct Htrans; intros Hin;
    repeat (apply elem_of_cons in Hin as [Heq|Hin]; [try done|]);
    try by apply elem_of_nil in Hin.
  by injection Heq as ->.
Qed.

(** A step adds events of its own operation only, and no event twice. *)
Lemma transition_event_index (e : io_event) : e ∈ ev → event_index e = a.
Proof.
  destruct Htrans; intros Hin;
    repeat (apply elem_of_cons in Hin as [->|Hin]; [done|]);
    by apply elem_of_nil in Hin.
Qed.

Lemma transition_NoDup : NoDup ev.
Proof. destruct Htrans; first [apply NoDup_nil_2 | apply NoDup_singleton]. Qed.

(** A completed operation takes no further step. *)
Lemma transition_not_completed : from ≠ Completed.
Proof. by destruct Htrans. Qed.

(** Once an operation has begun, every earlier operation on its path has
    completed. *)
Lemma advanced_chain (i j : nat) (p : string) (s : io_status) :
  (i < j)%nat → path_of st i = Some p → path_of st j = Some p →
  status_of st' j = Some s → has_begun s = true →
  i ≠ a ∧ status_of st i = Some Completed.
Proof.
  destruct Hinv as [Hls Hln Hps Hpn Hev Hnd Hch Hbe Hes Hord].
  intros Hij Hi Hj Hs Hb. rewrite advanced_status in Hs.
  assert (Hnot : status_of st i = Some Completed → i ≠ a).
  { intros Hc ->. rewrite advanced_from in Hc.
    injection Hc. apply transition_not_completed. }
  enough (status_of st i = Some Completed) by auto.
  case_decide as Hja.
  - subst j. injection Hs as <-.
    destruct (has_begun from) eqn:Hbf.
    { apply (Hch i a p from Hij Hi Hj advanced_from Hbf). }
    assert (to = Running) as Hto by (destruct Htrans; done).
    specialize (Hpre Hto). unfold prerequisite_complete in Hpre.
    destruct (task_LastIOOperation t) as [k|] eqn:Hk.
    + destruct (io_tasks st !! k) as [tk|] eqn:Htk; [|done].
      apply bool_decide_eq_true in Hpre.
      assert (status_of st k = Some Completed) as Hsk.
      { unfold status_of. by rewrite Htk, <- Hpre. }
      destruct (Hps a k) as (Hka & Hpk & Hbetween).
      { unfold prev_of. by rewrite Ht, <- Hk. }
      destruct (decide (i = k)) as [->|Hik]; [done|].
      destruct (decide (i < k)%nat) as [Hlt|Hge].
      * apply (Hch i k p Completed Hlt Hi); [congruence|done|done].
      * exfalso. apply (Hbetween i); [lia|congruence].
    + exfalso. apply (Hpn a) with (m := i); [|lia|congruence].
      unfold prev_of. by rewrite Ht, <- Hk.
  - by apply (Hch i j p s).
Qed.

(** A step of an operation keeps the invariant. *)
Lemma io_inv_advanced : io_inv st'.
Proof.
  pose proof Hinv as [Hls Hln Hps Hpn Hev Hnd Hch Hbe Hes Hord].
  split.
  - intros p k Hk. rewrite advanced_path. destruct (Hls p k Hk) as [? Hafter].
    split; [done|]. intros m Hm. rewrite advanced_path. by apply Hafter.
  - intros p Hp m. rewrite advanced_path. by apply Hln.
  - intros j k. rewrite advanced_prev, !advanced_path. intros Hjk.
    destruct (Hps j k Hjk) as (? & ? & Hbetween).
    split; [done|]. split; [done|].
    intros m Hm. rewrite advanced_path. by apply Hbetween.
  - intros j. rewrite advanced_prev. intros Hj m Hm.
    rewrite !advanced_path. by apply Hpn.
  - (* events *)
    intros e. cbn [io_trace st']. rewrite elem_of_app, Hev. split.
    + intros [(i & s & Hs & He)|He].
      * destruct (decide (i = a)) as [->|Hia].
        -- exists a, to. rewrite advanced_status, decide_True by done.
           split; [done|]. apply transition_events. left.
           rewrite advanced_from in Hs. by injection Hs as <-.
        -- exists i, s. by rewrite advanced_status, decide_False.
      * exists a, to. rewrite advanced_status, decide_True by done.
        split; [done|]. apply transition_events. by right.
    + intros (i & s & Hs & He). rewrite advanced_status in Hs.
      case_decide as Hia.
      * subst i. injection Hs as <-.
        apply transition_events in He as [He|He]; [|by right].
        left. exists a, from. split; [apply advanced_from | done].
      * left. eauto.
  - (* nodup *)
    cbn [io_trace st']. apply NoDup_app. split; [done|]. split.
    + intros e He Hin. apply Hev in He as (i & s & Hs & He).
      assert (i = a) as ->.
      { apply events_of_index in He. rewrite <- He.
        by apply transition_event_index. }
      rewrite advanced_from in Hs. injection Hs as <-.
      by apply (transition_fresh e).
    + apply transition_NoDup.
  - (* chain *)
    intros i j p s Hij. rewrite !advanced_path. intros Hi Hj Hs Hb.
    destruct (advanced_chain i j p s Hij Hi Hj Hs Hb) as [Hia Hc].
    by rewrite advanced_status, decide_False.
  - (* begin before end *)
    intros i. cbn [io_trace st']. intros [Hin|Hin]%elem_of_app.
    + apply precedes_app_r. by apply Hbe.
    + apply transition_end_event in Hin as (Hia & Hrun & Hev').
      subst i. rewrite Hev'. apply precedes_snoc. apply Hev.
      exists a, Running. split; [by rewrite advanced_from, Hrun|]. cbn. by left.
  - (* end before signal *)
    intros i. cbn [io_trace st']. intros [Hin|Hin]%elem_of_app.
    + apply precedes_app_r. by apply Hes.
    + apply transition_signal_event in Hin as (Hia & Hfin & Hev').
      subst i. rewrite Hev'. apply precedes_snoc. apply Hev.
      exists a, Finished. split; [by rewrite advanced_from, Hfin|].
      cbn. right. by left.
  - (* order *)
    intros i j p Hij. rewrite !advanced_path. cbn [io_trace st'].
    intros Hi Hj [Hin|Hin]%elem_of_app.
    + destruct (Hord i j p Hij Hi Hj Hin). split; by apply precedes_app_r.
    + apply transition_begin_event in Hin as (Hja & Hto & Hev').
      subst j. rewrite Hev'.
      destruct (advanced_chain i a p to Hij Hi Hj) as [Hia Hc].
      { by rewrite advanced_status, decide_True. }
      { by rewrite Hto. }
      split; apply precedes_snoc; apply Hev; exists i, Completed;
        (split; [done|]); cbn; rewrite !elem_of_cons; auto.
Qed.
End Advanced.


(** *** Every reachable state *)

Lemma io_inv_init : io_inv (io_init : io_state W).
Proof.
  split; unfold path_of, prev_of, status_of; cbn; try done.
  - intros e. rewrite elem_of_nil. split; [done|]. by intros (i & s & Hs & _).
  - apply NoDup_nil_2.
  - intros i [] %elem_of_nil.
  - intros i [] %elem_of_nil.
Qed.

(** What [advance] has done when it succeeds. *)
Lemma advance_Some (i : nat) (from to : io_status) (ev : list io_event)
  (st st' : io_state W) :
  advance i from to ev st = Some st' →
  ∃ t, io_tasks st !! i = Some t ∧ task_status t = from ∧
       st' = IOState (LastIOTask st) (alter (with_status to) i (io_tasks st))
                     (io_trace st ++ ev).
Proof.
  unfold advance. destruct (io_tasks st !! i) as [t|]; [|done]. cbn.
  case_bool_decide; [|done]. intros [= <-]. eauto.
Qed.

Lemma io_inv_step (a : io_action W) (st st' : io_state W) (w w' : W) :
  io_inv st → io_step a (st, w) = Some (st', w') → io_inv st'.
Proof.
  intros Hinv. destruct a as [[] p op|p ser op|i|i|i|i]; cbn.
  - intros [= <- _]. by apply (io_inv_scheduled st (IOTask p _ id op Held)).
  - done.
  - intros [= <- _]. by apply (io_inv_scheduled st (IOTask p _ ser op Held)).
  - destruct (io_tasks st !! i) as [t|] eqn:Ht; [|done]. cbn.
    destruct (advance _ _ _ _ _) as [st1|] eqn:Hadv; [|done]. cbn.
    intros [= <- _]. apply advance_Some in Hadv as (t' & Ht' & Hs & ->).
    apply (io_inv_advanced st i t' Held Called []); try done. constructor.
  - destruct (io_tasks st !! i) as [t|] eqn:Ht; [|done]. cbn.
    destruct (prerequisite_complete st t) eqn:Hpre; [|done].
    destruct (advance _ _ _ _ _) as [st1|] eqn:Hadv; [|done]. cbn.
    intros [= <- _]. apply advance_Some in Hadv as (t' & Ht' & Hs & ->).
    apply (io_inv_advanced st i t' Called Running [IOBegin i]); try done.
    + constructor.
    + intros _. congruence.
  - destruct (io_tasks st !! i) as [t|] eqn:Ht; [|done]. cbn.
    destruct (advance _ _ _ _ _) as [st1|] eqn:Hadv; [|done]. cbn.
    intros [= <- _]. apply advance_Some in Hadv as (t' & Ht' & Hs & ->).
    apply (io_inv_advanced st i t' Running Finished [IOEnd i]); try done.
    constructor.
  - destruct (advance _ _ _ _ _) as [st1|] eqn:Hadv; [|done]. cbn.
    intros [= <- _]. apply advance_Some in Hadv as (t' & Ht' & Hs & ->).
    apply (io_inv_advanced st i t' Finished Completed [IOSignal i]); try done.
    constructor.
Qed.

Lemma io_inv_run (acts : list (io_action W)) (st st' : io_state W) (w w' : W) :
  io_inv st → io_run acts (st, w) = Some (st', w') → io_inv st'.
Proof.
  revert st w. induction acts as [|a acts IH]; intros st w Hinv.
  - by intros [= <- _].
  - change (io_run (a :: acts) (st, w)) with (io_step a (st, w) ≫= io_run acts).
    destruct (io_step a (st, w)) as [[st1 w1]|] eqn:Hstep; [|done].
    apply IH. by eapply io_inv_step.
Qed.

(** A called operation whose path has no unfinished earlier operation can
    begin, whatever the operations on other paths are doing. *)
Lemma Begin_enabled (st : io_state W) (w : W) (j : nat) (tj : io_task W) :
  io_inv st →
  io_tasks st !! j = Some tj → task_status tj = Called →
  (∀ i ti, (i < j)%nat → io_tasks st !! i = Some ti →
           task_FilePath ti = task_FilePath tj → task_status ti = Completed) →
  is_Some (io_step (Begin j) (st, w)).
Proof.
  intros Hinv Hj Hcalled Hearlier. cbn. rewrite Hj. cbn.
  assert (prerequisite_complete st tj = true) as ->.
  { unfold prerequisite_complete.
    destruct (task_LastIOOperation tj) as [k|] eqn:Hk; [|done].
    destruct (inv_prev_some st Hinv j k) as (Hkj & Hpath & _).
    { unfold prev_of. by rewrite Hj, <- Hk. }
    unfold path_of in Hpath. rewrite Hj in Hpath.
    destruct (io_tasks st !! k) as [tk|] eqn:Htk; [|done].
    apply bool_decide_eq_true. apply (Hearlier k tk Hkj Htk).
    by injection Hpath. }
  unfold advance. rewrite Hj. cbn. rewrite bool_decide_eq_true_2 by done.
  cbn. eauto.
Qed.


(** Off the game thread nothing is scheduled: the [check] of
    [MakeOrderedFileAccessOperation] fails. *)
Lemma Schedule_off_game_thread (FilePath : string)
  (IOOperation : string → W → W) (s : io_state W * W) :
  io_step (Schedule false FilePath IOOperation) s = None.
Proof. by destruct s. Qed.

(** C1: in every state the chain can reach, whoever called what.  Each
    begin, end and completion happens once.  On a path, the operations do
    their I/O in the order they were scheduled and one at a time: when a
    later one begins, every earlier one has begun and ended.  The event an
    operation waits for is the one it took out of [LastIOTask]: the latest
    operation scheduled before it on its path (or none, for the first), and
    it has fired before the I/O begins.  Operations on other paths are never
    waited for: a called operation can begin as soon as the earlier
    operations on its own path have completed. *)
Theorem ordered_io_in_scheduling_order (acts : list (io_action W))
  (w0 w : W) (st : io_state W) :
  io_run acts (io_init, w0) = Some (st, w) →
  NoDup (io_trace st) ∧
  (∀ i j ti tj, (i < j)%nat →
     io_tasks st !! i = Some ti → io_tasks st !! j = Some tj →
     task_FilePath ti = task_FilePath tj → IOBegin j ∈ io_trace st →
     precedes (IOBegin i) (IOEnd i) (io_trace st) ∧
     precedes (IOEnd i) (IOBegin j) (io_trace st)) ∧
  (∀ j tj, io_tasks st !! j = Some tj →
     match task_LastIOOperation tj with
     | Some k =>
         (k < j)%nat ∧
         (∃ tk, io_tasks st !! k = Some tk ∧ task_FilePath tk = task_FilePath tj) ∧
         (∀ m tm, (k < m < j)%nat → io_tasks st !! m = Some tm →
                  task_FilePath tm ≠ task_FilePath tj) ∧
         (IOBegin j ∈ io_trace st →
          precedes (IOSignal k) (IOBegin j) (io_trace st))
     | None =>
         ∀ m tm, (m < j)%nat → io_tasks st !! m = Some tm →
                 task_FilePath tm ≠ task_FilePath tj
     end) ∧
  (∀ j tj, io_tasks st !! j = Some tj → task_status tj = Called →
     (∀ i ti, (i < j)%nat → io_tasks st !! i = Some ti →
              task_FilePath ti = task_FilePath tj → task_status ti = Completed) →
     is_Some (io_step (Begin j) (st, w))).
Proof.
  intros Hrun. pose proof (io_inv_run acts _ _ _ _ io_inv_init Hrun) as Hinv.
  pose proof Hinv as [Hls Hln Hps Hpn Hev Hnd Hch Hbe Hes Hord].
  split; [done|]. split; [|split].
  - intros i j ti tj Hij Hi Hj Hpath Hb.
    destruct (Hord i j (task_FilePath ti) Hij) as [Hend _]; try done.
    { unfold path_of. by rewrite Hi. }
    { unfold path_of. rewrite Hj. cbn. congruence. }
    split; [|done]. apply Hbe.
    destruct Hend as (l1 & l2 & l3 & ->). rewrite elem_of_app, elem_of_cons. auto.
  - intros j tj Hj. destruct (task_LastIOOperation tj) as [k|] eqn:Hk.
    + destruct (Hps j k) as (Hkj & Hpath & Hbetween).
      { unfold prev_of. by rewrite Hj, <- Hk. }
      unfold path_of in Hpath. rewrite Hj in Hpath.
      destruct (io_tasks st !! k) as [tk|] eqn:Htk; [|done].
      injection Hpath as Hpath.
      split; [done|]. split; [eauto|]. split.
      * intros m tm Hm Htm Heq. apply (Hbetween m Hm).
        unfold path_of. rewrite Htm, Hj. cbn. congruence.
      * intros Hb. apply (Hord k j (task_FilePath tj) Hkj); try done.
        -- unfold path_of. rewrite Htk. cbn. congruence.
        -- unfold path_of. by rewrite Hj.
    + intros m tm Hm Htm Heq. apply (Hpn j) with (m := m); try done.
      * unfold prev_of. by rewrite Hj, <- Hk.
      * unfold path_of. rewrite Htm, Hj. cbn. congruence.
  - intros j tj. by apply Begin_enabled.
Qed.

(** [advance] succeeds on an operation that is in the status it starts
    from. *)
Lemma advance_Some_2 (i : nat) (from to : io_status) (ev : list io_event)
  (st : io_state W) (t : io_task W) :
  io_tasks st !! i = Some t → task_status t = from →
  advance i from to ev st =
    Some (IOState (LastIOTask st) (alter (with_status to) i (io_tasks st))
                  (io_trace st ++ ev)).
Proof.
  intros Hi Hs. unfold advance. rewrite Hi. cbn.
  by rewrite bool_decide_eq_true_2.
Qed.

(** C2: an operation that has been called, and whose wait is over, does
    its I/O and then fulfils its completion event, whatever [IOOperation]
    did to the files and the core, and so also when it failed and did
    nothing; every operation that waits for this event has then nothing
    left to wait for. *)
Theorem operation_signals_whatever_its_io (st : io_state W) (w : W) (i : nat)
  (t : io_task W) :
  io_tasks st !! i = Some t → task_status t = Called →
  prerequisite_complete st t = true →
  ∃ st',
    io_run [Begin i; Finish i; Signal i] (st, w)
      = Some (st', task_IOOperation t (task_FilePath t) w) ∧
    task_status <$> io_tasks st' !! i = Some Completed ∧
    IOSignal i ∈ io_trace st' ∧
    ∀ j tj, io_tasks st' !! j = Some tj → task_LastIOOperation tj = Some i →
            prerequisite_complete st' tj = true.
Proof.
  intros Hi Hcalled Hpre.
  assert (Hlook : ∀ s (l : list (io_task W)) t', l !! i = Some t' →
            alter (with_status s) i l !! i = Some (with_status s t')).
  { intros s l t' Hl. by rewrite list_lookup_alter, decide_True, Hl. }
  eexists. split; [|split; [|split]].
  - cbn. rewrite Hi. cbn. rewrite Hpre.
    rewrite (advance_Some_2 i Called Running _ st t Hi Hcalled). cbn.
    pose proof (Hlook Running _ _ Hi) as H1. rewrite H1. cbn.
    set (st1 := IOState (LastIOTask st)
                  (alter (with_status Running) i (io_tasks st))
                  (io_trace st ++ [IOBegin i])).
    rewrite (advance_Some_2 i Running Finished _ st1 _ H1 eq_refl). cbn.
    pose proof (Hlook Finished _ _ H1) as H2.
    set (st2 := IOState (LastIOTask st)
                  (alter (with_status Finished) i
                     (alter (with_status Running) i (io_tasks st)))
                  ((io_trace st ++ [IOBegin i]) ++ [IOEnd i])).
    rewrite (advance_Some_2 i Finished Completed _ st2 _ H2 eq_refl).
    reflexivity.
  - cbn. rewrite !list_lookup_alter, !decide_True by done. by rewrite Hi.
  - cbn. rewrite !elem_of_app, !elem_of_cons. auto.
  - intros j tj Hj Hprev. unfold prerequisite_complete. rewrite Hprev. cbn.
    rewrite !list_lookup_alter, !decide_True by done. by rewrite Hi.
Qed.

End OrderedIOFacts.

(** The witness of [ordered_io_in_scheduling_order]: the save of slot A is
    called first and the load of slot B begins first, yet on slot A the load
    ends before the save begins. *)
Lemma ordered_io_in_scheduling_order_witness :
  ∃ st w,
    io_run example_actions (io_init, []) = Some (st, w) ∧
    io_trace st = [IOBegin 2; IOBegin 0; IOEnd 2; IOEnd 0; IOSignal 0;
                   IOBegin 1; IOEnd 1; IOSignal 1] ∧
    w = ["load slotB"; "load slotA"; "save slotA"] ∧
    precedes (IOBegin 0) (IOEnd 0) (io_trace st) ∧
    precedes (IOEnd 0) (IOBegin 1) (io_trace st).
Proof.
  destruct (io_run example_actions (io_init, [])) as [[st w]|] eqn:Hrun;
    [|vm_compute in Hrun; discriminate Hrun].
  exists st, w. split; [reflexivity|].
  pose proof (ordered_io_in_scheduling_order _ _ _ _ Hrun) as (_ & Hord & _).
  vm_compute in Hrun. injection Hrun as <- <-.
  split; [reflexivity|]. split; [reflexivity|].
  eapply (Hord 0%nat 1%nat); [lia | reflexivity | reflexivity | reflexivity |].
  cbn. rewrite !elem_of_cons. auto 10.
Defined.

(** The witness of [operation_signals_whatever_its_io]: the [LoadState] of a
    file that does not exist leaves the world as it was, and its event
    fires all the same. *)
Lemma operation_signals_whatever_its_io_witness :
  ∃ st',
    io_run [Begin 0; Finish 0; Signal 0] (example_loading, example_world)
      = Some (st', example_world) ∧
    task_status <$> io_tasks st' !! 0%nat = Some Completed ∧
    IOSignal 0 ∈ io_trace st'.
Proof.
  destruct (operation_signals_whatever_its_io example_loading example_world
              0 _ eq_refl eq_refl eq_refl) as (st' & Hrun & Hs & Hsig & _).
  exists st'. split; [exact Hrun|]. split; [exact Hs | exact Hsig].
Defined.

(** *** An operation that is never called *)

Section Uncalled.
Context {W : Type}.
Implicit Types (st : io_state W) (t : io_task W) (w : W).

Lemma advance_status (k i : nat) (from to : io_status) (ev : list io_event)
  (st st' : io_state W) (s : io_status) :
  advance k from to ev st = Some st' →
  status_of st i = Some s → k ≠ i ∨ from ≠ s →
  status_of st' i = Some s.
Proof.
  intros (t & Ht & Hs & ->)%advance_Some Hi Hne. unfold status_of in *. cbn.
  destruct (decide (k = i)) as [->|Hki].
  - rewrite Ht in Hi. injection Hi as Hi. destruct Hne; congruence.
  - by rewrite list_lookup_alter_ne.
Qed.

Lemma io_step_keeps_Held (a : io_action W) (st st' : io_state W) (w w' : W)
  (i : nat) :
  io_step a (st, w) = Some (st', w') → a ≠ Call i →
  status_of st i = Some Held → status_of st' i = Some Held.
Proof.
  intros Hstep Ha Hi.
  assert (Hlt : (i < length (io_tasks st))%nat).
  { unfold status_of in Hi. apply lookup_lt_is_Some.
    destruct (io_tasks st !! i); [eauto|done]. }
  destruct a as [[] p op|p ser op|k|k|k|k]; cbn in Hstep.
  - injection Hstep as <- _. unfold status_of in *. cbn.
    by rewrite lookup_app_l.
  - done.
  - injection Hstep as <- _. unfold status_of in *. cbn.
    by rewrite lookup_app_l.
  - destruct (io_tasks st !! k) as [t|]; [|done]. cbn in Hstep.
    destruct (advance _ _ _ _ _) as [st1|] eqn:Hadv; [|done].
    injection Hstep as <- _. apply (advance_status _ _ _ _ _ _ _ _ Hadv Hi).
    left. congruence.
  - destruct (io_tasks st !! k) as [t|]; [|done]. cbn in Hstep.
    destruct (prerequisite_complete st t); [|done].
    destruct (advance _ _ _ _ _) as [st1|] eqn:Hadv; [|done].
    injection Hstep as <- _. apply (advance_status _ _ _ _ _ _ _ _ Hadv Hi).
    by right.
  - destruct (io_tasks st !! k) as [t|]; [|done]. cbn in Hstep.
    destruct (advance _ _ _ _ _) as [st1|] eqn:Hadv; [|done].
    injection Hstep as <- _. apply (advance_status _ _ _ _ _ _ _ _ Hadv Hi).
    by right.
  - destruct (advance _ _ _ _ _) as [st1|] eqn:Hadv; [|done].
    injection Hstep as <- _. apply (advance_status _ _ _ _ _ _ _ _ Hadv Hi).
    by right.
Qed.

Lemma io_run_keeps_Held (acts : list (io_action W)) (st st' : io_state W)
  (w w' : W) (i : nat) :
  io_run acts (st, w) = Some (st', w') → Call i ∉ acts →
  status_of st i = Some Held → status_of st' i = Some Held.
Proof.
  revert st w. induction acts as [|a acts IH]; intros st w.
  - by intros [= <- _].
  - change (io_run (a :: acts) (st, w)) with (io_step a (st, w) ≫= io_run acts).
    destruct (io_step a (st, w)) as [[st1 w1]|] eqn:Hstep; [|done].
    cbn. intros Hrun Hnot Hi. apply not_elem_of_cons in Hnot as [Ha Hnot].
    apply (IH _ _ Hrun Hnot). by apply (io_step_keeps_Held a st st1 w w1).
Qed.

(** An operation that is not completed keeps every later operation of its
    path from beginning. *)
Lemma not_completed_blocks (st : io_state W) (w : W) (i j : nat) (p : string)
  (s : io_status) :
  io_inv st → (i < j)%nat →
  path_of st i = Some p → path_of st j = Some p →
  status_of st i = Some s → s ≠ Completed →
  (IOBegin j ∉ io_trace st) ∧ io_step (Begin j) (st, w) = None.
Proof.
  intros Hinv Hij Hpi Hpj Hsi Hs. split.
  - intros (k & sk & Hk & He)%(inv_events st Hinv).
    pose proof (events_of_index _ _ _ He) as Hkj. cbn in Hkj. subst k.
    assert (has_begun sk = true).
    { destruct sk; cbn in He; try done; by apply elem_of_nil in He. }
    pose proof (inv_chain st Hinv i j p sk Hij Hpi Hpj Hk) as Hc.
    rewrite Hsi in Hc. by injection Hc; [congruence|].
  - cbn. unfold path_of in Hpj.
    destruct (io_tasks st !! j) as [tj|] eqn:Htj; [|done]. cbn. cbn in Hpj.
    assert (prerequisite_complete st tj = false) as ->; [|done].
    unfold prerequisite_complete.
    destruct (task_LastIOOperation tj) as [k|] eqn:Hprev.
    + destruct (inv_prev_some st Hinv j k) as (Hkj & Hpk & Hbetween).
      { unfold prev_of. by rewrite Htj, <- Hprev. }
      unfold path_of in Hpk at 2. rewrite Htj in Hpk. cbn in Hpk, Hpj.
      assert (Hik : (i ≤ k)%nat).
      { destruct (decide (i ≤ k)%nat); [done|].
        destruct (Hbetween i); [lia|].
        unfold path_of at 2. rewrite Htj, Hpi. cbn. congruence. }
      destruct (io_tasks st !! k) as [tk|] eqn:Htk; [|done].
      apply bool_decide_eq_false. intros Hdone.
      destruct (decide (i = k)) as [->|Hne].
      * unfold status_of in Hsi. rewrite Htk in Hsi. cbn in Hsi. congruence.
      * assert (Hpk' : path_of st k = Some p) by (rewrite Hpk; congruence).
        assert (Hsk : status_of st k = Some Completed)
          by (unfold status_of; by rewrite Htk, <- Hdone).
        pose proof (inv_chain st Hinv i k p Completed ltac:(lia) Hpi Hpk' Hsk
                      eq_refl) as Hc.
        congruence.
    + destruct (inv_prev_none st Hinv j) with (m := i); [|lia|].
      * unfold prev_of. by rewrite Htj, <- Hprev.
      * unfold path_of at 2. rewrite Htj, Hpi. cbn. congruence.
Qed.

(** An operation that is scheduled and never called stops its path:
    as long as the runtime it was enqueued to does not call it, no
    operation scheduled after it on the same path begins its I/O, and none
    can, whatever else happens. *)
Theorem uncalled_operation_blocks_its_path (acts0 acts : list (io_action W))
  (w0 w w' : W) (st st' : io_state W) (i j : nat) (p : string) :
  io_run acts0 (io_init, w0) = Some (st, w) →
  status_of st i = Some Held →
  io_run acts (st, w) = Some (st', w') →
  Call i ∉ acts →
  (i < j)%nat → path_of st' i = Some p → path_of st' j = Some p →
  (IOBegin j ∉ io_trace st') ∧ io_step (Begin j) (st', w') = None.
Proof.
  intros Hrun0 Hheld Hrun Hnot Hij Hpi Hpj.
  pose proof (io_inv_run _ _ _ _ _ io_inv_init Hrun0) as Hinv.
  pose proof (io_inv_run _ _ _ _ _ Hinv Hrun) as Hinv'.
  pose proof (io_run_keeps_Held _ _ _ _ _ _ Hrun Hnot Hheld) as Hheld'.
  by apply (not_completed_blocks st' w' i j p Held).
Qed.

End Uncalled.

(** The witness of [uncalled_operation_blocks_its_path]: the first
    operation on slot A is never called; the second, though called, cannot
    begin, while slot B goes ahead. *)
Lemma uncalled_operation_blocks_its_path_witness :
  ∃ s : io_state (list string) * list string,
    io_run [Schedule true "slotA" (λ p w, w ++ ["save " +:+ p]);
            Schedule true "slotA" (λ p w, w ++ ["load " +:+ p]);
            Schedule true "slotB" (λ p w, w ++ ["load " +:+ p]);
            Call 1; Call 2; Begin 2; Finish 2; Signal 2]
           (io_init, []) = Some s
    ∧ io_step (Begin 1) s = None.
Proof.
  eexists. split; [vm_compute; reflexivity|].
  eapply (λ H0 H1 H2 H3 H4 H5 H6, proj2
    (uncalled_operation_blocks_its_path
       [Schedule true "slotA" (λ p w, w ++ ["save " +:+ p]);
        Schedule true "slotA" (λ p w, w ++ ["load " +:+ p])]
       [Schedule true "slotB" (λ p w, w ++ ["load " +:+ p]);
        Call 1; Call 2; Begin 2; Finish 2; Signal 2]
       [] _ _ _ _ 0%nat 1%nat "slotA" H0 H1 H2 H3 H4 H5 H6)).
  - vm_compute. reflexivity.
  - reflexivity.
  - vm_compute. reflexivity.
  - intros Hin. repeat (apply elem_of_cons in Hin as [Hin|Hin]; [discriminate|]).
    by apply elem_of_nil in Hin.
  - lia.
  - reflexivity.
  - reflexivity.
Defined.

(** *** The chain does not deadlock *)

Section Progress.
Context {W : Type}.
Implicit Types (st : io_state W) (t : io_task W) (w : W).

Lemma steps_left_0 (tasks : list (io_task W)) :
  sum_list (steps_left ∘ task_status <$> tasks) = 0%nat →
  Forall (λ t, task_status t = Completed) tasks.
Proof.
  induction tasks as [|t tasks IH]; cbn; [done|]. intros Hsum.
  constructor; [|apply IH; lia].
  destruct (task_status t); cbn in Hsum; by try lia.
Qed.

(** The first operation that is not completed. *)
Lemma first_not_completed (tasks : list (io_task W)) :
  Forall (λ t, task_status t = Completed) tasks
  ∨ ∃ i t, tasks !! i = Some t ∧ task_status t ≠ Completed
           ∧ ∀ j tj, (j < i)%nat → tasks !! j = Some tj →
               task_status tj = Completed.
Proof.
  induction tasks as [|t tasks IH]; [by left|].
  destruct (decide (task_status t = Completed)) as [Hc|Hn].
  - destruct IH as [Hall|(i & ti & Hi & Hs & Hbefore)].
    + left. by constructor.
    + right. exists (S i), ti. split; [done|]. split; [done|].
      intros [|j] tj Hj Htj; [by injection Htj as <-|].
      apply (Hbefore j); [lia|done].
  - right. exists 0%nat, t. split; [done|]. split; [done|]. intros j tj Hj. lia.
Qed.

Lemma steps_left_alter (tasks : list (io_task W)) (i : nat) (t : io_task W)
  (to : io_status) :
  tasks !! i = Some t → S (steps_left to) = steps_left (task_status t) →
  S (sum_list (steps_left ∘ task_status <$> alter (with_status to) i tasks))
  = sum_list (steps_left ∘ task_status <$> tasks).
Proof.
  revert i. induction tasks as [|t' tasks IH]; intros [|i]; cbn; try done.
  - intros [= ->] Hto. lia.
  - intros Hi Hto. specialize (IH i Hi Hto).
    change (list_alter (with_status to) i tasks)
      with (alter (with_status to) i tasks). lia.
Qed.

(** The first operation that is not completed can take its next step. *)
Lemma next_step_enabled st w (i : nat) (t : io_task W) :
  io_inv st → io_tasks st !! i = Some t → task_status t ≠ Completed →
  (∀ j tj, (j < i)%nat → io_tasks st !! j = Some tj →
     task_status tj = Completed) →
  ∃ a st' w', next_step i (task_status t) = Some a
    ∧ io_step a (st, w) = Some (st', w')
    ∧ S (chain_steps_left st') = chain_steps_left st.
Proof.
  intros Hinv Hi Hs Hbefore.
  assert (Hadv : ∀ from to ev, task_status t = from →
    S (steps_left to) = steps_left from →
    ∃ st', advance i from to ev st = Some st'
           ∧ S (chain_steps_left st') = chain_steps_left st).
  { intros from to ev Hfrom Hto. unfold advance. rewrite Hi. cbn.
    rewrite bool_decide_eq_true_2 by done. eexists. split; [done|].
    unfold chain_steps_left. cbn. apply (steps_left_alter _ _ t); [done|].
    by rewrite Hfrom. }
  destruct (task_status t) eqn:Hst; [| | | |done].
  - destruct (Hadv Held Called [] eq_refl eq_refl) as (st' & Ha & Hm).
    exists (Call i), st', (task_Serialize t w). split; [done|].
    cbn. rewrite Hi. cbn. rewrite Ha. done.
  - destruct (Hadv Called Running [IOBegin i] eq_refl eq_refl)
      as (st' & Ha & Hm).
    exists (Begin i), st', w. split; [done|].
    cbn. rewrite Hi. cbn.
    assert (prerequisite_complete st t = true) as ->.
    { unfold prerequisite_complete.
      destruct (task_LastIOOperation t) as [k|] eqn:Hk; [|done].
      destruct (inv_prev_some st Hinv i k) as (Hki & _ & _).
      { unfold prev_of. by rewrite Hi, <- Hk. }
      destruct (lookup_lt_is_Some_2 (io_tasks st) k) as [tk Htk].
      { apply lookup_lt_Some in Hi. lia. }
      rewrite Htk. apply bool_decide_eq_true. by apply (Hbefore k). }
    rewrite Ha. done.
  - destruct (Hadv Running Finished [IOEnd i] eq_refl eq_refl)
      as (st' & Ha & Hm).
    exists (Finish i), st', (task_IOOperation t (task_FilePath t) w).
    split; [done|]. cbn. rewrite Hi. cbn. rewrite Ha. done.
  - destruct (Hadv Finished Completed [IOSignal i] eq_refl eq_refl)
      as (st' & Ha & Hm).
    exists (Signal i), st', w. split; [done|]. cbn. rewrite Ha. done.
Qed.

Lemma chain_completes (m : nat) st w :
  io_inv st → chain_steps_left st = m →
  ∃ acts st' w',
    length acts = m ∧ Forall (λ a, is_step a = true) acts
    ∧ io_run acts (st, w) = Some (st', w')
    ∧ Forall (λ t, task_status t = Completed) (io_tasks st').
Proof.
  revert st w. induction m as [|m IH]; intros st w Hinv Hm.
  - exists [], st, w. split; [done|]. split; [done|]. split; [done|].
    by apply steps_left_0.
  - destruct (first_not_completed (io_tasks st))
      as [Hall|(i & t & Hi & Hs & Hbefore)].
    + exfalso. unfold chain_steps_left in Hm.
      assert (sum_list (steps_left ∘ task_status <$> io_tasks st) = 0%nat);
        [|lia].
      clear Hm. induction Hall as [|t tasks Ht Hall IHall]; [done|].
      cbn. rewrite Ht. cbn. apply IHall.
    + destruct (next_step_enabled st w i t Hinv Hi Hs Hbefore)
        as (a & st1 & w1 & Hnext & Hstep & Hless).
      destruct (IH st1 w1) as (acts & st' & w' & Hlen & Hsteps & Hrun & Hdone).
      { by apply (io_inv_step a st st1 w w1). }
      { lia. }
      exists (a :: acts), st', w'. split; [cbn; lia|]. split.
      * constructor; [|done].
        destruct (task_status t); cbn in Hnext; try done;
          by injection Hnext as <-.
      * split; [|done].
        change (io_run (a :: acts) (st, w))
          with (io_step a (st, w) ≫= io_run acts).
        by rewrite Hstep.
Qed.

(** Running one list of actions after another. *)
Lemma io_run_app (acts acts' : list (io_action W)) (s : io_state W * W) :
  io_run (acts ++ acts') s = io_run acts s ≫= io_run acts'.
Proof.
  revert s. induction acts as [|a acts IH]; intros s; [done|].
  change (io_run ((a :: acts) ++ acts') s)
    with (io_step a s ≫= io_run (acts ++ acts')).
  change (io_run (a :: acts) s) with (io_step a s ≫= io_run acts).
  destruct (io_step a s) as [s1|]; [|done]. cbn. apply IH.
Qed.

(** The chain does not deadlock.  From every state it can reach, the
    operations made so far can all be completed, without scheduling
    anything more, in as many steps as they have before them: an operation
    waits only for an operation made before it. *)
Theorem chain_can_complete (acts : list (io_action W)) (w0 w : W)
  (st : io_state W) :
  io_run acts (io_init, w0) = Some (st, w) →
  ∃ acts' st' w',
    length acts' = chain_steps_left st
    ∧ Forall (λ a, is_step a = true) acts'
    ∧ io_run acts' (st, w) = Some (st', w')
    ∧ Forall (λ t, task_status t = Completed) (io_tasks st').
Proof.
  intros Hrun. apply chain_completes; [|done].
  by apply (io_inv_run acts io_init st w0 w io_inv_init).
Qed.

End Progress.

(** The witness of [chain_can_complete]: the example, then two more
    operations on slot A, the second of them called. *)
Lemma chain_can_complete_witness :
  ∃ acts' st' w',
    length acts' = 8%nat
    ∧ io_run ((example_actions ++ [Schedule true "slotA" (λ p w, w);
                                   Schedule true "slotA" (λ p w, w); Call 4])
              ++ acts') (io_init, []) = Some (st', w')
    ∧ Forall (λ t, task_status t = Completed) (io_tasks st').
Proof.
  destruct (io_run (example_actions ++ [Schedule true "slotA" (λ p w, w);
                                        Schedule true "slotA" (λ p w, w);
                                        Call 4])
                   (io_init, ([] : list string))) as [[st w]|] eqn:Hrun;
    [|vm_compute in Hrun; discriminate].
  destruct (chain_can_complete _ _ _ _ Hrun)
    as (acts' & st' & w' & Hlen & _ & Hrun' & Hdone).
  exists acts', st', w'. split; [|split; [|done]].
  - rewrite Hlen. vm_compute in Hrun. by injection Hrun as <- _.
  - by rewrite io_run_app, Hrun.
Defined.

(** ** The component: [Launch] and the operation of [LoadState] *)

Section ComponentFacts.

Context {core : Type}.
Variable retro_serialize_size : core → Z.
Variable retro_unserialize : list Z → Z → core → core.
Variable retro_get_memory_size : core → Z.
Variable write_save_ram : list Z → core → core.
Variable CorePath : string → string.
Variable ROMPath : string → string.
Variable SRAMPath : string → string → string.

Local Abbreviation Launch :=
  (Launch retro_get_memory_size write_save_ram CorePath ROMPath SRAMPath).
Local Abbreviation LoadState_IOOperation :=
  (LoadState_IOOperation retro_serialize_size retro_unserialize).

(** [Shutdown] leaves the component without a [CoreInstance], and makes
    nothing. *)
Lemma Shutdown_unsets (g : @game core) :
  CoreInstance (Shutdown g) = None ∧
  Rom (Shutdown g) = Rom g ∧ Core (Shutdown g) = Core g ∧
  AudioBuffer (Shutdown g) = AudioBuffer g ∧
  RenderTarget (Shutdown g) = RenderTarget g ∧
  physical_files (Shutdown g) = physical_files g ∧
  physical_directories (Shutdown g) = physical_directories g ∧
  objects (Shutdown g) = objects g ∧ contexts (Shutdown g) = contexts g ∧
  chain (Shutdown g) = chain g.
Proof. unfold Shutdown. by destruct (CoreInstance g). Qed.

(** C8: when the core file does not exist, or the ROM path is neither a
    file nor a directory, [Launch] returns with [CoreInstance] unset and has
    made no object (no audio buffer, no render target), no context and
    thread, and no operation on the chain; it has only written the
    warning. *)
Theorem Launch_missing_file_makes_nothing (g : @game core) :
  let Rom' := if decide (Rom g = "") then "MAZE" else Rom g in
  let Core' := if decide (Core g = "") then "emux_chip8_libretro.dll" else Core g in
  ((CorePath Core' ∉ physical_files g) ∨
   ((ROMPath Rom' ∉ physical_files g) ∧ (ROMPath Rom' ∉ physical_directories g))) →
  CoreInstance (Launch g) = None ∧
  contexts (Launch g) = contexts g ∧
  objects (Launch g) = objects g ∧
  AudioBuffer (Launch g) = AudioBuffer g ∧
  RenderTarget (Launch g) = RenderTarget g ∧
  chain (Launch g) = chain g ∧
  ∃ warning, game_log (Launch g) = game_log (Shutdown g) ++ [warning].
Proof.
  cbn zeta. intros Hmissing. unfold Launch.
  destruct (Shutdown_unsets g)
    as (HCI & HRom & HCore & HAB & HRT & Hf & Hd & Hobj & Hctx & Hchain).
  rewrite HRom, HCore, Hf, Hd.
  destruct (bool_decide (CorePath _ ∈ physical_files g)) eqn:Hcore; cbn.
  - destruct (bool_decide (ROMPath _ ∈ physical_files g)) eqn:Hrom1; cbn.
    { apply bool_decide_eq_true in Hcore, Hrom1. exfalso. tauto. }
    destruct (bool_decide (ROMPath _ ∈ physical_directories g)) eqn:Hrom2; cbn.
    { apply bool_decide_eq_true in Hcore, Hrom2. exfalso. tauto. }
    rewrite HCI, HAB, HRT, Hobj, Hctx, Hchain. eauto 10.
  - rewrite HCI, HAB, HRT, Hobj, Hctx, Hchain. eauto 10.
Qed.


(** C9: the operation of [LoadState].  When the file cannot be read it
    changes nothing: the core is not called and nothing is logged.  When it
    can, [unserialize] is called with the bytes of the file and their
    number, whether or not that number is the size the core reports; a
    warning is logged exactly when the two differ. *)
Theorem LoadState_best_effort (Core SaveStatePath : string) (w : @io_world core) :
  (files w !! SaveStatePath = None →
   LoadState_IOOperation Core SaveStatePath w = w) ∧
  (∀ SaveStateBuffer, files w !! SaveStatePath = Some SaveStateBuffer →
   let Num := Z.of_nat (length SaveStateBuffer) in
   let w' := LoadState_IOOperation Core SaveStatePath w in
   api w' = retro_unserialize SaveStateBuffer Num (api w) ∧
   files w' = files w ∧
   (Num = retro_serialize_size (api w) → Log w' = Log w) ∧
   (Num ≠ retro_serialize_size (api w) →
    Log w' = Log w ++ [SizeMismatch Core Num (retro_serialize_size (api w))])).
Proof.
  unfold LoadState_IOOperation. split.
  - by intros ->.
  - intros buf ->. cbn. repeat split.
    + intros ->. by rewrite Z.eqb_refl.
    + intros Hne. apply Z.eqb_neq in Hne. by rewrite Hne.
Qed.

End ComponentFacts.

(** The witness of [Launch_missing_file_makes_nothing]: the ROM exists and
    the core file does not. *)
Lemma Launch_missing_file_makes_nothing_witness :
  CoreInstance (example_Launch example_game) = None ∧
  contexts (example_Launch example_game) = contexts example_game ∧
  objects (example_Launch example_game) = objects example_game ∧
  AudioBuffer (example_Launch example_game) = AudioBuffer example_game ∧
  RenderTarget (example_Launch example_game) = RenderTarget example_game ∧
  chain (example_Launch example_game) = chain example_game ∧
  ∃ warning, game_log (example_Launch example_game)
             = game_log (Shutdown example_game) ++ [warning].
Proof.
  apply (Launch_missing_file_makes_nothing (λ _, 0) (λ _ c, c)
           (λ c, "cores/" +:+ c) (λ r, "roms/" +:+ r)
           (λ r i, "saves/" +:+ r +:+ i) example_game).
  left. cbn. set_solver.
Defined.


(** The witness of [LoadState_best_effort]: the example world, read at a
    path that has no file and at the path that has one. *)
Lemma LoadState_best_effort_witness :
  example_LoadState "chip8.dll" "saves/pong1" example_world = example_world ∧
  api (example_LoadState "chip8.dll" "saves/pong0" example_world) = [1; 2; 3] ∧
  Log (example_LoadState "chip8.dll" "saves/pong0" example_world)
    = [SizeMismatch "chip8.dll" 3 4].
Proof.
  pose proof (LoadState_best_effort (λ _ : list Z, 4)
                (λ data n _, take (Z.to_nat n) data) "chip8.dll" "saves/pong1"
                example_world) as [Hnone _].
  pose proof (LoadState_best_effort (λ _ : list Z, 4)
                (λ data n _, take (Z.to_nat n) data) "chip8.dll" "saves/pong0"
                example_world) as [_ Hsome].
  specialize (Hsome [1; 2; 3] eq_refl) as (Hapi & _ & _ & Hlog).
  split; [apply Hnone; reflexivity|].
  split; [exact Hapi|]. apply Hlog. cbn. lia.
Defined.

(** ** [LoadState] and [SaveState] *)

Section SaveStatesFacts.
Context {core : Type}.
Variable retro_serialize_size : core → Z.
Variable retro_serialize : Z → core → list Z * core.
Variable retro_unserialize : list Z → Z → core → core.
Variable SaveArrayToFile :
  list Z → string → gmap string (list Z) → gmap string (list Z).
Variable SaveStatePath : string → string → string.

Local Abbreviation world := (@save_world core).
Local Abbreviation serialize_task :=
  (SaveState_serialize retro_serialize_size retro_serialize).
Local Abbreviation file_task := (SaveState_to_file SaveArrayToFile).
Local Abbreviation load_operation :=
  (LoadState_operation retro_serialize_size retro_unserialize).
Local Abbreviation rel :=
  (save_then_load retro_serialize_size retro_serialize retro_unserialize
                  SaveArrayToFile).

(** The two operations, after every operation of a chain [old]. *)
Lemma advance_last_two (k : nat) (from to : io_status) (ev : list io_event)
  (st st' : io_state world) (old : list (io_task world)) (x y : io_task world) :
  io_tasks st = old ++ [x; y] →
  Forall (λ t, task_status t = Completed) old → from ≠ Completed →
  advance k from to ev st = Some st' →
  LastIOTask st' = LastIOTask st ∧
  ((k = length old ∧ task_status x = from
    ∧ io_tasks st' = old ++ [with_status to x; y])
   ∨ (k = S (length old) ∧ task_status y = from
      ∧ io_tasks st' = old ++ [x; with_status to y])).
Proof.
  intros Htasks Hold Hfrom (t & Ht & Hs & ->)%advance_Some. cbn.
  split; [done|]. rewrite Htasks in Ht |- *.
  destruct (decide (k < length old)%nat) as [Hlt|Hge].
  - rewrite lookup_app_l in Ht by done.
    pose proof (Forall_lookup_1 _ _ _ _ Hold Ht) as Hc. cbn in Hc. congruence.
  - rewrite lookup_app_r in Ht by lia.
    rewrite alter_app_r_alt by lia.
    destruct (k - length old)%nat as [|[|m]] eqn:Hk; cbn in Ht; [| |done].
    + left. injection Ht as <-. split; [lia|]. done.
    + right. injection Ht as <-. split; [lia|]. done.
Qed.

Section Step.
Variables (w : world) (old : list (io_task world)).
Variables (Core path : string) (prev : option nat).
Hypothesis Hold : Forall (λ t : io_task world, task_status t = Completed) old.

Let n := length old.
Let save (s : io_status) : io_task world :=
  IOTask path prev (serialize_task n) (file_task n) s.
Let load (s : io_status) : io_task world :=
  IOTask path (Some n) id (load_operation Core) s.

Lemma save_then_load_step (a : io_action world) (st st' : io_state world)
  (w1 w1' : world) (s0 s1 : io_status) :
  is_step a = true →
  io_tasks st = old ++ [save s0; load s1] →
  rel w n Core path s0 s1 w1 →
  io_step a (st, w1) = Some (st', w1') →
  ∃ s0' s1', io_tasks st' = old ++ [save s0'; load s1']
             ∧ rel w n Core path s0' s1' w1'.
Proof.
  intros Ha Htasks Hrel Hstep. unfold save_then_load in *.
  destruct (retro_serialize _ _) as [bytes api'] eqn:Hser.
  assert (Hn : (old ++ [save s0; load s1]) !! length old = Some (save s0)).
  { rewrite lookup_app_r by lia. by rewrite Nat.sub_diag. }
  assert (HSn : (old ++ [save s0; load s1]) !! S (length old) = Some (load s1)).
  { rewrite lookup_app_r by lia.
    by replace (S (length old) - length old)%nat with 1%nat by lia. }
  destruct a as [? ? ?|? ? ?|k|k|k|k]; try done; cbn in Hstep.
  - (* Call *)
    destruct (io_tasks st !! k) as [t|] eqn:Ht; [|done]. cbn in Hstep.
    destruct (advance _ _ _ _ _) as [st1|] eqn:Hadv; [|done].
    injection Hstep as <- <-. rewrite Htasks in Ht.
    destruct (advance_last_two k Held Called [] st st1 old _ _ Htasks Hold
                ltac:(done) Hadv)
      as [_ [(Hk & Hs & Htasks')|(Hk & Hs & Htasks')]];
      cbn in Hs; rewrite Hk in Ht; rewrite Htasks'.
    + rewrite Hn in Ht. injection Ht as <-. cbn. rewrite Hs in Hrel.
      exists Called, s1. split; [done|].
      unfold SaveState_serialize.
      destruct s1; try done; rewrite Hrel, Hser; cbn;
        by rewrite lookup_insert_eq.
    + rewrite HSn in Ht. injection Ht as <-. cbn. rewrite Hs in Hrel.
      exists s0, Called. split; [done|]. by destruct s0.
  - (* Begin *)
    destruct (io_tasks st !! k) as [t|] eqn:Ht; [|done]. cbn in Hstep.
    destruct (prerequisite_complete st t) eqn:Hpre; [|done].
    destruct (advance _ _ _ _ _) as [st1|] eqn:Hadv; [|done].
    injection Hstep as <- <-. rewrite Htasks in Ht.
    destruct (advance_last_two k Called Running [IOBegin k] st st1 old _ _
                Htasks Hold ltac:(done) Hadv)
      as [_ [(Hk & Hs & Htasks')|(Hk & Hs & Htasks')]];
      cbn in Hs; rewrite Hk in Ht; rewrite Htasks'.
    + rewrite Hs in Hrel. exists Running, s1. split; [done|]. by destruct s1.
    + rewrite HSn in Ht. injection Ht as <-.
      unfold prerequisite_complete in Hpre. cbn in Hpre.
      rewrite Htasks in Hpre. unfold n in Hpre. rewrite Hn in Hpre.
      cbn in Hpre. apply bool_decide_eq_true in Hpre.
      rewrite Hpre, Hs in Hrel. rewrite Hpre.
      exists Completed, Running. done.
  - (* Finish *)
    destruct (io_tasks st !! k) as [t|] eqn:Ht; [|done]. cbn in Hstep.
    destruct (advance _ _ _ _ _) as [st1|] eqn:Hadv; [|done].
    injection Hstep as <- <-. rewrite Htasks in Ht.
    destruct (advance_last_two k Running Finished [IOEnd k] st st1 old _ _
                Htasks Hold ltac:(done) Hadv)
      as [_ [(Hk & Hs & Htasks')|(Hk & Hs & Htasks')]];
      cbn in Hs; rewrite Hk in Ht; rewrite Htasks'.
    + rewrite Hn in Ht. injection Ht as <-. cbn. rewrite Hs in Hrel.
      exists Finished, s1. split; [done|].
      unfold SaveState_to_file.
      destruct s1; try done; destruct Hrel as [-> ->]; done.
    + rewrite HSn in Ht. injection Ht as <-. cbn. rewrite Hs in Hrel.
      exists s0, Finished. split; [done|].
      destruct s0; try done. unfold LoadState_operation. cbn. by rewrite Hrel.
  - (* Signal *)
    destruct (advance _ _ _ _ _) as [st1|] eqn:Hadv; [|done].
    injection Hstep as <- <-.
    destruct (advance_last_two k Finished Completed [IOSignal k] st st1 old _ _
                Htasks Hold ltac:(done) Hadv)
      as [_ [(Hk & Hs & Htasks')|(Hk & Hs & Htasks')]];
      cbn in Hs; rewrite Htasks'; rewrite Hs in Hrel.
    + exists Completed, s1. split; [done|]. by destruct s1.
    + exists s0, Completed. split; [done|]. by destruct s0.
Qed.

Lemma save_then_load_run (acts : list (io_action world))
  (st st' : io_state world) (w1 w1' : world) (s0 s1 : io_status) :
  Forall (λ a, is_step a = true) acts →
  io_tasks st = old ++ [save s0; load s1] →
  rel w n Core path s0 s1 w1 →
  io_run acts (st, w1) = Some (st', w1') →
  ∃ s0' s1', io_tasks st' = old ++ [save s0'; load s1']
             ∧ rel w n Core path s0' s1' w1'.
Proof.
  intros Hacts. revert st w1 s0 s1.
  induction Hacts as [|a acts Ha Hacts IH]; intros st w1 s0 s1 Htasks Hrel.
  - intros [= <- <-]. eauto.
  - change (io_run (a :: acts) (st, w1)) with (io_step a (st, w1) ≫= io_run acts).
    destruct (io_step a (st, w1)) as [[st2 w2]|] eqn:Hstep; [|done]. cbn.
    destruct (save_then_load_step _ _ _ _ _ _ _ Ha Htasks Hrel Hstep)
      as (s0' & s1' & Htasks' & Hrel').
    by apply (IH st2 w2 s0' s1').
Qed.

End Step.

(** A save state round trip.  On a launched component whose chain is
    at rest, [SaveState] and then [LoadState] of one identifier enqueue two
    tasks to the runtime; whatever the order in which the threads then run
    the steps of the two operations, once the load has done its I/O the
    core is the one [unserialize] makes from the bytes that [serialize]
    gave, provided the file was written. *)
Theorem SaveState_then_LoadState_round_trip (c : save_states) (ctx : nat)
  (Identifier : string) (acts : list (io_action world)) (w w' : world)
  (st' : io_state world) (s : io_status) (bytes : list Z) (api' : core) :
  saving_CoreInstance c = Some ctx →
  Forall (λ t, task_status t = Completed) (io_tasks (saving_chain c)) →
  retro_serialize (retro_serialize_size (api (save_io w))) (api (save_io w))
    = (bytes, api') →
  SaveArrayToFile bytes (SaveStatePath (saving_Rom c) Identifier)
                  (files (save_io w))
    !! SaveStatePath (saving_Rom c) Identifier = Some bytes →
  Forall (λ a, is_step a = true) acts →
  io_run acts
    (saving_chain
       (LoadState retro_serialize_size retro_unserialize SaveStatePath
          Identifier
          (SaveState retro_serialize_size retro_serialize SaveArrayToFile
             SaveStatePath Identifier c)), w) = Some (st', w') →
  status_of st' (S (length (io_tasks (saving_chain c)))) = Some s →
  s = Finished ∨ s = Completed →
  saving_enqueued
    (LoadState retro_serialize_size retro_unserialize SaveStatePath
       Identifier
       (SaveState retro_serialize_size retro_serialize SaveArrayToFile
          SaveStatePath Identifier c))
  = saving_enqueued c
    ++ [(ctx, length (io_tasks (saving_chain c)));
        (ctx, S (length (io_tasks (saving_chain c))))]
  ∧ api (save_io w')
    = retro_unserialize bytes (Z.of_nat (length bytes)) api'
  ∧ files (save_io w') !! SaveStatePath (saving_Rom c) Identifier = Some bytes.
Proof.
  set (n := length (io_tasks (saving_chain c))).
  set (path := SaveStatePath (saving_Rom c) Identifier).
  set (c' := LoadState _ _ _ _ _).
  intros Hctx Hold Hser Hwrite Hacts Hrun Hs Hdone.
  assert (Hc' : saving_enqueued c' = saving_enqueued c ++ [(ctx, n); (ctx, S n)]
                ∧ io_tasks (saving_chain c')
                  = io_tasks (saving_chain c)
                    ++ [IOTask path (LastIOTask (saving_chain c) !! path)
                               (serialize_task n) (file_task n) Held;
                        IOTask path (Some n) id
                               (load_operation (saving_Core c)) Held]).
  { unfold c', LoadState, SaveState. rewrite Hctx. cbn.
    rewrite length_app, <- !app_assoc. cbn.
    rewrite lookup_insert_eq. cbn.
    replace (length (io_tasks (saving_chain c)) + 1)%nat with (S n)
      by (unfold n; lia).
    done. }
  destruct Hc' as [Henq Htasks]. split; [done|].
  destruct (save_then_load_run w (io_tasks (saving_chain c))
              (saving_Core c) path (LastIOTask (saving_chain c) !! path)
              Hold acts (saving_chain c') st' w w' Held Held Hacts Htasks)
    as (s0' & s1' & Htasks' & Hrel); [|done|].
  { unfold save_then_load. by rewrite Hser. }
  unfold status_of in Hs. rewrite Htasks' in Hs.
  rewrite lookup_app_r in Hs by (unfold n; lia).
  replace (S n - length (io_tasks (saving_chain c)))%nat with 1%nat in Hs
    by (unfold n; lia).
  cbn in Hs. injection Hs as ->.
  unfold save_then_load in Hrel. rewrite Hser in Hrel.
  assert (Hio : save_io w'
    = LoadState_IOOperation retro_serialize_size retro_unserialize
        (saving_Core c) path
        (IOWorld (SaveArrayToFile bytes path (files (save_io w))) api'
                 (Log (save_io w)))).
  { destruct Hdone as [-> | ->]; by destruct s0'. }
  rewrite Hio. unfold LoadState_IOOperation. cbn. rewrite Hwrite. done.
Qed.

End SaveStatesFacts.

(** The witness of [SaveState_then_LoadState_round_trip]: a core whose
    state is a list of bytes, of which it serializes three. *)
Lemma SaveState_then_LoadState_round_trip_witness :
  ∃ w' : @save_world (list Z),
    snd <$> io_run
      [Call 0; Call 1; Begin 0; Finish 0; Signal 0; Begin 1; Finish 1]
      (saving_chain
         (LoadState (λ _, 3) (λ data n _, take (Z.to_nat n) data)
            (λ r i, "saves/" +:+ r +:+ i) "0"
            (SaveState (λ _, 3) (λ n c, (take (Z.to_nat n) c, c ++ [0]))
               (λ bytes p fs, <[p := bytes]> fs)
               (λ r i, "saves/" +:+ r +:+ i) "0" example_save_states)),
       SaveWorld (IOWorld ∅ [7; 8; 9; 10] []) ∅) = Some w'
    ∧ api (save_io w') = [7; 8; 9].
Proof.
  destruct (io_run _ _) as [[st' w']|] eqn:Hrun;
    [|vm_compute in Hrun; discriminate].
  exists w'. split; [done|].
  apply (SaveState_then_LoadState_round_trip
           (λ _, 3) (λ n c, (take (Z.to_nat n) c, c ++ [0]))
           (λ data n _, take (Z.to_nat n) data)
           (λ bytes p fs, <[p := bytes]> fs) (λ r i, "saves/" +:+ r +:+ i)
           example_save_states 0%nat "0"
           [Call 0; Call 1; Begin 0; Finish 0; Signal 0; Begin 1; Finish 1]
           (SaveWorld (IOWorld ∅ [7; 8; 9; 10] []) ∅) w' st' Finished
           [7; 8; 9] [7; 8; 9; 10; 0]
           eq_refl (Forall_nil_2 _) eq_refl (lookup_insert_eq _ _ _)
           ltac:(repeat constructor) Hrun).
  - vm_compute in Hrun. by injection Hrun as <- <-.
  - by left.
Defined.

(** ** Controllers and [BeginDestroy] *)

Section PathKept.
Context {W : Type}.

(** The path of an operation does not change. *)
Lemma io_step_path_of (a : io_action W) (st st' : io_state W) (w w' : W)
  (i : nat) (p : string) :
  io_step a (st, w) = Some (st', w') →
  path_of st i = Some p → path_of st' i = Some p.
Proof.
  intros Hstep Hi.
  assert (Hlt : (i < length (io_tasks st))%nat).
  { unfold path_of in Hi. apply lookup_lt_is_Some.
    destruct (io_tasks st !! i); [eauto|done]. }
  assert (Hadv : ∀ k from to ev st1,
    advance k from to ev st = Some st1 → path_of st1 i = Some p).
  { intros k from to ev st1 (t & Ht & _ & ->)%advance_Some.
    unfold path_of in *. cbn. destruct (decide (k = i)) as [->|Hne].
    - rewrite list_lookup_alter_eq, Ht. rewrite Ht in Hi. done.
    - by rewrite list_lookup_alter_ne. }
  destruct a as [[] q op|q ser op|k|k|k|k]; cbn in Hstep.
  - injection Hstep as <- _. unfold path_of in *. cbn. by rewrite lookup_app_l.
  - done.
  - injection Hstep as <- _. unfold path_of in *. cbn. by rewrite lookup_app_l.
  - destruct (io_tasks st !! k) as [t|]; [|done]. cbn in Hstep.
    destruct (advance _ _ _ _ _) as [st1|] eqn:Ha; [|done].
    injection Hstep as <- _. by eapply Hadv.
  - destruct (io_tasks st !! k) as [t|]; [|done]. cbn in Hstep.
    destruct (prerequisite_complete st t); [|done].
    destruct (advance _ _ _ _ _) as [st1|] eqn:Ha; [|done].
    injection Hstep as <- _. by eapply Hadv.
  - destruct (io_tasks st !! k) as [t|]; [|done]. cbn in Hstep.
    destruct (advance _ _ _ _ _) as [st1|] eqn:Ha; [|done].
    injection Hstep as <- _. by eapply Hadv.
  - destruct (advance _ _ _ _ _) as [st1|] eqn:Ha; [|done].
    injection Hstep as <- _. by eapply Hadv.
Qed.

Lemma io_run_path_of (acts : list (io_action W)) (st st' : io_state W)
  (w w' : W) (i : nat) (p : string) :
  io_run acts (st, w) = Some (st', w') →
  path_of st i = Some p → path_of st' i = Some p.
Proof.
  revert st w. induction acts as [|a acts IH]; intros st w.
  - by intros [= <- _].
  - change (io_run (a :: acts) (st, w)) with (io_step a (st, w) ≫= io_run acts).
    destruct (io_step a (st, w)) as [[st1 w1]|] eqn:Hstep; [|done].
    cbn. intros Hrun Hi. apply (IH _ _ Hrun).
    by apply (io_step_path_of a st st1 w w1).
Qed.

End PathKept.

Section LifetimeFacts.
Context {core : Type}.
Variable retro_get_memory_size : core → Z.
Variable retro_get_memory_data : core → list Z.
Variable write_save_ram : list Z → core → core.
Variable SaveArrayToFile :
  list Z → string → gmap string (list Z) → gmap string (list Z).
Variable CorePath : string → string.
Variable ROMPath : string → string.
Variable SRAMPath : string → string → string.
Variable PortCount : nat.
Variable IsValid : nat → bool.

Local Abbreviation Launch :=
  (Launch retro_get_memory_size write_save_ram CorePath ROMPath SRAMPath).
Local Abbreviation BeginDestroy :=
  (BeginDestroy retro_get_memory_size retro_get_memory_data SaveArrayToFile
                SRAMPath PortCount IsValid).

(** Save RAM is saved before it is loaded again: when a launched
    component is destroyed and a component of the same [Rom] is launched
    afterwards, the save of the first is enqueued to its runtime, and, in
    whatever order the threads run from then on, the load of the second
    begins only after the save has ended and its completion has fired. *)
Theorem SaveSRAM_before_next_LoadSRAM (gA gA' gB : @game core)
  (ports : input_ports) (calls : list component_call) (ctx : nat)
  (acts0 acts : list (io_action (@io_world core))) (w0 w w' : @io_world core)
  (st' : io_state (@io_world core)) :
  io_run acts0 (io_init, w0) = Some (chain gA, w) →
  CoreInstance gA = Some ctx →
  BeginDestroy gA ports = Some (gA', calls) →
  Rom gB = Rom gA → Rom gA ≠ "" → chain gB = chain gA' →
  CorePath (if decide (Core gB = "") then "emux_chip8_libretro.dll"
            else Core gB) ∈ physical_files gB →
  ROMPath (Rom gB) ∈ physical_files gB
  ∨ ROMPath (Rom gB) ∈ physical_directories gB →
  io_run acts (chain (Launch gB), w) = Some (st', w') →
  last calls = Some (EnqueueTask ctx (length (io_tasks (chain gA))))
  ∧ CoreInstance gA' = None
  ∧ (∃ CorePath' RomPath',
       last (contexts (Launch gB))
       = Some (CorePath', RomPath', S (length (io_tasks (chain gA)))))
  ∧ (IOBegin (S (length (io_tasks (chain gA)))) ∈ io_trace st' →
     precedes (IOEnd (length (io_tasks (chain gA))))
              (IOBegin (S (length (io_tasks (chain gA))))) (io_trace st')
     ∧ precedes (IOSignal (length (io_tasks (chain gA))))
                (IOBegin (S (length (io_tasks (chain gA))))) (io_trace st')).
Proof.
  intros Hrun0 Hctx Hdestroy HRom Hne Hchain Hcore Hrom Hrun.
  set (P := SRAMPath (Rom gA) "Default").
  set (n := length (io_tasks (chain gA))).
  (* the destruction *)
  unfold BeginDestroy in Hdestroy.
  destruct (mapM _ _) as [calls0|]; [|done]. cbn in Hdestroy.
  rewrite Hctx in Hdestroy. cbn in Hdestroy.
  injection Hdestroy as <- <-.
  set (chainA := IOState (<[P := n]> (LastIOTask (chain gA)))
         (io_tasks (chain gA)
          ++ [IOTask P (LastIOTask (chain gA) !! P) id
                (SaveSRAM_IOOperation retro_get_memory_size
                   retro_get_memory_data SaveArrayToFile) Held])
         (io_trace (chain gA))) in *.
  cbn in Hchain.
  (* the launch *)
  assert (HlenA : length (io_tasks chainA) = S n)
    by (unfold chainA; cbn; rewrite length_app; cbn; unfold n; lia).
  assert (HL : chain (Launch gB)
               = IOState (<[P := length (io_tasks chainA)]> (LastIOTask chainA))
                   (io_tasks chainA
                    ++ [IOTask P (LastIOTask chainA !! P) id
                          (LoadSRAM_IOOperation retro_get_memory_size
                             write_save_ram) Held])
                   (io_trace chainA)
             ∧ ∃ CorePath' RomPath',
                 last (contexts (Launch gB))
                 = Some (CorePath', RomPath', length (io_tasks chainA))).
  { unfold Launch.
    destruct (Shutdown_unsets gB)
      as (HCI & HRom' & HCore & HAB & HRT & Hf & Hd & Hobj & Hctxs & Hch).
    rewrite HRom', HCore, Hf, Hd, HRT, Hobj, Hctxs, Hch, Hchain, HRom.
    rewrite HRom in Hrom.
    destruct (decide (Rom gA = "")) as [|_]; [done|].
    rewrite (bool_decide_eq_true_2 _ Hcore). cbn.
    replace (negb (bool_decide (ROMPath (Rom gA) ∈ physical_files gB))
             && negb (bool_decide (ROMPath (Rom gA) ∈ physical_directories gB)))
      with false.
    2:{ symmetry. apply andb_false_iff.
        rewrite !negb_false_iff, !bool_decide_eq_true. exact Hrom. }
    destruct (RenderTarget gB); cbn;
      (split; [done|]); eexists _, _; apply last_snoc. }
  destruct HL as [HL Hcontexts]. rewrite HL in Hrun. rewrite HlenA in Hcontexts.
  (* the chain *)
  pose proof (io_inv_run _ _ _ _ _ io_inv_init Hrun0) as Hinv.
  assert (HinvA : io_inv chainA).
  { apply (io_inv_step (Schedule true P
             (SaveSRAM_IOOperation retro_get_memory_size retro_get_memory_data
                SaveArrayToFile)) (chain gA) chainA w w Hinv). reflexivity. }
  set (chainB := IOState _ _ _) in Hrun.
  assert (HinvB : io_inv chainB).
  { apply (io_inv_step (Schedule true P
             (LoadSRAM_IOOperation retro_get_memory_size write_save_ram))
             chainA chainB w w HinvA). reflexivity. }
  pose proof (io_inv_run _ _ _ _ _ HinvB Hrun) as Hinv'.
  assert (Hlen : length (io_tasks (chain gA)) = n) by done.
  assert (HpS : path_of chainB n = Some P).
  { unfold path_of, chainB. cbn [io_tasks].
    rewrite lookup_app_l by lia. unfold chainA. cbn [io_tasks].
    rewrite lookup_app_r by lia. by rewrite Hlen, Nat.sub_diag. }
  assert (HpL : path_of chainB (S n) = Some P).
  { unfold path_of, chainB. cbn [io_tasks].
    rewrite lookup_app_r by lia. by rewrite HlenA, Nat.sub_diag. }
  split; [apply last_snoc|]. split; [reflexivity|].
  split; [done|]. intros Hbegin.
  apply (inv_order st' Hinv' n (S n) P); [lia| | |done].
  - by apply (io_run_path_of acts chainB st' w w').
  - by apply (io_run_path_of acts chainB st' w w').
Qed.

End LifetimeFacts.

Section ControllerFacts.
Variable PortCount : nat.
Variable IsValid : nat → bool.

Local Abbreviation DisconnectController :=
  (DisconnectController PortCount IsValid).
Local Abbreviation ConnectController := (ConnectController PortCount IsValid).

(** Connecting a controller hands the port over.  [ConnectController]
    first makes the calls of [DisconnectController] for what the port held,
    then empties and binds the keys and pushes the input component of the
    port on the new controller; afterwards a [DisconnectController] of the
    port pops it from that controller, if it is still alive, and executes
    the new delegate; the other ports are as before. *)
Theorem ConnectController_hands_port_over (ports ports' : input_ports)
  (calls : list component_call) (pc : nat) (Port : Z)
  (ControllerBindings : list (Z * Z)) (delegate : option nat) :
  ConnectController (Some pc) Port ControllerBindings delegate ports
    = Some (ports', calls) →
  (∃ before, DisconnectController Port ports = Some before
     ∧ calls = before ++ [EmptyKeyBindings (Z.to_nat Port);
                          BindKeys (Z.to_nat Port) ControllerBindings;
                          PushInputComponent pc (Z.to_nat Port)])
  ∧ DisconnectController Port ports'
    = Some ((if IsValid pc then [PopInputComponent pc (Z.to_nat Port)] else [])
            ++ from_option
                 (λ d, [ExecuteDisconnected d
                          (if IsValid pc then Some pc else None)
                          (Z.to_nat Port)])
                 [] delegate)
  ∧ ∀ other, other ≠ Port →
      DisconnectController other ports' = DisconnectController other ports.
Proof.
  unfold ConnectController.
  destruct ((0 <=? Port) && (Port <? Z.of_nat PortCount)) eqn:Hrange; [|done].
  destruct (DisconnectController Port ports) as [before|] eqn:Hbefore; [|done].
  cbn. intros [= <- <-]. split; [by exists before|].
  unfold DisconnectController in *. rewrite Hrange in Hbefore.
  destruct (Controller ports !! Z.to_nat Port) as [weak|] eqn:Hc; [|done].
  destruct (Disconnected ports !! Z.to_nat Port) as [d|] eqn:Hd; [|done].
  apply lookup_lt_Some in Hc, Hd.
  apply andb_true_iff in Hrange as Hrange'. destruct Hrange' as [Hpos _].
  apply Z.leb_le in Hpos. split.
  - rewrite Hrange. cbn [Controller Disconnected].
    rewrite !list_lookup_insert_eq by done. cbn.
    by destruct (IsValid pc).
  - intros other Hother.
    destruct ((0 <=? other) && (other <? Z.of_nat PortCount)) eqn:Ho; [|done].
    apply andb_true_iff in Ho as [Hopos _]. apply Z.leb_le in Hopos.
    cbn [Controller Disconnected].
    rewrite !list_lookup_insert_ne by lia. done.
Qed.

End ControllerFacts.

(** The witness of [ConnectController_hands_port_over]: a controller is
    connected to the second of two free ports. *)
Lemma ConnectController_hands_port_over_witness :
  DisconnectController 2 (λ _, true) 1
    (InputPorts [None; Some 7%nat] [None; Some 3%nat])
  = Some [PopInputComponent 7 1; ExecuteDisconnected 3 (Some 7%nat) 1].
Proof.
  exact (proj1 (proj2 (ConnectController_hands_port_over 2 (λ _, true)
           (InputPorts [None; None] [None; None])
           (InputPorts [None; Some 7%nat] [None; Some 3%nat])
           [EmptyKeyBindings 1; BindKeys 1 [(13, 8)]; PushInputComponent 7 1]
           7%nat 1 [(13, 8)] (Some 3%nat) eq_refl))).
Defined.

(** The witness of [SaveSRAM_before_next_LoadSRAM]: the component of the
    examples is destroyed and launched again. *)
Lemma SaveSRAM_before_next_LoadSRAM_witness :
  ∃ st' w',
    io_run [Call 0; Begin 0; Finish 0; Signal 0; Call 1; Begin 1]
           (chain (example_Launch example_destroyed), example_world)
      = Some (st', w')
    ∧ precedes (IOEnd 0) (IOBegin 1) (io_trace st').
Proof.
  destruct (io_run _ _) as [[st' w']|] eqn:Hrun;
    [|vm_compute in Hrun; discriminate].
  exists st', w'. split; [done|].
  refine (proj1 (proj2 (proj2 (proj2
    (SaveSRAM_before_next_LoadSRAM (λ _, 0) (λ c, c) (λ _ c, c)
       (λ bytes p fs, <[p := bytes]> fs)
       (λ c, "cores/" +:+ c) (λ r, "roms/" +:+ r)
       (λ r i, "saves/" +:+ r +:+ i) 0 (λ _, true)
       example_game_with_core example_destroyed example_destroyed
       (InputPorts [] []) (default (example_game_with_core, [])
                             example_BeginDestroy).2
       0%nat [] [Call 0; Begin 0; Finish 0; Signal 0; Call 1; Begin 1]
       example_world example_world w' st'
       eq_refl eq_refl eq_refl eq_refl _ eq_refl _ _ Hrun))) _)).
  - done.
  - cbn. set_solver.
  - left. cbn. set_solver.
  - vm_compute in Hrun. injection Hrun as <- _.
    apply (list_elem_of_lookup_2 _ 3). reflexivity.
Defined.
